(** * The facet / state-field engine of [state/src/facet.ts]

    A shallow embedding of the extension-composition engine: flattening of
    extension trees, resolution into an addressed [Configuration], and the
    lazy, memoised, cycle-detecting evaluation of dynamic slots.

    Conventions of the embedding.
    - A JavaScript number that is only used through the bit operators is a
      [Z]; the operators apply [ToInt32] first, as the language does.  A
      value of type [number | undefined] (an address looked up in a table,
      a status cell) is an [option Z].
    - The arrays [state.values] and [state.status] are only read and written
      by index, so they are finite maps from index to cell: a missing key
      reads as [undefined] and an assignment defines the key, whatever the
      previous length.
    - Object identity is an explicit token [ref] on every extension object.
    - Callbacks that receive the editor state ([create], [update], the
      getter of a computed provider) are closures identified by a code
      pointer and run by an environment [Callbacks]; they may change the
      state and may throw.  The pure callbacks of a facet ([combine],
      [compare], [compareInput]) and of a field ([compare]) are functions.
    - A ghost log [calls] records every callback the engine invokes. *)

From stdpp Require Import gmap list fin_maps sorting.

Local Open Scope Z_scope.
Set Warnings "-register-all,-clear-no-such-hyp".
Set Default Proof Using "Type".

(** ** JavaScript values and integer operators *)

Definition Closure := nat.

Inductive value : Type :=
| VUndef
| VNum (n : Z)
| VArr (ref : nat) (items : list value)
| VFun (code : Closure).

Definition ToInt32 (z : Z) : Z := (z + 2 ^ 31) `mod` 2 ^ 32 - 2 ^ 31.

(** [ToInt32] of a [number | undefined]: [undefined] converts to [NaN],
    then to [0]. *)
Definition int32 (x : option Z) : Z :=
  match x with Some z => ToInt32 z | None => 0 end.

Definition js_shr (x : option Z) (k : Z) : Z := Z.shiftr (int32 x) k.
Definition js_shl (x : Z) (k : Z) : Z := ToInt32 (Z.shiftl (ToInt32 x) k).
Definition js_and (x : option Z) (y : Z) : Z := Z.land (int32 x) (ToInt32 y).
Definition js_or (x y : Z) : Z := Z.lor (ToInt32 x) (ToInt32 y).

(** [arr[i]] on an array that is never written out of range. *)
Definition array_get {A : Type} (arr : list A) (i : Z) : option A :=
  if decide (0 <= i) then arr !! Z.to_nat i else None.

Definition orUndef (v : option value) : value := default VUndef v.

(** ** Errors *)

Inductive Error : Type :=
| CyclicDependency   (* "Cyclic dependency between fields and/or facets" *)
| ComputeStatic      (* "Can't compute a static facet" *)
| NoFacetData        (* "No facet data for function ..." *)
| TypeError          (* calling or iterating something that is not callable or iterable *)
| UserError (code : nat).

Inductive Result (A : Type) : Type :=
| Ok (a : A)
| Throw (e : Error)
| OutOfFuel.
Arguments Ok {A} a.
Arguments Throw {A} e.
Arguments OutOfFuel {A}.

(** ** Facets *)

Record FacetData : Type := MkFacetData {
  fd_id : nat;
  fd_default : value;
  combine : list value -> value;
  compareInput : value -> value -> bool;
  compare : value -> value -> bool;
  isStatic : bool
}.

(** [new FacetData(combine, compareInput, compare, isStatic)]; returns the
    object and the advanced [nextID]. *)
Definition FacetData_new (combine : list value -> value)
    (compareInput compare : value -> value -> bool) (isStatic : bool)
    (nextID : nat) : FacetData * nat :=
  (MkFacetData nextID (combine []) combine compareInput compare isStatic, S nextID).

(** A facet is a function object carrying its data in [_data]. *)
Record Facet : Type := MkFacet { _data : option FacetData }.

Definition FacetData_get (f : Facet) : Result FacetData :=
  match _data f with
  | Some d => Ok d
  | None => Throw NoFacetData
  end.

Inductive Provider : Type := Static | Single | Multi.

Definition Provider_eqb (a b : Provider) : bool :=
  match a, b with
  | Static, Static | Single, Single | Multi, Multi => true
  | _, _ => false
  end.

Inductive Precedence : Type := Fallback | Default | Extend | Override.

Definition val (p : Precedence) : nat :=
  match p with Fallback => 3 | Default => 2 | Extend => 1 | Override => 0 end%nat.

(** ** Extensions

    [Extension = FacetProvider | StateField | PrecExtension | Extension[]].
    A field holds its derived providers in [facets], itself an array
    extension; a provider lists the slots it depends on. *)

Inductive Extension : Type :=
| ExtProvider (p : FacetProvider)
| ExtField (f : StateField)
| ExtPrec (ref : nat) (e : Extension) (prec : Precedence)
| ExtArray (ref : nat) (items : list Extension)
with FacetProvider : Type :=
| MkFacetProvider (ref : nat) (id : nat) (dependencies : list Slot)
    (facet : FacetData) (type : Provider) (payload : value)
with StateField : Type :=
| MkStateField (ref : nat) (id : nat) (createF updateF : Closure)
    (compareF : value -> value -> bool) (facets : Extension)
with Slot : Type :=
| SlotFacet (f : Facet)
| SlotField (f : StateField)
| SlotDoc
| SlotSelection.

Definition fp_ref (p : FacetProvider) := let 'MkFacetProvider r _ _ _ _ _ := p in r.
Definition fp_id (p : FacetProvider) := let 'MkFacetProvider _ i _ _ _ _ := p in i.
Definition fp_dependencies (p : FacetProvider) := let 'MkFacetProvider _ _ d _ _ _ := p in d.
Definition fp_facet (p : FacetProvider) := let 'MkFacetProvider _ _ _ f _ _ := p in f.
Definition fp_type (p : FacetProvider) := let 'MkFacetProvider _ _ _ _ t _ := p in t.
Definition fp_value (p : FacetProvider) := let 'MkFacetProvider _ _ _ _ _ v := p in v.

Definition sf_ref (f : StateField) := let 'MkStateField r _ _ _ _ _ := f in r.
Definition sf_id (f : StateField) := let 'MkStateField _ i _ _ _ _ := f in i.
Definition createF (f : StateField) := let 'MkStateField _ _ c _ _ _ := f in c.
Definition updateF (f : StateField) := let 'MkStateField _ _ _ u _ _ := f in u.
Definition compareF (f : StateField) := let 'MkStateField _ _ _ _ c _ := f in c.
Definition facets (f : StateField) := let 'MkStateField _ _ _ _ _ e := f in e.

(** The identity of an extension object, the key of the [seen] set. *)
Definition ref_of (e : Extension) : nat :=
  match e with
  | ExtProvider p => fp_ref p
  | ExtField f => sf_ref f
  | ExtPrec r _ _ => r
  | ExtArray r _ => r
  end.

(** Induction over extension trees, through arrays and field facets. *)
Section ExtensionInduction.
Variable P : Extension -> Prop.
Hypothesis Hprovider : forall p, P (ExtProvider p).
Hypothesis Hfield : forall r i c u cmp fs,
  P fs -> P (ExtField (MkStateField r i c u cmp fs)).
Hypothesis Hprec : forall r e prec, P e -> P (ExtPrec r e prec).
Hypothesis Harray : forall r items, Forall P items -> P (ExtArray r items).

Fixpoint Extension_tree_ind (e : Extension) : P e :=
  match e with
  | ExtProvider p => Hprovider p
  | ExtField (MkStateField r i c u cmp fs) =>
      Hfield r i c u cmp fs (Extension_tree_ind fs)
  | ExtPrec r e' prec => Hprec r e' prec (Extension_tree_ind e')
  | ExtArray r items =>
      Harray r items
        ((fix each (l : list Extension) : Forall P l :=
            match l with
            | [] => @List.Forall_nil _ P
            | x :: l0 => @List.Forall_cons _ P x l0 (Extension_tree_ind x) (each l0)
            end) items)
  end.
End ExtensionInduction.

(** ** Constructing providers *)

Definition bindR {A B : Type} (r : Result A) (k : A -> Result B) : Result B :=
  match r with
  | Ok a => k a
  | Throw e => Throw e
  | OutOfFuel => OutOfFuel
  end.

(** [new FacetProvider(dependencies, facet, type, value)]: the object takes
    the next id; [ref] is the identity of the fresh object. *)
Definition FacetProvider_new (dependencies : list Slot) (facet : FacetData)
    (type : Provider) (payload : value) (ref nextID : nat) : FacetProvider * nat :=
  (MkFacetProvider ref nextID dependencies facet type payload, S nextID).

Definition computedFacet (facet : Facet) (depends : list Slot) (get : Closure)
    (ref nextID : nat) : Result (FacetProvider * nat) :=
  bindR (FacetData_get facet) (fun data =>
    if isStatic data then Throw ComputeStatic
    else Ok (FacetProvider_new depends data Single (VFun get) ref nextID)).

Definition computedFacetN (facet : Facet) (depends : list Slot) (get : Closure)
    (ref nextID : nat) : Result (FacetProvider * nat) :=
  bindR (FacetData_get facet) (fun data =>
    if isStatic data then Throw ComputeStatic
    else Ok (FacetProvider_new depends data Multi (VFun get) ref nextID)).

(** Calling a facet made by [defineFacet]: [facet(value)] builds a static
    provider of the facet's data. *)
Definition Facet_call (data : FacetData) (v : value) (ref nextID : nat) :
    FacetProvider * nat :=
  FacetProvider_new [] data Static v ref nextID.

(** [Precedence.set(extension)] and [maybePrec]. *)
Definition Precedence_set (prec : Precedence) (extension : Extension) (ref : nat) :
    Extension :=
  ExtPrec ref extension prec.

Definition maybePrec (prec : option Precedence) (ext : Extension) (ref : nat) :
    Extension :=
  match prec with
  | None => ext
  | Some p => Precedence_set p ext ref
  end.

(** ** Flattening *)

(** The leaves collected by [flatten]: [FacetProvider | StateField]. *)
Inductive Leaf : Type :=
| LeafProvider (p : FacetProvider)
| LeafField (f : StateField).

Record FlattenState : Type := MkFlattenState {
  seen : gset nat;
  result : list (list Leaf)
}.

(** [seen.add(ext)] *)
Definition markSeen (ext : Extension) (s : FlattenState) : FlattenState :=
  MkFlattenState ({[ref_of ext]} ∪ seen s) (result s).

(** [result[prec].push(ext)] *)
Definition push (prec : Precedence) (ext : Leaf) (s : FlattenState) :
    FlattenState :=
  MkFlattenState (seen s) (alter (fun bucket => bucket ++ [ext]) (val prec) (result s)).

Fixpoint inner (ext : Extension) (prec : Precedence) (s : FlattenState)
    {struct ext} : FlattenState :=
  if decide (ref_of ext ∈ seen s) then s
  else
    let s := markSeen ext s in
    match ext with
    | ExtArray _ items => foldl (fun s e => inner e prec s) s items
    | ExtPrec _ e p => inner e p s
    | ExtProvider p => push prec (LeafProvider p) s
    | ExtField (MkStateField _ _ _ _ _ fs as f) =>
        inner fs prec (push prec (LeafField f) s)
    end.

(** [result.reduce((a, b) => a.concat(b))]; the array reduced always has
    the four buckets (see [inner_result_length]). *)
Definition reduce_concat {A : Type} (buckets : list (list A)) : list A :=
  match buckets with
  | [] => []
  | a :: rest => foldl (fun a b => a ++ b) a rest
  end.

Definition flatten (extension : Extension) : list Leaf :=
  reduce_concat (result (inner extension Default (MkFlattenState ∅ [[]; []; []; []]))).

(** ** Configurations, states and transactions *)

(** [SlotStatus] *)
Definition Uninitialized : Z := 0.
Definition Changed : Z := 1.
Definition Computed : Z := 2.
Definition Computing : Z := 4.

(** A dynamic slot is a closure [(state, tr) => number]; each constructor
    is one of the three closures of the source with the variables it
    captures. *)
Inductive DynamicSlot : Type :=
| FieldSlot (field : StateField) (idx : Z)
| ProviderSlot (getter : value) (compare : value -> value -> bool) (idx : Z)
    (depDoc depSel : bool) (depAddrs : list (option Z))
| FacetSlot (facet : FacetData) (providerAddrs : list (option Z))
    (providerTypes : list Provider) (dynamic : list (option Z)) (idx : Z).

Record Configuration : Type := MkConfiguration {
  dynamicSlots : list DynamicSlot;
  address : gmap nat Z;
  staticValues : list value;
  statusTemplate : list Z
}.

(** The loop of the constructor:
    [while (statusTemplate.length < staticValues.length) statusTemplate.push(Uninitialized)].
    [fuel] bounds the number of iterations. *)
Fixpoint fillTemplate (fuel : nat) (bound : nat) (template : list Z) : list Z :=
  match fuel with
  | O => template
  | S fuel' =>
      if decide (length template < bound)%nat
      then fillTemplate fuel' bound (template ++ [Uninitialized])
      else template
  end.

Definition Configuration_new (dynamicSlots : list DynamicSlot)
    (address : gmap nat Z) (staticValues : list value) : Configuration :=
  MkConfiguration dynamicSlots address staticValues
    (fillTemplate (length staticValues) (length staticValues) []).

(** The parts of [EditorState] and [Transaction] that the engine uses. *)
Inductive EditorState : Type :=
| MkEditorState (config : Configuration) (values : gmap Z value)
    (status : gmap Z Z) (applying : option Transaction)
with Transaction : Type :=
| MkTransaction (startState : EditorState)
    (docChanged selectionSet reconfigured : bool).

Definition config (s : EditorState) := let 'MkEditorState c _ _ _ := s in c.
Definition values (s : EditorState) := let 'MkEditorState _ v _ _ := s in v.
Definition status (s : EditorState) := let 'MkEditorState _ _ t _ := s in t.
Definition applying (s : EditorState) := let 'MkEditorState _ _ _ a := s in a.

Definition startState (t : Transaction) := let 'MkTransaction s _ _ _ := t in s.
Definition docChanged (t : Transaction) := let 'MkTransaction _ d _ _ := t in d.
Definition selectionSet (t : Transaction) := let 'MkTransaction _ _ s _ := t in s.
Definition reconfigured (t : Transaction) := let 'MkTransaction _ _ _ r := t in r.

(** [state.values[idx] = v] and [state.status[idx] = s] *)
Definition setValue (idx : Z) (v : value) (s : EditorState) : EditorState :=
  MkEditorState (config s) (<[idx := v]> (values s)) (status s) (applying s).

Definition setStatus (idx : Z) (x : Z) (s : EditorState) : EditorState :=
  MkEditorState (config s) (values s) (<[idx := x]> (status s)) (applying s).

Definition getAddr (state : EditorState) (addr : option Z) : value :=
  if decide (js_and addr 1 = 0)
  then orUndef (values state !! js_shr addr 1)
  else orUndef (array_get (staticValues (config state)) (js_shr addr 1)).

(** [Configuration.staticFacet] *)
Definition Configuration_staticFacet (c : Configuration) (facet : Facet) :
    Result value :=
  bindR (FacetData_get facet) (fun data =>
    match address c !! fd_id data with
    | None => Ok (fd_default data)
    | Some addr => Ok (orUndef (array_get (staticValues c) (js_shr (Some addr) 1)))
    end).

(** ** The evaluation monad *)

(** The callbacks that receive the state. *)
Record Callbacks : Type := MkCallbacks {
  call_create : Closure -> EditorState -> Result (value * EditorState);
  call_update : Closure -> value -> Transaction -> EditorState ->
                Result (value * EditorState);
  call_get : Closure -> EditorState -> Result (value * EditorState)
}.

Inductive Call : Type :=
| CallCreate (f : Closure)
| CallUpdate (f : Closure) (oldVal : value)
| CallGet (f : Closure)
| CallCombine (facet : nat) (inputs : list value).

Record World : Type := MkWorld {
  snap : EditorState;
  calls : list Call
}.

Definition M (A : Type) : Type := World -> Result (A * World).

Definition ret {A : Type} (a : A) : M A := fun w => Ok (a, w).

Definition bind {A B : Type} (m : M A) (k : A -> M B) : M B :=
  fun w =>
    match m w with
    | Ok (a, w') => k a w'
    | Throw e => Throw e
    | OutOfFuel => OutOfFuel
    end.

Definition throw {A : Type} (e : Error) : M A := fun _ => Throw e.

Notation "'let*' x ':=' m 'in' k" := (bind m (fun x => k))
  (at level 10, x name, m at level 100, k at level 200).
Notation "m ;;; k" := (bind m (fun _ => k))
  (at level 100, k at level 200, right associativity).

Definition modify (f : EditorState -> EditorState) : M unit :=
  fun w => Ok (tt, MkWorld (f (snap w)) (calls w)).

Definition logCall (c : Call) : M unit :=
  fun w => Ok (tt, MkWorld (snap w) (calls w ++ [c])).

(** Run a state-taking callback on the state under construction. *)
Definition onState (f : EditorState -> Result (value * EditorState)) : M value :=
  fun w =>
    match f (snap w) with
    | Ok (v, s') => Ok (v, MkWorld s' (calls w))
    | Throw e => Throw e
    | OutOfFuel => OutOfFuel
    end.

(** ** Slot update functions *)

Section Engine.
Variable cb : Callbacks.

(** The calls of user callbacks, each recorded in the log. *)
Definition callCreate (field : StateField) : M value :=
  logCall (CallCreate (createF field));;;
  onState (call_create cb (createF field)).

Definition callUpdate (field : StateField) (oldVal : value) (tr : Transaction) :
    M value :=
  logCall (CallUpdate (updateF field) oldVal);;;
  onState (call_update cb (updateF field) oldVal tr).

(** [getter(state)], where [getter] is the provider's untyped [value]. *)
Definition callGetter (getter : value) : M value :=
  match getter with
  | VFun code => logCall (CallGet code);;; onState (call_get cb code)
  | _ => throw TypeError
  end.

Definition callCombine (facet : FacetData) (inputs : list value) : M value :=
  logCall (CallCombine (fd_id facet) inputs);;;
  ret (combine facet inputs).

(** The closure returned by [StateField.slot]. *)
Definition fieldSlot_update (field : StateField) (idx : Z)
    (tr : option Transaction) : M Z :=
  let oldIdx : option Z :=
    match tr with
    | None => None
    | Some t =>
        if reconfigured t
        then Some (js_shr (address (config (startState t)) !! sf_id field) 1)
        else Some idx
    end in
  match oldIdx, tr with
  | None, _ =>
      let* v := callCreate field in
      modify (setValue idx v);;;
      ret Changed
  | Some oldIdx, Some t =>
      let oldVal := orUndef (values (startState t) !! oldIdx) in
      let* value := callUpdate field oldVal t in
      if compareF field oldVal value then ret 0
      else modify (setValue idx value);;; ret Changed
  | Some _, None => throw TypeError
  end.

(** The closures below call [ensureAddr]; it is passed as [ensure]. *)
Section Slots.
Variable ensure : option Z -> M Z.

(** [depAddrs.some(addr => (ensureAddr(state, addr) & Changed) > 0)] *)
Fixpoint someChanged (addrs : list (option Z)) : M bool :=
  match addrs with
  | [] => ret false
  | addr :: rest =>
      let* s := ensure addr in
      if decide (js_and (Some s) Changed > 0) then ret true
      else someChanged rest
  end.

(** The closure returned by [FacetProvider.dynamicSlot]. *)
Definition providerSlot_update (getter : value)
    (compare : value -> value -> bool) (idx : Z) (depDoc depSel : bool)
    (depAddrs : list (option Z)) (tr : option Transaction) : M Z :=
  match tr with
  | Some t =>
      if reconfigured t then
        let* v := callGetter getter in
        modify (setValue idx v);;;
        ret Changed
      else
        let* depChanged :=
          if (depDoc && docChanged t)
             || (depSel && (docChanged t || selectionSet t))
          then ret true
          else someChanged depAddrs in
        if negb depChanged then ret 0
        else
          let* newVal := callGetter getter in
          if compare newVal (orUndef (values (startState t) !! idx)) then ret 0
          else modify (setValue idx newVal);;; ret Changed
  | None =>
      let* v := callGetter getter in
      modify (setValue idx v);;;
      ret Changed
  end.

(** [for (let dynAddr of dynamic) if (ensureAddr(state, dynAddr) & Changed) changed = true] *)
Fixpoint ensureAll (dynamic : list (option Z)) (changed : bool) : M bool :=
  match dynamic with
  | [] => ret changed
  | dynAddr :: rest =>
      let* s := ensure dynAddr in
      ensureAll rest (if decide (js_and (Some s) Changed = 0) then changed else true)
  end.

(** The loop gathering the inputs of [combine]; [i] is the loop index. *)
Fixpoint gather (state : EditorState) (providerTypes : list Provider)
    (addrs : list (option Z)) (i : nat) (acc : list value) :
    Result (list value) :=
  match addrs with
  | [] => Ok acc
  | addr :: rest =>
      let value := getAddr state addr in
      match providerTypes !! i with
      | Some Multi =>
          match value with
          | VArr _ items => gather state providerTypes rest (S i) (acc ++ items)
          | _ => Throw TypeError
          end
      | _ => gather state providerTypes rest (S i) (acc ++ [value])
      end
  end.

Definition gatherValues (providerTypes : list Provider)
    (providerAddrs : list (option Z)) : M (list value) :=
  fun w =>
    match gather (snap w) providerTypes providerAddrs 0 [] with
    | Ok vs => Ok (vs, w)
    | Throw e => Throw e
    | OutOfFuel => OutOfFuel
    end.

(** The closure returned by [dynamicFacetSlot]. *)
Definition facetSlot_update (facet : FacetData)
    (providerAddrs : list (option Z)) (providerTypes : list Provider)
    (dynamic : list (option Z)) (idx : Z) (tr : option Transaction) : M Z :=
  let oldAddr : option Z :=
    match tr with
    | None => None
    | Some t =>
        if reconfigured t
        then address (config (startState t)) !! fd_id facet
        else Some (js_shl idx 1)
    end in
  let* changed := ensureAll dynamic (bool_decide (oldAddr = None)) in
  if negb changed then ret 0
  else
    let* inputs := gatherValues providerTypes providerAddrs in
    let* newVal := callCombine facet inputs in
    match oldAddr, tr with
    | Some a, Some t =>
        if compare facet newVal (getAddr (startState t) (Some a)) then ret 0
        else modify (setValue idx newVal);;; ret Changed
    | _, _ => modify (setValue idx newVal);;; ret Changed
    end.

(** Calling a dynamic slot. *)
Definition runSlot (slot : DynamicSlot) (tr : option Transaction) : M Z :=
  match slot with
  | FieldSlot field idx => fieldSlot_update field idx tr
  | ProviderSlot getter compare idx depDoc depSel depAddrs =>
      providerSlot_update getter compare idx depDoc depSel depAddrs tr
  | FacetSlot facet providerAddrs providerTypes dynamic idx =>
      facetSlot_update facet providerAddrs providerTypes dynamic idx tr
  end.
End Slots.

(** [ensureAddr(state, addr)]; [fuel] bounds the nesting of slot calls. *)
Fixpoint ensureAddr (fuel : nat) (addr : option Z) : M Z :=
  if decide (js_and addr 1 = 0) then
    let idx := js_shr addr 1 in
    fun w =>
      let st := status (snap w) !! idx in
      if decide (st = Some Computing) then Throw CyclicDependency
      else if decide (js_and st Computed = 0) then
        match fuel with
        | O => OutOfFuel
        | S fuel' =>
            (modify (setStatus idx Computing);;;
             fun w1 =>
               match array_get (dynamicSlots (config (snap w1))) idx with
               | None => Throw TypeError
               | Some slot =>
                   (let* changed := runSlot (ensureAddr fuel') slot (applying (snap w1)) in
                    let s := js_or Computed changed in
                    modify (setStatus idx s);;;
                    ret s) w1
               end) w
        end
      else Ok (default 0 st, w)
  else ret Computed.
End Engine.

(** ** Resolving a configuration *)

(** [field.slot(addresses)] *)
Definition StateField_slot (field : StateField) (addresses : gmap nat Z) :
    DynamicSlot :=
  FieldSlot field (js_shr (addresses !! sf_id field) 1).

(** The loop over [this.dependencies] in [FacetProvider.dynamicSlot]. *)
Fixpoint scanDependencies (addresses : gmap nat Z) (deps : list Slot)
    (depDoc depSel : bool) (depAddrs : list (option Z)) :
    Result (bool * bool * list (option Z)) :=
  match deps with
  | [] => Ok (depDoc, depSel, depAddrs)
  | SlotDoc :: rest => scanDependencies addresses rest true depSel depAddrs
  | SlotSelection :: rest => scanDependencies addresses rest depDoc true depAddrs
  | dep :: rest =>
      bindR (match dep with
             | SlotField f => Ok (sf_id f)
             | SlotFacet f => bindR (FacetData_get f) (fun d => Ok (fd_id d))
             | _ => Throw TypeError
             end) (fun id =>
        scanDependencies addresses rest depDoc depSel
          (if decide (js_and (addresses !! id) 1 = 0)
           then depAddrs ++ [addresses !! id] else depAddrs))
  end.

(** [p.dynamicSlot(addresses)] *)
Definition FacetProvider_dynamicSlot (p : FacetProvider) (addresses : gmap nat Z) :
    Result DynamicSlot :=
  let getter := fp_value p in
  let compare := compareInput (fp_facet p) in
  let idx := js_shr (addresses !! fp_id p) 1 in
  bindR (scanDependencies addresses (fp_dependencies p) false false [])
    (fun '(depDoc, depSel, depAddrs) =>
       Ok (ProviderSlot getter compare idx depDoc depSel depAddrs)).

(** [dynamicFacetSlot(addresses, facet, providers)] *)
Definition dynamicFacetSlot (addresses : gmap nat Z) (facet : FacetData)
    (providers : list FacetProvider) : DynamicSlot :=
  let providerAddrs := map (fun p => addresses !! fp_id p) providers in
  let providerTypes := map fp_type providers in
  let dynamic := filter (fun a => js_and a 1 = 0) providerAddrs in
  let idx := js_shr (addresses !! fd_id facet) 1 in
  FacetSlot facet providerAddrs providerTypes dynamic idx.

(** The entries of [dynamicSlots] before the address table is complete:
    [a => field.slot(a)], [a => p.dynamicSlot(a)] and
    [a => dynamicFacetSlot(a, facet, providers)]. *)
Inductive SlotMaker : Type :=
| MakeFieldSlot (field : StateField)
| MakeProviderSlot (p : FacetProvider)
| MakeFacetSlot (facet : FacetData) (providers : list FacetProvider).

Definition makeSlot (addresses : gmap nat Z) (m : SlotMaker) : Result DynamicSlot :=
  match m with
  | MakeFieldSlot field => Ok (StateField_slot field addresses)
  | MakeProviderSlot p => FacetProvider_dynamicSlot p addresses
  | MakeFacetSlot facet providers => Ok (dynamicFacetSlot addresses facet providers)
  end.

Fixpoint mapResult {A B : Type} (f : A -> Result B) (l : list A) : Result (list B) :=
  match l with
  | [] => Ok []
  | x :: rest =>
      bindR (f x) (fun y => bindR (mapResult f rest) (fun ys => Ok (y :: ys)))
  end.

(** The object [facets], keyed by facet id: [for (let id in facets)] visits
    integer keys in ascending order, so the groups are kept sorted by key;
    within a group providers keep their order of arrival. *)
Fixpoint addProvider (id : nat) (p : FacetProvider)
    (groups : list (nat * list FacetProvider)) : list (nat * list FacetProvider) :=
  match groups with
  | [] => [(id, [p])]
  | (k, ps) :: rest =>
      if decide (id = k) then (k, ps ++ [p]) :: rest
      else if decide (id < k)%nat then (id, [p]) :: groups
      else (k, ps) :: addProvider id p rest
  end.

(** The first loop of [resolve]: fields and provider groups. *)
Fixpoint classify (leaves : list Leaf) (fields : list StateField)
    (groups : list (nat * list FacetProvider)) :
    list StateField * list (nat * list FacetProvider) :=
  match leaves with
  | [] => (fields, groups)
  | LeafField f :: rest => classify rest (fields ++ [f]) groups
  | LeafProvider p :: rest =>
      classify rest fields (addProvider (fd_id (fp_facet p)) p groups)
  end.

Record Layout : Type := MkLayout {
  l_address : gmap nat Z;
  l_staticValues : list value;
  l_dynamicSlots : list SlotMaker
}.

Definition lengthZ {A : Type} (l : list A) : Z := Z.of_nat (length l).

(** [for (let field of fields)] *)
Definition placeField (l : Layout) (field : StateField) : Layout :=
  MkLayout (<[sf_id field := js_shl (lengthZ (l_dynamicSlots l)) 1]> (l_address l))
    (l_staticValues l)
    (l_dynamicSlots l ++ [MakeFieldSlot field]).

(** [for (let p of providers)] in a group that is not all static. *)
Definition placeProvider (l : Layout) (p : FacetProvider) : Layout :=
  if Provider_eqb (fp_type p) Static then
    MkLayout (<[fp_id p := js_or (js_shl (lengthZ (l_staticValues l)) 1) 1]> (l_address l))
      (l_staticValues l ++ [fp_value p])
      (l_dynamicSlots l)
  else
    MkLayout (<[fp_id p := js_shl (lengthZ (l_dynamicSlots l)) 1]> (l_address l))
      (l_staticValues l)
      (l_dynamicSlots l ++ [MakeProviderSlot p]).

(** The value stored for an all-static group. *)
Definition staticGroupValue (oldState : option EditorState) (facet : FacetData)
    (providers : list FacetProvider) : value :=
  let value := combine facet (map fp_value providers) in
  let oldAddr :=
    match oldState with
    | Some old => address (config old) !! fd_id facet
    | None => None
    end in
  match oldAddr, oldState with
  | Some a, Some old =>
      let oldVal := getAddr old (Some a) in
      if compare facet value oldVal then oldVal else value
  | _, _ => value
  end.

(** The body of [for (let id in facets)]. *)
Definition placeGroup (oldState : option EditorState) (l : Layout)
    (providers : list FacetProvider) : Result Layout :=
  match providers with
  | [] => Throw TypeError
  | p0 :: _ =>
      let facet := fp_facet p0 in
      if forallb (fun p => Provider_eqb (fp_type p) Static) providers then
        Ok (MkLayout
              (<[fd_id facet := js_or (js_shl (lengthZ (l_staticValues l)) 1) 1]> (l_address l))
              (l_staticValues l ++ [staticGroupValue oldState facet providers])
              (l_dynamicSlots l))
      else
        let l := foldl placeProvider l providers in
        Ok (MkLayout (<[fd_id facet := js_shl (lengthZ (l_dynamicSlots l)) 1]> (l_address l))
              (l_staticValues l)
              (l_dynamicSlots l ++ [MakeFacetSlot facet providers]))
  end.

Fixpoint placeGroups (oldState : option EditorState) (l : Layout)
    (groups : list (nat * list FacetProvider)) : Result Layout :=
  match groups with
  | [] => Ok l
  | (_, providers) :: rest =>
      bindR (placeGroup oldState l providers) (fun l' => placeGroups oldState l' rest)
  end.

Definition Configuration_resolve (extension : Extension)
    (oldState : option EditorState) : Result Configuration :=
  let '(fields, groups) := classify (flatten extension) [] [] in
  let l := foldl placeField (MkLayout ∅ [] []) fields in
  bindR (placeGroups oldState l groups) (fun l =>
    bindR (mapResult (makeSlot (l_address l)) (l_dynamicSlots l)) (fun slots =>
      Ok (Configuration_new slots (l_address l) (l_staticValues l)))).

(** ** The flattening order, as the specification words it

    A depth-first walk that skips every object already visited and lists
    the leaves in pre-order, each with the tier in force where it is met:
    the ambient tier, rebound by the innermost precedence wrapper.  A field
    is listed before the contributions attached to it, which are walked at
    the field's tier. *)

#[global] Instance Precedence_eq_dec : EqDecision Precedence.
Proof. solve_decision. Defined.

Definition Walk : Type := gset nat * list (Precedence * Leaf).

Fixpoint visit (ext : Extension) (tier : Precedence) (acc : Walk) {struct ext} : Walk :=
  if decide (ref_of ext ∈ acc.1) then acc
  else
    let visited := {[ref_of ext]} ∪ acc.1 in
    match ext with
    | ExtArray _ items => foldl (fun acc e => visit e tier acc) (visited, acc.2) items
    | ExtPrec _ e p => visit e p (visited, acc.2)
    | ExtProvider p => (visited, acc.2 ++ [(tier, LeafProvider p)])
    | ExtField (MkStateField _ _ _ _ _ fs as f) =>
        visit fs tier (visited, acc.2 ++ [(tier, LeafField f)])
    end.

(** The leaves of one tier, in the order of the walk. *)
Definition ofTier (p : Precedence) (tagged : list (Precedence * Leaf)) : list Leaf :=
  (filter (fun x => x.1 = p) tagged).*2.

Definition flatten_by_tier (extension : Extension) : list Leaf :=
  let tagged := (visit extension Default (∅, [])).2 in
  ofTier Override tagged ++ ofTier Extend tagged
    ++ ofTier Default tagged ++ ofTier Fallback tagged.

(** The buckets of the source hold the walk's leaves, tier by tier. *)
Definition agrees (s : FlattenState) (acc : Walk) : Prop :=
  seen s = acc.1 /\
  result s = [ofTier Override acc.2; ofTier Extend acc.2;
              ofTier Default acc.2; ofTier Fallback acc.2].

(** ** Sample facets and extensions *)

Definition numEq (a b : value) : bool :=
  match a, b with
  | VNum x, VNum y => bool_decide (x = y)
  | _, _ => false
  end.

(** A combine function that keeps the last input, [4] when there is none. *)
Definition keepLast (inputs : list value) : value := default (VNum 4) (last inputs).

(** The static facet [Tabsize], the first object to take an id. *)
Definition Tabsize : FacetData := (FacetData_new keepLast numEq numEq true 0).1.
Definition TabsizeFacet : Facet := MkFacet (Some Tabsize).

Definition tab2 : FacetProvider := (Facet_call Tabsize (VNum 2) 100 1).1.
Definition tab8 : FacetProvider := (Facet_call Tabsize (VNum 8) 101 2).1.
Definition tab5 : FacetProvider := (Facet_call Tabsize (VNum 5) 102 3).1.

(** Sample callbacks.  Closure [0] creates the number [0]; as an update it
    adds one to a numeric value when the document changed and throws on
    anything else.  Closure [1] yields the array [[1, 2]], closure [2] the
    number [3], closure [3] the value of slot [0]. *)
Definition sampleCallbacks : Callbacks :=
  MkCallbacks
    (fun code st =>
       match code with
       | O => Ok (VNum 0, st)
       | _ => Throw (UserError code)
       end)
    (fun code oldVal tr st =>
       match code, oldVal with
       | O, VNum n => Ok (VNum (if docChanged tr then n + 1 else n), st)
       | _, _ => Throw (UserError code)
       end)
    (fun code st =>
       match code with
       | 1%nat => Ok (VArr 300 [VNum 1; VNum 2], st)
       | 2%nat => Ok (VNum 3, st)
       | 3%nat => Ok (orUndef (values st !! 0), st)
       | _ => Throw (UserError code)
       end).

(** A field with id [10] and no attached providers. *)
Definition counter : StateField := MkStateField 200 10 0%nat 0%nat numEq (ExtArray 201 []).

(** The first state of a configuration: no value, the status cells of the
    template, no transaction. *)
Definition emptyConfiguration : Configuration := Configuration_new [] ∅ [].

Definition firstState (c : Configuration) : EditorState :=
  MkEditorState c ∅ (map_seqZ 0 (statusTemplate c)) None.

(** A transaction that reconfigures a state without the field [counter]. *)
Definition addsCounter : Transaction :=
  MkTransaction (firstState emptyConfiguration) false false true.

Definition resolved (r : Result Configuration) : Configuration :=
  match r with
  | Ok c => c
  | _ => emptyConfiguration
  end.

(** The configuration of the single field [counter]. *)
Definition counterConfiguration : Configuration :=
  resolved (Configuration_resolve (ExtField counter) None).

(** A facet with a computed provider that depends on the facet itself. *)
Definition Loop : FacetData :=
  (FacetData_new (fun inputs => VArr 400 inputs) numEq numEq false 20).1.
Definition LoopFacet : Facet := MkFacet (Some Loop).
Definition loopProvider : FacetProvider :=
  MkFacetProvider 401 21 [SlotFacet LoopFacet] Loop Single (VFun 2%nat).
Definition loopConfiguration : Configuration :=
  resolved (Configuration_resolve (ExtProvider loopProvider) None).

(** A state of [c] being built by a transaction from [start] that keeps
    the configuration; [doc] tells whether it changes the document. *)
Definition editedState (c : Configuration) (start : EditorState) (doc : bool) :
    EditorState :=
  MkEditorState c ∅ (map_seqZ 0 (statusTemplate c))
    (Some (MkTransaction start doc false false)).

(** The field [counter] feeding the facet [Mirror] through a computed
    provider that reads the field's slot. *)
Definition Mirror : FacetData :=
  (FacetData_new (fun inputs => VArr 600 inputs) numEq
     (fun a b => match a, b with
                 | VArr _ xs, VArr _ ys =>
                     bool_decide (length xs = length ys)
                     && forallb (fun xy => numEq xy.1 xy.2) (zip xs ys)
                 | _, _ => false
                 end) false 30).1.
Definition MirrorFacet : Facet := MkFacet (Some Mirror).
Definition mirrorProvider : FacetProvider :=
  MkFacetProvider 601 31 [SlotField counter] Mirror Single (VFun 3%nat).
Definition mirrorExtension : Extension :=
  ExtArray 602 [ExtField counter; ExtProvider mirrorProvider].
Definition mirrorConfiguration : Configuration :=
  resolved (Configuration_resolve mirrorExtension None).

(** A complete state of [mirrorConfiguration] in which the counter is [0]. *)
Definition mirrorStart : EditorState :=
  MkEditorState mirrorConfiguration
    (<[0 := VNum 0]> (<[1 := VNum 0]> (<[2 := VArr 600 [VNum 0]]> ∅)))
    (<[0 := 3]> (<[1 := 3]> (<[2 := 3]> ∅))) None.

Definition withStatus (c : Configuration) (cells : gmap Z Z) : World :=
  MkWorld (MkEditorState c ∅ cells None) [].

(** ** Forcing a list of addresses

    [ensured ensure addrs w flags w'] : calling [ensure] on every address of
    [addrs], in order and from the world [w], returns the statuses [flags]
    and leaves the world [w']. *)
Inductive ensured (ensure : option Z -> M Z) :
    list (option Z) -> World -> list Z -> World -> Prop :=
| ensured_nil w : ensured ensure [] w [] w
| ensured_cons addr rest w s w1 flags w2 :
    ensure addr w = Ok (s, w1) ->
    ensured ensure rest w1 flags w2 ->
    ensured ensure (addr :: rest) w (s :: flags) w2.

(** The [Changed] bit of a status. *)
Definition reportsChanged (s : Z) : bool := bool_decide (js_and (Some s) Changed <> 0).

(** The symbolic dependencies of a provider that fire on a transaction:
    "doc" on a document change, "selection" on a selection change or a
    document change. *)
Definition symbolicFired (depDoc depSel : bool) (t : Transaction) : bool :=
  (depDoc && docChanged t) || (depSel && (selectionSet t || docChanged t)).

(** What a provider of the given kind adds to the inputs of [combine]:
    the elements of its array for [Multi], its value otherwise. *)
Definition contribution (state : EditorState) (type : Provider) (addr : option Z) :
    option (list value) :=
  match type with
  | Multi =>
      match getAddr state addr with
      | VArr _ items => Some items
      | _ => None
      end
  | _ => Some [getAddr state addr]
  end.


(** The provider slot of [mirrorConfiguration], with [ensureAddr] given
    the fuel for one nested slot. *)
Definition mirrorProviderSlot : option Transaction -> M Z :=
  providerSlot_update sampleCallbacks (ensureAddr sampleCallbacks 1)
    (VFun 3%nat) numEq 1 false false [Some 0].

Definition mirrorEdit (doc : bool) : Transaction :=
  MkTransaction mirrorStart doc false false.

(** The world after the counter's slot was forced in such a state. *)
Definition afterCounter (doc : bool) : World :=
  let w := MkWorld (editedState mirrorConfiguration mirrorStart doc) [] in
  match ensureAddr sampleCallbacks 1 (Some 0) w with
  | Ok (_, w1) => w1
  | _ => w
  end.

(** A facet fed by a Multi provider yielding [[1, 2]] and a Single
    provider yielding [3], in that order; [combine] returns its inputs. *)
Definition Collect : FacetData :=
  (FacetData_new (fun inputs => VArr 700 inputs) numEq (compare Mirror) false 40).1.
Definition multiProvider : FacetProvider :=
  MkFacetProvider 701 41 [] Collect Multi (VFun 1%nat).
Definition singleProvider : FacetProvider :=
  MkFacetProvider 702 42 [] Collect Single (VFun 2%nat).
Definition collectConfiguration : Configuration :=
  resolved (Configuration_resolve
              (ExtArray 703 [ExtProvider multiProvider; ExtProvider singleProvider]) None).

Definition worldOf {A : Type} (r : Result (A * World)) (w : World) : World :=
  match r with
  | Ok (_, w1) => w1
  | _ => w
  end.

(** The first state of [collectConfiguration] after its two provider
    slots were forced. *)
Definition collectProvided : World :=
  let w := MkWorld (firstState collectConfiguration) [] in
  worldOf (ensureAll (ensureAddr sampleCallbacks 1) [Some 0; Some 2] true w) w.

(** The combine slots of [collectConfiguration] and [mirrorConfiguration]. *)
Definition collectSlot : option Transaction -> M Z :=
  facetSlot_update (ensureAddr sampleCallbacks 1) Collect
    [Some 0; Some 2] [Multi; Single] [Some 0; Some 2] 2.

Definition mirrorSlot : option Transaction -> M Z :=
  facetSlot_update (ensureAddr sampleCallbacks 2) Mirror [Some 2] [Single] [Some 2] 2.

(** A state of [mirrorConfiguration] under a transaction, after the
    provider slot was forced. *)
Definition afterMirrorProvider (doc : bool) : World :=
  let w := MkWorld (editedState mirrorConfiguration mirrorStart doc) [] in
  worldOf (ensureAddr sampleCallbacks 2 (Some 2) w) w.

(** ** Provider groups *)

(** The providers of the facet with id [k] among the leaves, in order. *)
Definition providersFor (k : nat) (leaves : list Leaf) : list FacetProvider :=
  flat_map (fun leaf =>
              match leaf with
              | LeafProvider p => if decide (fd_id (fp_facet p) = k) then [p] else []
              | LeafField _ => []
              end) leaves.

(** [facets[k]], empty when the key is absent. *)
Fixpoint groupFor (k : nat) (groups : list (nat * list FacetProvider)) :
    list FacetProvider :=
  match groups with
  | [] => []
  | (k', ps) :: rest => if decide (k = k') then ps else groupFor k rest
  end.

(** A static facet whose values are arrays, compared element by element. *)
Definition Words : FacetData :=
  (FacetData_new (fun inputs => VArr 800 inputs) numEq (compare Mirror) true 50).1.
Definition word2 : FacetProvider := (Facet_call Words (VNum 2) 801 51).1.

(** A state whose configuration holds, for [Words], an array equal to
    [[2]] that is another object (its identity is [799]). *)
Definition wordsOld : EditorState :=
  MkEditorState (Configuration_new [] {[50%nat := 1]} [VArr 799 [VNum 2]]) ∅ ∅ None.

(** A state whose configuration resolved [Tabsize] to [8]. *)
Definition tabOld : EditorState :=
  firstState (resolved (Configuration_resolve
                (ExtArray 103 [ExtProvider tab2; ExtProvider tab8]) None)).

(** ** Trees without the walk's bookkeeping *)

Definition leaf_ref (l : Leaf) : nat :=
  match l with
  | LeafProvider p => fp_ref p
  | LeafField f => sf_ref f
  end.

(** The identities of all objects of a tree, in pre-order, with repeats. *)
Fixpoint allRefs (ext : Extension) : list nat :=
  match ext with
  | ExtProvider p => [fp_ref p]
  | ExtField (MkStateField r _ _ _ _ fs) => r :: allRefs fs
  | ExtPrec r e _ => r :: allRefs e
  | ExtArray r items => r :: flat_map allRefs items
  end.

(** The leaves of a tree in pre-order with the tier in force at each,
    with repeats. *)
Fixpoint tagged (ext : Extension) (tier : Precedence) : list (Precedence * Leaf) :=
  match ext with
  | ExtProvider p => [(tier, LeafProvider p)]
  | ExtField (MkStateField _ _ _ _ _ fs as f) => (tier, LeafField f) :: tagged fs tier
  | ExtPrec _ e p => tagged e p
  | ExtArray _ items => flat_map (fun e => tagged e tier) items
  end.

(** A tree without precedence wrappers. *)
Fixpoint untagged (ext : Extension) : bool :=
  match ext with
  | ExtProvider _ => true
  | ExtField (MkStateField _ _ _ _ _ fs) => untagged fs
  | ExtPrec _ _ _ => false
  | ExtArray _ items => forallb untagged items
  end.

(** The walk lists no object twice and has seen every object it lists. *)
Definition walkInv (acc : Walk) : Prop :=
  NoDup (leaf_ref <$> acc.2.*2) /\ forall x, x ∈ acc.2 -> leaf_ref x.2 ∈ acc.1.

(** ** Dependencies *)

(** The id a dependency is looked up under; none for the two symbolic
    dependencies and for a function without facet data. *)
Definition slotId (dep : Slot) : option nat :=
  match dep with
  | SlotField f => Some (sf_id f)
  | SlotFacet f => fd_id <$> _data f
  | SlotDoc | SlotSelection => None
  end.

Definition isDoc (dep : Slot) : bool :=
  match dep with SlotDoc => true | _ => false end.

Definition isSelection (dep : Slot) : bool :=
  match dep with SlotSelection => true | _ => false end.

(** A facet dependency that carries its data. *)
Definition hasData (dep : Slot) : Prop :=
  match dep with
  | SlotFacet f => is_Some (_data f)
  | _ => True
  end.

(** ** Defining fields and attaching providers *)

(** [a === b] on the values of the model. *)
Definition strictEq (a b : value) : bool :=
  match a, b with
  | VUndef, VUndef => true
  | VNum x, VNum y => bool_decide (x = y)
  | VArr r _, VArr r' _ => bool_decide (r = r')
  | VFun c, VFun c' => bool_decide (c = c')
  | _, _ => false
  end.

(** [StateField.define(config)]; [ref] and [arrayRef] are the identities
    of the new field and of its empty [facets] array. *)
Definition StateField_define (create update : Closure)
    (compare : option (value -> value -> bool)) (ref arrayRef nextID : nat) :
    StateField * nat :=
  (MkStateField ref nextID create update (default strictEq compare) (ExtArray arrayRef []),
   S nextID).

(** [this.facets.concat(ext)] for an [ext] that is not an array. *)
Definition concatFacets (facets : Extension) (ext : Extension) (arrayRef : nat) :
    Result Extension :=
  match facets with
  | ExtArray _ items => Ok (ExtArray arrayRef (items ++ [ext]))
  | _ => Throw TypeError
  end.

(** [field.provide(facet, get, prec)]: [getter] is the closure built
    around [get]; the refs are the identities of the new provider, of the
    precedence wrapper, of the new field and of its [facets] array. *)
Definition StateField_provide (this : StateField) (facet : Facet) (getter : Closure)
    (prec : option Precedence) (providerRef precRef fieldRef arrayRef nextID : nat) :
    Result (StateField * nat) :=
  bindR (computedFacet facet [SlotField this] getter providerRef nextID)
    (fun '(provider, nextID') =>
       bindR (concatFacets (facets this) (maybePrec prec (ExtProvider provider) precRef)
                arrayRef)
         (fun fs =>
            Ok (MkStateField fieldRef (sf_id this) (createF this) (updateF this)
                  (compareF this) fs, nextID'))).

(** [field.provideN(facet, get, prec)] *)
Definition StateField_provideN (this : StateField) (facet : Facet) (getter : Closure)
    (prec : option Precedence) (providerRef precRef fieldRef arrayRef nextID : nat) :
    Result (StateField * nat) :=
  bindR (computedFacetN facet [SlotField this] getter providerRef nextID)
    (fun '(provider, nextID') =>
       bindR (concatFacets (facets this) (maybePrec prec (ExtProvider provider) precRef)
                arrayRef)
         (fun fs =>
            Ok (MkStateField fieldRef (sf_id this) (createF this) (updateF this)
                  (compareF this) fs, nextID'))).

(** The tier a provided facet lands in. *)
Definition providedFirst (prec : option Precedence) : bool :=
  match prec with
  | Some Override | Some Extend => true
  | _ => false
  end.

(** ** Providers that get a slot *)

#[global] Instance hasData_dec (dep : Slot) : Decision (hasData dep).
Proof. destruct dep as [[[d|]]| | |]; simpl; apply _. Defined.

Definition makerProviders (m : SlotMaker) : list FacetProvider :=
  match m with
  | MakeProviderSlot p => [p]
  | _ => []
  end.

(** The providers that have a slot in a layout. *)
Definition slotProviders (l : Layout) : list FacetProvider :=
  flat_map makerProviders (l_dynamicSlots l).

(** A computed provider of the tree one of whose dependencies is a
    function without facet data. *)
Definition brokenProvider (extension : Extension) (p : FacetProvider) : Prop :=
  LeafProvider p ∈ flatten extension /\ fp_type p <> Static /\
  ~ Forall hasData (fp_dependencies p).

(** A provider with such a dependency, and a tree that holds it. *)
Definition brokenMirror : FacetProvider :=
  MkFacetProvider 610 32 [SlotFacet (MkFacet None)] Mirror Single (VFun 3%nat).

(** ** Addresses of a layout *)

(** An address that points into [statics] static values or [dynamics]
    dynamic slots. *)
Definition addressInRange (statics dynamics : Z) (a : Z) : Prop :=
  (js_and (Some a) 1 = 1 /\ 0 <= js_shr (Some a) 1 < statics) \/
  (js_and (Some a) 1 = 0 /\ 0 <= js_shr (Some a) 1 < dynamics).

Definition layoutOk (l : Layout) : Prop :=
  forall id a,
    l_address l !! id = Some a ->
    addressInRange (lengthZ (l_staticValues l)) (lengthZ (l_dynamicSlots l)) a.

Definition withinBounds (l : Layout) : Prop :=
  lengthZ (l_staticValues l) < 2 ^ 30 /\ lengthZ (l_dynamicSlots l) < 2 ^ 30.

Definition grows (l l' : Layout) : Prop :=
  lengthZ (l_staticValues l) <= lengthZ (l_staticValues l') /\
  lengthZ (l_dynamicSlots l) <= lengthZ (l_dynamicSlots l').

(** ** Evaluation in bounded depth *)

(** A status cell that [ensureAddr] does not start to evaluate. *)
Definition settled (st : option Z) : Prop :=
  st = Some Computing \/ js_and st Computed <> 0.

(** A callback result that leaves configuration, status cells and the
    transaction of the state alone. *)
Definition sameFrame (s : EditorState) (r : Result (value * EditorState)) : Prop :=
  match r with
  | Ok (_, s') => config s' = config s /\ status s' = status s /\ applying s' = applying s
  | Throw _ => True
  | OutOfFuel => False
  end.

(** Callbacks that return or throw, and change at most the values. *)
Definition quiet (cb : Callbacks) : Prop :=
  (forall code s, sameFrame s (call_create cb code s)) /\
  (forall code v tr s, sameFrame s (call_update cb code v tr s)) /\
  (forall code s, sameFrame s (call_get cb code s)).

(** [w'] comes after [w]: same configuration and transaction, and every
    settled cell still settled. *)
Definition advances (w w' : World) : Prop :=
  config (snap w') = config (snap w) /\
  applying (snap w') = applying (snap w) /\
  forall idx, settled (status (snap w) !! idx) -> settled (status (snap w') !! idx).

Definition preserving {A : Type} (m : M A) : Prop :=
  forall w a w', m w = Ok (a, w') -> advances w w'.

Definition totalFrom {A : Type} (w0 : World) (m : M A) : Prop :=
  forall w, advances w0 w -> m w <> OutOfFuel.

(** [cells] holds every slot index whose cell is not settled. *)
Definition covers (cells : gset Z) (w : World) : Prop :=
  forall idx,
    is_Some (array_get (dynamicSlots (config (snap w))) idx) ->
    ~ settled (status (snap w) !! idx) -> idx ∈ cells.

(** [m2] does what [m1] does wherever [m1] has enough fuel. *)
Definition refines {A : Type} (m1 m2 : M A) : Prop :=
  forall w, m1 w <> OutOfFuel -> m2 w = m1 w.

(** One level of [ensureAddr], the nested calls left to [ensure]. *)
Definition ensureStep (cb : Callbacks) (ensure : option Z -> M Z) (addr : option Z) :
    M Z :=
  if decide (js_and addr 1 = 0) then
    let idx := js_shr addr 1 in
    fun w =>
      let st := status (snap w) !! idx in
      if decide (st = Some Computing) then Throw CyclicDependency
      else if decide (js_and st Computed = 0) then
        (modify (setStatus idx Computing);;;
         fun w1 =>
           match array_get (dynamicSlots (config (snap w1))) idx with
           | None => Throw TypeError
           | Some slot =>
               (let* changed := runSlot cb ensure slot (applying (snap w1)) in
                let s := js_or Computed changed in
                modify (setStatus idx s);;;
                ret s) w1
           end) w
      else Ok (default 0 st, w)
  else ret Computed.

(** The field of a leaf, if it is one. *)
Definition leafField (leaf : Leaf) : option StateField :=
  match leaf with
  | LeafField f => Some f
  | LeafProvider _ => None
  end.


(** ** A provider with symbolic dependencies *)

(** A computed provider of [Mirror] that depends on the document, on the
    selection and on the field [counter]; its getter yields [3]. *)
Definition watcher : FacetProvider :=
  MkFacetProvider 603 33 [SlotDoc; SlotSelection; SlotField counter] Mirror Single
    (VFun 2%nat).
Definition watcherExtension : Extension :=
  ExtArray 604 [ExtField counter; ExtProvider watcher].
Definition watcherConfiguration : Configuration :=
  resolved (Configuration_resolve watcherExtension None).

(** A complete state of [watcherConfiguration] whose provider slot holds
    the number [v]. *)
Definition watcherStart (v : Z) : EditorState :=
  MkEditorState watcherConfiguration
    (<[0 := VNum 0]> (<[1 := VNum v]> (<[2 := VArr 600 [VNum v]]> ∅)))
    (<[0 := 3]> (<[1 := 3]> (<[2 := 3]> ∅))) None.

Definition watcherEdit (v : Z) (doc sel : bool) : Transaction :=
  MkTransaction (watcherStart v) doc sel false.

(** The state such a transaction builds, before any slot was evaluated. *)
Definition watching (v : Z) (doc sel : bool) : World :=
  MkWorld (MkEditorState watcherConfiguration ∅ ∅ (Some (watcherEdit v doc sel))) [].

(** The slot a result holds. *)
Definition built (r : Result DynamicSlot) : DynamicSlot :=
  match r with
  | Ok slot => slot
  | _ => FieldSlot counter 0
  end.

(** ** Shared objects *)

(** The objects of a tree, in pre-order, with repeats. *)
Fixpoint subtrees (ext : Extension) : list Extension :=
  ext ::
  match ext with
  | ExtProvider _ => []
  | ExtField (MkStateField _ _ _ _ _ fs) => subtrees fs
  | ExtPrec _ e _ => subtrees e
  | ExtArray _ items => flat_map subtrees items
  end.

(** A tree that stands for an object graph: an identity names one object,
    so two occurrences with the same identity are the same subtree. *)
Definition consistent (ext : Extension) : Prop :=
  forall n m, n ∈ subtrees ext -> m ∈ subtrees ext -> ref_of n = ref_of m -> n = m.

(** The number of occurrences of objects in a tree. *)
Fixpoint weight (ext : Extension) : nat :=
  S match ext with
    | ExtProvider _ => 0%nat
    | ExtField (MkStateField _ _ _ _ _ fs) => weight fs
    | ExtPrec _ e _ => weight e
    | ExtArray _ items => list_sum (map weight items)
    end.

(** The identities of the leaves of a list. *)
Definition listedRefs (l : list (Precedence * Leaf)) : gset nat :=
  list_to_set (leaf_ref <$> l.*2).
#[global] Typeclasses Opaque listedRefs.
Arguments listedRefs : simpl never.

(** A list of leaves without the leaves whose identity is in [listed] or
    occurs earlier in the list: the first occurrence of each object. *)
Fixpoint firstOnly (listed : gset nat) (l : list (Precedence * Leaf)) :
    list (Precedence * Leaf) :=
  match l with
  | [] => []
  | x :: rest =>
      if decide (leaf_ref x.2 ∈ listed) then firstOnly listed rest
      else x :: firstOnly ({[leaf_ref x.2]} ∪ listed) rest
  end.

(** The state of a walk of [root] in which every object visited, other
    than those in [open] whose walk has not returned, has all its leaves
    listed. *)
Definition closed (root : Extension) (open : gset nat) (acc : Walk) : Prop :=
  listedRefs acc.2 ⊆ acc.1 /\
  forall m, m ∈ subtrees root -> ref_of m ∈ acc.1 -> ref_of m ∉ open ->
    listedRefs (tagged m Default) ⊆ listedRefs acc.2.

(** What the walk of an object [n] of [root] does to such a state: it
    adds the first occurrences of the leaves of [n], and leaves a state of
    the same kind in which all leaves of [n] are listed. *)
Definition addsFirst (root n : Extension) : Prop :=
  forall tier open acc,
    n ∈ subtrees root ->
    (forall d, d ∈ subtrees n -> ref_of d ∉ open) ->
    closed root open acc ->
    (visit n tier acc).2 = acc.2 ++ firstOnly (listedRefs acc.2) (tagged n tier) /\
    closed root open (visit n tier acc) /\
    listedRefs (tagged n Default) ⊆ listedRefs (visit n tier acc).2.

(** [removes before t t'] : the tree [t'] is [t] without one array
    element, at any depth below arrays and precedence wrappers, and the
    element taken out is an object that occurs in [t] before that place, or
    in one of the trees [before]. *)
Inductive removes : list Extension -> Extension -> Extension -> Prop :=
| removes_here before r xs e ys :
    e ∈ flat_map subtrees (before ++ xs) ->
    removes before (ExtArray r (xs ++ e :: ys)) (ExtArray r (xs ++ ys))
| removes_item before r xs x x' ys :
    removes (before ++ xs) x x' ->
    removes before (ExtArray r (xs ++ x :: ys)) (ExtArray r (xs ++ x' :: ys))
| removes_prec before r x x' prec :
    removes before x x' ->
    removes before (ExtPrec r x prec) (ExtPrec r x' prec).
(** * Properties *)

(** ** Flattening *)

Lemma inner_unfold ext prec s :
  inner ext prec s =
  if decide (ref_of ext ∈ seen s) then s
  else
    match ext with
    | ExtArray _ items => foldl (fun s e => inner e prec s) (markSeen ext s) items
    | ExtPrec _ e p => inner e p (markSeen ext s)
    | ExtProvider p => push prec (LeafProvider p) (markSeen ext s)
    | ExtField f => inner (facets f) prec (push prec (LeafField f) (markSeen ext s))
    end.
Proof. destruct ext as [p|[r i c u cmp fs]|r e p|r items]; reflexivity. Qed.

Lemma visit_unfold ext tier acc :
  visit ext tier acc =
  if decide (ref_of ext ∈ acc.1) then acc
  else
    let visited := {[ref_of ext]} ∪ acc.1 in
    match ext with
    | ExtArray _ items => foldl (fun acc e => visit e tier acc) (visited, acc.2) items
    | ExtPrec _ e p => visit e p (visited, acc.2)
    | ExtProvider p => (visited, acc.2 ++ [(tier, LeafProvider p)])
    | ExtField f => visit (facets f) tier (visited, acc.2 ++ [(tier, LeafField f)])
    end.
Proof. destruct ext as [p|[r i c u cmp fs]|r e p|r items]; reflexivity. Qed.

(** An object already seen is skipped. *)
Lemma inner_seen ext prec s : ref_of ext ∈ seen s -> inner ext prec s = s.
Proof. intros Hin. rewrite inner_unfold. by rewrite decide_True. Qed.

Lemma foldl_inner_seen_mono (items : list Extension) prec :
  Forall (fun e => forall prec s, seen s ⊆ seen (inner e prec s)) items ->
  forall s, seen s ⊆ seen (foldl (fun s e => inner e prec s) s items).
Proof.
  induction 1 as [|e items He _ IH]; intros s; simpl; [done|].
  etrans; [apply (He prec)|apply IH].
Qed.

(** The walk only adds to [seen]. *)
Lemma inner_seen_mono ext : forall prec s, seen s ⊆ seen (inner ext prec s).
Proof.
  induction ext as [p|r i c u cmp fs IH|r e p IH|r items IH]
    using Extension_tree_ind; intros prec s; rewrite inner_unfold;
    case_decide; try done; simpl.
  - set_solver.
  - etrans; [|apply IH]. simpl. set_solver.
  - etrans; [|apply IH]. simpl. set_solver.
  - etrans; [|by apply foldl_inner_seen_mono]. simpl. set_solver.
Qed.

Lemma foldl_inner_seen_sub prec (items : list Extension) s :
  seen s ⊆ seen (foldl (fun s e => inner e prec s) s items).
Proof.
  apply foldl_inner_seen_mono, Forall_forall. intros e _ p s'.
  apply inner_seen_mono.
Qed.

(** After the walk of an object the object is in [seen]. *)
Lemma inner_marks ext prec s : ref_of ext ∈ seen (inner ext prec s).
Proof.
  rewrite inner_unfold. case_decide; [done|].
  assert (ref_of ext ∈ seen (markSeen ext s)) as Hm by (simpl; set_solver).
  destruct ext as [p|f|r e p|r items]; simpl.
  - set_solver.
  - apply (inner_seen_mono (facets f) prec). simpl. set_solver.
  - by apply (inner_seen_mono e p).
  - by apply foldl_inner_seen_sub.
Qed.

Lemma foldl_inner_app prec s (xs ys : list Extension) :
  foldl (fun s e => inner e prec s) s (xs ++ ys) =
  foldl (fun s e => inner e prec s) (foldl (fun s e => inner e prec s) s xs) ys.
Proof. apply foldl_app. Qed.

(** Walking an array in which an object already seen occurs is walking the
    array without that occurrence. *)
Lemma inner_array_skip r xs e ys prec s :
  ref_of e ∈ seen s ->
  inner (ExtArray r (xs ++ e :: ys)) prec s = inner (ExtArray r (xs ++ ys)) prec s.
Proof.
  intros Hin. rewrite !inner_unfold. simpl. case_decide; [done|].
  rewrite !foldl_inner_app. simpl. f_equal.
  apply inner_seen. apply foldl_inner_seen_sub. simpl. set_solver.
Qed.

Lemma inner_array_twice r xs e ys e' zs prec s :
  ref_of e' = ref_of e ->
  inner (ExtArray r (xs ++ e :: ys ++ e' :: zs)) prec s =
  inner (ExtArray r (xs ++ e :: ys ++ zs)) prec s.
Proof.
  intros Href. rewrite !inner_unfold. simpl. case_decide; [done|].
  rewrite !foldl_inner_app. simpl. rewrite !foldl_inner_app. simpl. f_equal.
  apply inner_seen. rewrite Href. apply foldl_inner_seen_sub, inner_marks.
Qed.

Lemma ofTier_snoc p tagged q leaf :
  ofTier p (tagged ++ [(q, leaf)]) =
  if decide (q = p) then ofTier p tagged ++ [leaf] else ofTier p tagged.
Proof.
  unfold ofTier. rewrite filter_app, fmap_app. simpl.
  rewrite filter_cons, filter_nil. simpl.
  case_decide; simpl; [done|by rewrite app_nil_r].
Qed.

Lemma agrees_push s visited tagged prec leaf :
  agrees s (visited, tagged) ->
  agrees (push prec leaf s) (visited, tagged ++ [(prec, leaf)]).
Proof.
  intros [Hseen Hres]. split; simpl in *; [done|].
  rewrite Hres, !ofTier_snoc. by destruct prec.
Qed.

Lemma agrees_mark s acc ext :
  agrees s acc -> agrees (markSeen ext s) ({[ref_of ext]} ∪ acc.1, acc.2).
Proof. intros [Hseen Hres]. split; simpl; [by rewrite Hseen|done]. Qed.

Lemma agrees_foldl (items : list Extension) prec :
  Forall (fun e => forall prec s acc,
            agrees s acc -> agrees (inner e prec s) (visit e prec acc)) items ->
  forall s acc, agrees s acc ->
    agrees (foldl (fun s e => inner e prec s) s items)
           (foldl (fun acc e => visit e prec acc) acc items).
Proof.
  induction 1 as [|e items He _ IH]; intros s acc Hag; simpl; [done|].
  apply IH, He, Hag.
Qed.

(** The walk of the source and the walk of the specification go together. *)
Lemma inner_visit ext :
  forall prec s acc, agrees s acc -> agrees (inner ext prec s) (visit ext prec acc).
Proof.
  induction ext as [p|r i c u cmp fs IH|r e p IH|r items IH]
    using Extension_tree_ind; intros prec s acc Hag;
    rewrite inner_unfold, visit_unfold; destruct Hag as [Hseen Hres];
    rewrite <- Hseen; case_decide; try (by split); simpl.
  - apply agrees_push. by split.
  - apply IH, agrees_push. by split.
  - apply IH. by split.
  - apply agrees_foldl; [done|]. by split.
Qed.

Lemma inner_result_length ext prec s :
  length (result s) = 4%nat -> length (result (inner ext prec s)) = 4%nat.
Proof.
  revert prec s.
  induction ext as [p|r i c u cmp fs IH|r e p IH|r items IH]
    using Extension_tree_ind; intros prec s Hlen; rewrite inner_unfold;
    case_decide; try done; simpl.
  - by rewrite length_alter.
  - apply IH. simpl. by rewrite length_alter.
  - by apply IH.
  - assert (length (result (markSeen (ExtArray r items) s)) = 4%nat) as Hm by done.
    revert Hm. generalize (markSeen (ExtArray r items) s). clear H.
    induction IH as [|e items He _ IHitems]; intros s' Hs'; simpl; [done|].
    apply IHitems, He, Hs'.
Qed.

(** The buckets, concatenated, are the tiers of the walk. *)
Lemma flatten_tier_order (extension : Extension) :
  flatten extension = flatten_by_tier extension.
Proof.
  unfold flatten, flatten_by_tier.
  destruct (inner_visit extension Default (MkFlattenState ∅ [[]; []; []; []]) (∅, []))
    as [_ Hres]; [by split|].
  rewrite Hres. simpl. by rewrite <- !app_assoc.
Qed.

Lemma inner_fresh ext prec s :
  ref_of ext ∉ seen s ->
  inner ext prec s =
  match ext with
  | ExtArray _ items => foldl (fun s e => inner e prec s) (markSeen ext s) items
  | ExtPrec _ e p => inner e p (markSeen ext s)
  | ExtProvider p => push prec (LeafProvider p) (markSeen ext s)
  | ExtField f => inner (facets f) prec (push prec (LeafField f) (markSeen ext s))
  end.
Proof. intros Hfresh. rewrite inner_unfold. by rewrite decide_False. Qed.

(** Three tagged leaves in source order: Fallback, Override, untagged. *)
Lemma flatten_three_tiers r w1 w2 (p1 p2 p3 : FacetProvider) :
  NoDup [r; w1; w2; fp_ref p1; fp_ref p2; fp_ref p3] ->
  flatten (ExtArray r [ExtPrec w1 (ExtProvider p1) Fallback;
                       ExtPrec w2 (ExtProvider p2) Override;
                       ExtProvider p3])
  = [LeafProvider p2; LeafProvider p3; LeafProvider p1].
Proof.
  intros Hnd. unfold flatten.
  repeat (apply NoDup_cons in Hnd as [Hnotin Hnd];
          repeat (apply not_elem_of_cons in Hnotin as [? Hnotin]); clear Hnotin).
  clear Hnd.
  rewrite (inner_fresh (ExtArray _ _)) by (simpl; set_solver).
  unfold foldl.
  rewrite (inner_fresh (ExtPrec w1 _ _)) by (simpl; set_solver).
  rewrite (inner_fresh (ExtProvider p1)) by (simpl; set_solver).
  rewrite (inner_fresh (ExtPrec w2 _ _)) by (simpl; set_solver).
  rewrite (inner_fresh (ExtProvider p2)) by (simpl; set_solver).
  rewrite (inner_fresh (ExtProvider p3)) by (simpl; set_solver).
  reflexivity.
Qed.

(** C7. Flattening lists the leaves tier by tier, Override first, then
    Extend, Default and Fallback; inside a tier the leaves keep the
    pre-order of the tree, and the tier of a leaf is the one set by the
    innermost precedence wrapper above it (Default when there is none).
    Leaves tagged Fallback, Override and untagged, in that order, come out
    as second, third, first. *)
Theorem flatten_precedence_order :
  (forall extension, flatten extension = flatten_by_tier extension) /\
  (forall r w1 w2 (p1 p2 p3 : FacetProvider),
     NoDup [r; w1; w2; fp_ref p1; fp_ref p2; fp_ref p3] ->
     flatten (ExtArray r [ExtPrec w1 (ExtProvider p1) Fallback;
                          ExtPrec w2 (ExtProvider p2) Override;
                          ExtProvider p3])
     = [LeafProvider p2; LeafProvider p3; LeafProvider p1]).
Proof. split; [apply flatten_tier_order|apply flatten_three_tiers]. Qed.

Lemma flatten_precedence_order_witness :
  flatten (ExtArray 12 [ExtPrec 10 (ExtProvider tab2) Fallback;
                        ExtPrec 11 (ExtProvider tab8) Override;
                        ExtProvider tab5])
  = [LeafProvider tab8; LeafProvider tab5; LeafProvider tab2].
Proof.
  apply (proj2 flatten_precedence_order 12%nat 10%nat 11%nat tab2 tab8 tab5).
  repeat constructor; simpl; set_solver.
Defined.

(** ** Addresses *)

Lemma ToInt32_small z : - 2 ^ 31 <= z < 2 ^ 31 -> ToInt32 z = z.
Proof. intros Hz. unfold ToInt32. rewrite Z.mod_small; lia. Qed.

Lemma land_one z : Z.land z 1 = z `mod` 2.
Proof. apply (Z.land_ones z 1). lia. Qed.

Lemma js_shl_one i : - 2 ^ 30 <= i < 2 ^ 30 -> js_shl i 1 = 2 * i.
Proof.
  intros Hi. unfold js_shl. rewrite (ToInt32_small i) by lia.
  rewrite Z.shiftl_mul_pow2 by lia.
  replace (i * 2 ^ 1) with (2 * i) by lia. apply ToInt32_small. lia.
Qed.

Lemma lor_even_one i : Z.lor (2 * i) 1 = 2 * i + 1.
Proof.
  pose proof (Z.add_lor_land (2 * i) 1) as Hadd.
  rewrite land_one in Hadd.
  replace ((2 * i) `mod` 2) with 0 in Hadd; [lia|].
  symmetry. rewrite Z.mul_comm. apply Z.mod_mul. lia.
Qed.

(** The static address of index [i] and back. *)
Lemma static_address_index i :
  0 <= i < 2 ^ 30 ->
  js_shr (Some (js_or (js_shl i 1) 1)) 1 = i /\
  js_and (Some (js_or (js_shl i 1) 1)) 1 = 1.
Proof.
  intros Hi. rewrite js_shl_one by lia.
  unfold js_shr, js_and, js_or, int32.
  rewrite (ToInt32_small (2 * i)), (ToInt32_small 1) by lia.
  rewrite lor_even_one, (ToInt32_small (2 * i + 1)) by lia.
  rewrite Z.shiftr_div_pow2, land_one by lia.
  replace (2 ^ 1) with 2 by lia. replace (2 * i + 1) with (1 + i * 2) by lia.
  rewrite Z.div_add, Z.mod_add by lia. done.
Qed.

(** The dynamic address of index [i] and back. *)
Lemma dynamic_address_index i :
  - 2 ^ 30 <= i < 2 ^ 30 ->
  js_shr (Some (js_shl i 1)) 1 = i /\ js_and (Some (js_shl i 1)) 1 = 0.
Proof.
  intros Hi. rewrite js_shl_one by lia.
  unfold js_shr, js_and, int32.
  rewrite (ToInt32_small (2 * i)), (ToInt32_small 1) by lia.
  rewrite Z.shiftr_div_pow2, land_one by lia.
  replace (2 ^ 1) with 2 by lia. replace (2 * i) with (i * 2) by lia.
  rewrite Z.div_mul, Z.mod_mul by lia. done.
Qed.

Lemma getAddr_dynamic state i :
  - 2 ^ 30 <= i < 2 ^ 30 ->
  getAddr state (Some (js_shl i 1)) = orUndef (values state !! i).
Proof.
  intros Hi. destruct (dynamic_address_index i Hi) as [Hidx Hbit].
  unfold getAddr. by rewrite Hbit, Hidx, decide_True.
Qed.

Lemma getAddr_static state i :
  0 <= i < 2 ^ 30 ->
  getAddr state (Some (js_or (js_shl i 1) 1)) =
  orUndef (staticValues (config state) !! Z.to_nat i).
Proof.
  intros Hi. destruct (static_address_index i Hi) as [Hidx Hbit].
  unfold getAddr, array_get. rewrite Hbit, Hidx, decide_False, decide_True by lia.
  done.
Qed.

(** ** Provider construction *)

(** C9. [computedFacet] and [computedFacetN] on a static facet throw at
    once; on a facet that is not static they return a provider of kind
    Single, respectively Multi, for that facet.  Neither takes a
    configuration or a state: the check is made when the provider is
    built. *)
Theorem computed_provider_rejects_static (facet : Facet) (data : FacetData)
    (depends : list Slot) (get : Closure) (ref nextID : nat) :
  _data facet = Some data ->
  (isStatic data = true ->
     computedFacet facet depends get ref nextID = Throw ComputeStatic /\
     computedFacetN facet depends get ref nextID = Throw ComputeStatic) /\
  (isStatic data = false ->
     computedFacet facet depends get ref nextID =
       Ok (MkFacetProvider ref nextID depends data Single (VFun get), S nextID) /\
     computedFacetN facet depends get ref nextID =
       Ok (MkFacetProvider ref nextID depends data Multi (VFun get), S nextID)).
Proof.
  intros Hdata. unfold computedFacet, computedFacetN, FacetData_get.
  rewrite Hdata. simpl. split; intros ->; by split.
Qed.

(** The static facet [Tabsize] and the facet [Loop], which is not static. *)
Lemma computed_provider_rejects_static_witness :
  (computedFacet TabsizeFacet [] 2%nat 500 40 = Throw ComputeStatic /\
   computedFacetN TabsizeFacet [] 1%nat 500 40 = Throw ComputeStatic) /\
  (computedFacet LoopFacet [SlotFacet LoopFacet] 2%nat 401 21 = Ok (loopProvider, 22%nat) /\
   computedFacetN LoopFacet [SlotDoc] 1%nat 402 22 =
     Ok (MkFacetProvider 402 22 [SlotDoc] Loop Multi (VFun 1%nat), 23%nat)).
Proof.
  split.
  - split.
    + apply (proj1 (computed_provider_rejects_static TabsizeFacet Tabsize [] 2%nat
                      500%nat 40%nat eq_refl)). reflexivity.
    + apply (proj1 (computed_provider_rejects_static TabsizeFacet Tabsize [] 1%nat
                      500%nat 40%nat eq_refl)). reflexivity.
  - split.
    + apply (proj2 (computed_provider_rejects_static LoopFacet Loop
                      [SlotFacet LoopFacet] 2%nat 401%nat 21%nat eq_refl)). reflexivity.
    + apply (proj2 (computed_provider_rejects_static LoopFacet Loop
                      [SlotDoc] 1%nat 402%nat 22%nat eq_refl)). reflexivity.
Defined.

(** ** Static facet lookup *)

(** C10. [staticFacet] on a facet whose id has no address returns the
    facet's default, which the constructor of [FacetData] computed as
    [combine([])]; with an address it returns the entry of [staticValues]
    at the index of the address, which for the static address of an index
    in range is the value stored there. *)
Theorem staticFacet_default_or_stored (c : Configuration) :
  (forall combine compareInput compare isStatic nextID,
     let data := (FacetData_new combine compareInput compare isStatic nextID).1 in
     address c !! fd_id data = None ->
     Configuration_staticFacet c (MkFacet (Some data)) = Ok (combine [])) /\
  (forall data addr,
     address c !! fd_id data = Some addr ->
     Configuration_staticFacet c (MkFacet (Some data)) =
       Ok (orUndef (array_get (staticValues c) (js_shr (Some addr) 1)))) /\
  (forall data i v,
     address c !! fd_id data = Some (js_or (js_shl (Z.of_nat i) 1) 1) ->
     Z.of_nat i < 2 ^ 30 ->
     staticValues c !! i = Some v ->
     Configuration_staticFacet c (MkFacet (Some data)) = Ok v).
Proof.
  unfold Configuration_staticFacet, FacetData_get; simpl.
  split; [|split].
  - intros combine compareInput compare isStatic nextID Hnone.
    simpl in Hnone. by rewrite Hnone.
  - intros data addr Haddr. by rewrite Haddr.
  - intros data i v Haddr Hi Hv. rewrite Haddr.
    destruct (static_address_index (Z.of_nat i)) as [-> _]; [lia|].
    unfold array_get. rewrite decide_True by lia.
    by rewrite Nat2Z.id, Hv.
Qed.

Lemma staticFacet_default_or_stored_witness :
  Configuration_staticFacet counterConfiguration TabsizeFacet = Ok (VNum 4) /\
  Configuration_staticFacet (Configuration_new [] {[0%nat := 1]} [VNum 8]) TabsizeFacet
    = Ok (VNum 8).
Proof.
  split.
  - apply (proj1 (staticFacet_default_or_stored counterConfiguration)
             keepLast numEq numEq true 0%nat). reflexivity.
  - apply (proj2 (proj2 (staticFacet_default_or_stored
                           (Configuration_new [] {[0%nat := 1]} [VNum 8])))
             Tabsize 0%nat (VNum 8)); [reflexivity|reflexivity|reflexivity].
Defined.

(** ** The status template *)

Lemma fillTemplate_replicate fuel bound (n : nat) :
  (n + fuel = bound)%nat ->
  fillTemplate fuel bound (replicate n Uninitialized) = replicate bound Uninitialized.
Proof.
  revert n. induction fuel as [|fuel IH]; intros n Hn; simpl.
  - f_equal. lia.
  - rewrite length_replicate, decide_True by lia.
    replace (replicate n Uninitialized ++ [Uninitialized])
      with (replicate (S n) Uninitialized).
    + apply IH. lia.
    + change [Uninitialized] with (replicate 1 Uninitialized).
      rewrite <- replicate_add. f_equal. lia.
Qed.

(** The template built by the constructor, and the loop leaves when its
    condition fails, not for lack of fuel. *)
Lemma statusTemplate_replicate slots addr statics :
  statusTemplate (Configuration_new slots addr statics) =
  replicate (length statics) Uninitialized.
Proof. apply (fillTemplate_replicate _ _ 0). lia. Qed.

(** C2. The constructor of [Configuration] fills [statusTemplate] up to
    the length of [staticValues], not of [dynamicSlots]: every cell is
    [Uninitialized], and there is one cell per static value.  A
    configuration resolved from one field has one dynamic slot and an
    empty template. *)
Theorem statusTemplate_follows_staticValues :
  (forall slots addr statics,
     statusTemplate (Configuration_new slots addr statics) =
     replicate (length statics) Uninitialized) /\
  (exists c,
     Configuration_resolve (ExtField counter) None = Ok c /\
     length (dynamicSlots c) = 1%nat /\
     statusTemplate c = []).
Proof.
  split; [apply statusTemplate_replicate|].
  eexists. split; [reflexivity|]. by split.
Qed.

(** ** Field slots *)

(** C1. On a reconfiguring transaction whose start configuration has no
    address for the field, the field slot does not call [create]: the
    missing address, shifted, is index [0], so the slot calls [update] with
    the start state's value at index [0] and goes on as for a field that
    was there before. *)
Theorem field_slot_new_field_calls_update (cb : Callbacks) (field : StateField)
    (idx : Z) (t : Transaction) (w : World) :
  reconfigured t = true ->
  address (config (startState t)) !! sf_id field = None ->
  let oldVal := orUndef (values (startState t) !! 0) in
  let log := calls w ++ [CallUpdate (updateF field) oldVal] in
  fieldSlot_update cb field idx (Some t) w =
  match call_update cb (updateF field) oldVal t (snap w) with
  | Ok (v, s') =>
      if compareF field oldVal v then Ok (0, MkWorld s' log)
      else Ok (Changed, MkWorld (setValue idx v s') log)
  | Throw e => Throw e
  | OutOfFuel => OutOfFuel
  end.
Proof.
  intros Hrec Hnone. unfold fieldSlot_update. rewrite Hrec, Hnone.
  unfold callUpdate, bind, logCall, onState, js_shr. simpl.
  destruct (call_update cb _ _ t (snap w)) as [[v s']| |]; try done.
  by destruct (compareF field _ v).
Qed.

(** The field [counter], new in the configuration: [update] receives
    [undefined] and throws. *)
Lemma field_slot_new_field_calls_update_witness :
  fieldSlot_update sampleCallbacks counter 0 (Some addsCounter)
    (MkWorld (firstState emptyConfiguration) []) = Throw (UserError 0).
Proof.
  rewrite (field_slot_new_field_calls_update sampleCallbacks counter 0 addsCounter);
    reflexivity.
Defined.

(** ** Slot evaluation *)

Ltac run_monad H :=
  unfold callCreate, callUpdate, callGetter, callCombine, gatherValues,
    bind, ret, throw, modify, logCall, onState in H.

Ltac run_monad_goal :=
  unfold callCreate, callUpdate, callGetter, callCombine, gatherValues,
    bind, ret, throw, modify, logCall, onState.

(** Every slot function returns [0] or [Changed]. *)
Lemma runSlot_flag cb ensure slot tr w r w' :
  runSlot cb ensure slot tr w = Ok (r, w') -> r = 0 \/ r = Changed.
Proof.
  destruct slot as [field idx|getter cmp idx depDoc depSel depAddrs
                   |facet providerAddrs providerTypes dynamic idx]; simpl.
  - unfold fieldSlot_update. intros H. run_monad H.
    repeat case_match; simplify_eq; auto.
  - unfold providerSlot_update. intros H. run_monad H.
    repeat case_match; simplify_eq; auto.
  - unfold facetSlot_update. intros H. run_monad H.
    repeat case_match; simplify_eq; auto.
Qed.

Lemma computed_bit_not_computing s :
  js_and (Some s) Computed <> 0 -> s <> Computing.
Proof. intros Hbit ->. by apply Hbit. Qed.

(** C5. [ensureAddr] on a static address returns [Computed].  On a dynamic
    address whose status is [Computing] it throws the cyclic-dependency
    error, whatever the fuel, without touching the state; on a status with
    the [Computed] bit it returns that status and leaves state and log as
    they are; on a cell that is neither, it marks the cell [Computing],
    calls the slot with the transaction being applied, and stores and
    returns [Computed] or-ed with the slot's flag, which is [0] or
    [Changed]; an error of the slot is passed on. *)
Theorem ensureAddr_cases (cb : Callbacks) :
  (forall fuel addr w,
     js_and addr 1 <> 0 -> ensureAddr cb fuel addr w = Ok (Computed, w)) /\
  (forall fuel addr w,
     js_and addr 1 = 0 ->
     status (snap w) !! js_shr addr 1 = Some Computing ->
     ensureAddr cb fuel addr w = Throw CyclicDependency) /\
  (forall fuel addr w s,
     js_and addr 1 = 0 ->
     status (snap w) !! js_shr addr 1 = Some s ->
     js_and (Some s) Computed <> 0 ->
     ensureAddr cb fuel addr w = Ok (s, w)) /\
  (forall fuel addr w slot,
     js_and addr 1 = 0 ->
     let idx := js_shr addr 1 in
     status (snap w) !! idx <> Some Computing ->
     js_and (status (snap w) !! idx) Computed = 0 ->
     array_get (dynamicSlots (config (snap w))) idx = Some slot ->
     let w1 := MkWorld (setStatus idx Computing (snap w)) (calls w) in
     match runSlot cb (ensureAddr cb fuel) slot (applying (snap w)) w1 with
     | Ok (changed, w2) =>
         (changed = 0 \/ changed = Changed) /\
         ensureAddr cb (S fuel) addr w =
           Ok (js_or Computed changed,
               MkWorld (setStatus idx (js_or Computed changed) (snap w2)) (calls w2))
     | Throw e => ensureAddr cb (S fuel) addr w = Throw e
     | OutOfFuel => ensureAddr cb (S fuel) addr w = OutOfFuel
     end).
Proof.
  split; [|split; [|split]].
  - intros fuel addr w Hbit. destruct fuel; simpl; by rewrite decide_False.
  - intros fuel addr w Hbit Hst.
    destruct fuel; simpl; by rewrite decide_True, Hst, decide_True.
  - intros fuel addr w s Hbit Hst Hcomputed.
    pose proof (computed_bit_not_computing s Hcomputed) as Hne.
    destruct fuel; simpl; rewrite decide_True, Hst by done;
      rewrite decide_False by congruence; by rewrite decide_False.
  - intros fuel addr w slot Hbit idx Hnc Hun Hslot w1.
    destruct (runSlot cb (ensureAddr cb fuel) slot (applying (snap w)) w1)
      as [[changed w2]| |] eqn:Hrun.
    + split; [by eapply runSlot_flag|].
      simpl. rewrite decide_True by done. fold idx.
      rewrite decide_False, decide_True by done.
      run_monad_goal. simpl. fold idx. rewrite Hslot. fold w1. by rewrite Hrun.
    + simpl. rewrite decide_True by done. fold idx.
      rewrite decide_False, decide_True by done.
      run_monad_goal. simpl. fold idx. rewrite Hslot. fold w1. by rewrite Hrun.
    + simpl. rewrite decide_True by done. fold idx.
      rewrite decide_False, decide_True by done.
      run_monad_goal. simpl. fold idx. rewrite Hslot. fold w1. by rewrite Hrun.
Qed.

Lemma ensureAddr_cases_witness :
  ensureAddr sampleCallbacks 0 (Some 1) (withStatus counterConfiguration ∅)
    = Ok (Computed, withStatus counterConfiguration ∅) /\
  ensureAddr sampleCallbacks 0 (Some 0) (withStatus counterConfiguration {[0 := Computing]})
    = Throw CyclicDependency /\
  ensureAddr sampleCallbacks 0 (Some 0) (withStatus counterConfiguration {[0 := 3]})
    = Ok (3, withStatus counterConfiguration {[0 := 3]}) /\
  ensureAddr sampleCallbacks 1 (Some 0) (withStatus counterConfiguration ∅)
    = Ok (3, MkWorld (MkEditorState counterConfiguration {[0 := VNum 0]} {[0 := 3]} None)
               [CallCreate 0%nat]).
Proof.
  destruct (ensureAddr_cases sampleCallbacks) as (Hstatic & Hcycle & Hcached & Hrun).
  split; [by apply Hstatic|]. split; [by apply Hcycle|].
  split; [by apply Hcached|].
  pose proof (Hrun 0%nat (Some 0) (withStatus counterConfiguration ∅)
                (FieldSlot counter 0) eq_refl) as Hstep.
  cbv zeta in Hstep.
  assert (status (snap (withStatus counterConfiguration ∅)) !! js_shr (Some 0) 1
          <> Some Computing) as Hfresh by (by vm_compute).
  specialize (Hstep Hfresh eq_refl eq_refl).
  vm_compute in Hstep. vm_compute. apply Hstep.
Defined.

(** A provider that depends on its own facet: on a transaction that keeps
    the configuration, the first evaluation of its slot throws the cyclic
    error, with any fuel that lets the two nested slots start. *)
Example self_dependency_is_cyclic (fuel : nat) (start : EditorState) :
  length (dynamicSlots loopConfiguration) = 2%nat /\
  ensureAddr sampleCallbacks (S (S fuel)) (Some 0)
    (MkWorld (editedState loopConfiguration start true) []) = Throw CyclicDependency.
Proof. split; [done|]. by destruct fuel. Qed.

(** ** Forcing dependencies *)

Lemma and_changed_range s : 0 <= js_and (Some s) Changed <= 1.
Proof.
  unfold js_and, Changed. rewrite (ToInt32_small 1) by lia.
  rewrite land_one. pose proof (Z.mod_pos_bound (int32 (Some s)) 2). lia.
Qed.

Lemma changed_gt_iff s : js_and (Some s) Changed > 0 <-> reportsChanged s = true.
Proof.
  unfold reportsChanged. rewrite bool_decide_eq_true.
  pose proof (and_changed_range s). lia.
Qed.

(** [some] stops at the first address whose status has the [Changed] bit. *)
Lemma someChanged_true ensure addrs w w' :
  someChanged ensure addrs w = Ok (true, w') <->
  exists pre addr post flags w0 s,
    addrs = pre ++ addr :: post /\
    ensured ensure pre w flags w0 /\ forallb (fun s => negb (reportsChanged s)) flags = true /\
    ensure addr w0 = Ok (s, w') /\ reportsChanged s = true.
Proof.
  revert w. induction addrs as [|a addrs IH]; intros w; simpl.
  - split; [done|]. intros (pre & ? & ? & ? & ? & ? & Heq & _). by destruct pre.
  - unfold bind. split.
    + destruct (ensure a w) as [[s w1]| |] eqn:Hens; try done.
      case_decide as Hs.
      * intros [= <-]. exists [], a, addrs, [], w, s.
        repeat split; [constructor|done|by apply changed_gt_iff].
      * intros (pre & addr & post & flags & w0 & s' & -> & Hpre & Hall & Hlast & Hs')%IH.
        exists (a :: pre), addr, post, (s :: flags), w0, s'.
        repeat split; [by econstructor| |done|done].
        simpl. rewrite Hall, andb_true_r. apply negb_true_iff.
        destruct (reportsChanged s) eqn:Hr; [|done]. by apply changed_gt_iff in Hr.
    + intros (pre & addr & post & flags & w0 & s & Heq & Hpre & Hall & Hlast & Hs).
      destruct pre as [|a' pre]; simpl in Heq; simplify_eq.
      * inversion Hpre; subst. rewrite Hlast.
        rewrite decide_True by (by apply changed_gt_iff). done.
      * inversion Hpre as [|? ? ? s1 w1 flags' ? Hens Hrest]; subst. rewrite Hens.
        simpl in Hall. apply andb_true_iff in Hall as [Hs1 Hall].
        apply negb_true_iff in Hs1.
        rewrite decide_False.
        -- apply IH. by exists pre, addr, post, flags', w0, s.
        -- intros Hgt%changed_gt_iff. congruence.
Qed.

(** [some] answers [false] after all addresses were forced and none has
    the [Changed] bit. *)
Lemma someChanged_false ensure addrs w w' :
  someChanged ensure addrs w = Ok (false, w') <->
  exists flags,
    ensured ensure addrs w flags w' /\
    forallb (fun s => negb (reportsChanged s)) flags = true.
Proof.
  revert w. induction addrs as [|a addrs IH]; intros w; simpl.
  - unfold ret. split.
    + intros [= <-]. exists []. split; [constructor|done].
    + intros (flags & Hrun & _). by inversion Hrun; subst.
  - unfold bind. split.
    + destruct (ensure a w) as [[s w1]| |] eqn:Hens; try done.
      case_decide as Hs; [done|].
      intros (flags & Hrun & Hall)%IH. exists (s :: flags).
      split; [by econstructor|]. simpl. rewrite Hall, andb_true_r.
      apply negb_true_iff. destruct (reportsChanged s) eqn:Hr; [|done].
      by apply changed_gt_iff in Hr.
    + intros (flags & Hrun & Hall).
      inversion Hrun as [|? ? ? s w1 flags' ? Hens Hrest]; subst. rewrite Hens.
      simpl in Hall. apply andb_true_iff in Hall as [Hs Hall].
      apply negb_true_iff in Hs.
      rewrite decide_False.
      * apply IH. by exists flags'.
      * intros Hgt%changed_gt_iff. congruence.
Qed.

(** The loop of the combine slot forces every address and ors the bits. *)
Lemma ensureAll_spec ensure dynamic changed w b w' :
  ensureAll ensure dynamic changed w = Ok (b, w') <->
  exists flags,
    ensured ensure dynamic w flags w' /\
    b = changed || existsb reportsChanged flags.
Proof.
  revert changed w. induction dynamic as [|a dynamic IH]; intros changed w; simpl.
  - unfold ret. split.
    + intros [= <- <-]. exists []. split; [constructor|]. by rewrite orb_false_r.
    + intros (flags & Hrun & ->). inversion Hrun; subst. simpl.
      by rewrite orb_false_r.
  - unfold bind. split.
    + destruct (ensure a w) as [[s w1]| |] eqn:Hens; try done.
      intros (flags & Hrun & ->)%IH. exists (s :: flags).
      split; [by econstructor|]. simpl. unfold reportsChanged at 2.
      case_decide as Hs.
      * rewrite bool_decide_eq_false_2 by (by intros ?). done.
      * rewrite bool_decide_eq_true_2 by done. by rewrite orb_true_r.
    + intros (flags & Hrun & ->).
      inversion Hrun as [|? ? ? s w1 flags' ? Hens Hrest]; subst. rewrite Hens.
      apply IH. exists flags'. split; [done|]. simpl. unfold reportsChanged at 1.
      case_decide as Hs.
      * rewrite bool_decide_eq_false_2 by (by intros ?). done.
      * rewrite bool_decide_eq_true_2 by done. by rewrite orb_true_r.
Qed.

(** ** Provider slots *)

Lemma symbolicFired_eq depDoc depSel t :
  (depDoc && docChanged t) || (depSel && (docChanged t || selectionSet t)) =
  symbolicFired depDoc depSel t.
Proof. unfold symbolicFired. by rewrite (orb_comm (docChanged t)). Qed.

(** The closure of a computed provider, for any captured variables.  Without a
    transaction, or on a reconfiguring one, it calls the getter, stores the
    value and reports [Changed].  Otherwise the getter is called when a
    symbolic dependency fired ("doc" on a document change, "selection" on a
    selection or a document change), in which case no address is forced,
    or when forcing the dependency addresses in order found one that
    reports [Changed]; when all of them were forced and none did, the slot
    returns [0] with the state and the log as forcing left them.  The value
    of the getter is compared by [compareInput] with the start state's
    value at the same index: equal, the slot returns [0] and does not store
    it; different, the slot stores it and reports [Changed]. *)
Lemma providerSlot_cases (cb : Callbacks) (ensure : option Z -> M Z)
    (code : Closure) (compare : value -> value -> bool) (idx : Z)
    (depDoc depSel : bool) (depAddrs : list (option Z)) :
  let slot := providerSlot_update cb ensure (VFun code) compare idx depDoc depSel depAddrs in
  (forall tr w v s',
     tr = None \/ (exists t, tr = Some t /\ reconfigured t = true) ->
     call_get cb code (snap w) = Ok (v, s') ->
     slot tr w = Ok (Changed, MkWorld (setValue idx v s') (calls w ++ [CallGet code]))) /\
  (forall t w w1 flags,
     reconfigured t = false ->
     symbolicFired depDoc depSel t = false ->
     ensured ensure depAddrs w flags w1 ->
     forallb (fun s => negb (reportsChanged s)) flags = true ->
     slot (Some t) w = Ok (0, w1)) /\
  (forall t w w1 v s',
     reconfigured t = false ->
     (symbolicFired depDoc depSel t = true /\ w1 = w) \/
     (symbolicFired depDoc depSel t = false /\
      exists pre addr post flags w0 s,
        depAddrs = pre ++ addr :: post /\
        ensured ensure pre w flags w0 /\
        forallb (fun s => negb (reportsChanged s)) flags = true /\
        ensure addr w0 = Ok (s, w1) /\ reportsChanged s = true) ->
     call_get cb code (snap w1) = Ok (v, s') ->
     let log := calls w1 ++ [CallGet code] in
     slot (Some t) w =
       if compare v (orUndef (values (startState t) !! idx))
       then Ok (0, MkWorld s' log)
       else Ok (Changed, MkWorld (setValue idx v s') log)).
Proof.
  intros slot. subst slot. split; [|split].
  - intros tr w v s' Hfresh Hget. unfold providerSlot_update.
    destruct Hfresh as [->|(t & -> & ->)]; run_monad_goal; simpl; by rewrite Hget.
  - intros t w w1 flags Hrec Hsym Hrun Hall. unfold providerSlot_update.
    rewrite Hrec, symbolicFired_eq, Hsym. unfold bind.
    assert (someChanged ensure depAddrs w = Ok (false, w1)) as ->
      by (apply someChanged_false; eauto).
    done.
  - intros t w w1 v s' Hrec Hfired Hget log. unfold providerSlot_update.
    rewrite Hrec, symbolicFired_eq.
    destruct Hfired as [[-> ->]|[-> Hsome]].
    + run_monad_goal. simpl. rewrite Hget.
      by destruct (compare v _).
    + apply someChanged_true in Hsome. unfold bind at 1. rewrite Hsome. simpl.
      run_monad_goal. simpl. rewrite Hget.
      by destruct (compare v _).
Qed.

(** ** Facet combine slots *)

(** The inputs of [combine] are the contributions of the providers, in
    the order of the group. *)
Lemma gather_from state (tys : list Provider) addrs parts :
  Forall3 (fun ty addr part => contribution state ty addr = Some part) tys addrs parts ->
  forall pre acc,
    gather state (pre ++ tys) addrs (length pre) acc = Ok (acc ++ concat parts).
Proof.
  induction 1 as [|ty addr part tys addrs parts Hpart _ IH]; intros pre acc; simpl.
  - by rewrite app_nil_r.
  - rewrite list_lookup_middle by done.
    specialize (IH (pre ++ [ty]) (acc ++ part)).
    rewrite <- app_assoc, length_app, Nat.add_1_r, <- app_assoc in IH. simpl in IH.
    unfold contribution in Hpart.
    destruct ty; simplify_eq; try done.
    destruct (getAddr state addr); by simplify_eq.
Qed.

Lemma gather_contributions state tys addrs parts :
  Forall3 (fun ty addr part => contribution state ty addr = Some part) tys addrs parts ->
  gather state tys addrs 0 [] = Ok (concat parts).
Proof. intros H. apply (gather_from _ _ _ _ H [] []). Qed.

(** The closure of a facet's combine slot, for any captured variables.  It forces every
    dynamic member address, in order.  On a transaction that keeps the
    configuration, when no member reports [Changed] it returns [0] with
    state and log as forcing left them, so [combine] is not called; when
    some member does, it gathers the members' values in group order, one
    element for a Static or Single provider and the elements of the array
    for a Multi provider, calls [combine], and compares the result with the
    start state's value of the slot: equal, it returns [0] and stores
    nothing; different, it stores the result and reports [Changed].
    Without a transaction it gathers, combines, stores and reports
    [Changed]. *)
Lemma facetSlot_cases (ensure : option Z -> M Z) (facet : FacetData) (providerAddrs : list (option Z))
    (providerTypes : list Provider) (dynamic : list (option Z)) (idx : Z) :
  let slot := facetSlot_update ensure facet providerAddrs providerTypes dynamic idx in
  (forall t w w1 flags,
     reconfigured t = false ->
     ensured ensure dynamic w flags w1 ->
     existsb reportsChanged flags = false ->
     slot (Some t) w = Ok (0, w1)) /\
  (forall t w w1 flags parts,
     reconfigured t = false ->
     - 2 ^ 30 <= idx < 2 ^ 30 ->
     ensured ensure dynamic w flags w1 ->
     existsb reportsChanged flags = true ->
     Forall3 (fun ty addr part => contribution (snap w1) ty addr = Some part)
       providerTypes providerAddrs parts ->
     let newVal := combine facet (concat parts) in
     let log := calls w1 ++ [CallCombine (fd_id facet) (concat parts)] in
     slot (Some t) w =
       if compare facet newVal (orUndef (values (startState t) !! idx))
       then Ok (0, MkWorld (snap w1) log)
       else Ok (Changed, MkWorld (setValue idx newVal (snap w1)) log)) /\
  (forall w w1 flags parts,
     ensured ensure dynamic w flags w1 ->
     Forall3 (fun ty addr part => contribution (snap w1) ty addr = Some part)
       providerTypes providerAddrs parts ->
     slot None w =
       Ok (Changed,
           MkWorld (setValue idx (combine facet (concat parts)) (snap w1))
             (calls w1 ++ [CallCombine (fd_id facet) (concat parts)]))).
Proof.
  intros slot. subst slot. split; [|split].
  - intros t w w1 flags Hrec Hrun Hnone. unfold facetSlot_update.
    rewrite Hrec. unfold bind at 1.
    assert (ensureAll ensure dynamic (bool_decide (Some (js_shl idx 1) = None)) w
            = Ok (false, w1)) as ->; [|done].
    apply ensureAll_spec. exists flags. by rewrite Hnone.
  - intros t w w1 flags parts Hrec Hidx Hrun Hsome Hparts newVal log.
    unfold facetSlot_update. rewrite Hrec. unfold bind at 1.
    assert (ensureAll ensure dynamic (bool_decide (Some (js_shl idx 1) = None)) w
            = Ok (true, w1)) as ->.
    { apply ensureAll_spec. exists flags. by rewrite Hsome. }
    simpl. run_monad_goal. rewrite (gather_contributions _ _ _ _ Hparts). simpl.
    rewrite getAddr_dynamic by done. fold newVal.
    by destruct (compare facet newVal _).
  - intros w w1 flags parts Hrun Hparts. unfold facetSlot_update.
    cbv zeta. unfold bind at 1.
    match goal with
    | |- context [ensureAll ensure dynamic ?c w] =>
        assert (ensureAll ensure dynamic c w = Ok (true, w1)) as ->
    end.
    { apply ensureAll_spec. exists flags. split; [done|].
      by rewrite bool_decide_eq_true_2. }
    simpl. run_monad_goal. by rewrite (gather_contributions _ _ _ _ Hparts).
Qed.

(** ** Resolving static groups *)

Lemma groupFor_absent k groups : k ∉ groups.*1 -> groupFor k groups = [].
Proof.
  induction groups as [|[k' ps] groups IH]; simpl; [done|].
  intros Hnotin%not_elem_of_cons. destruct Hnotin as [Hne Hnotin].
  rewrite decide_False by done. by apply IH.
Qed.

Lemma sorted_head_absent (k k' : nat) (keys : list nat) :
  StronglySorted lt (k' :: keys) -> (k < k')%nat -> k ∉ k' :: keys.
Proof.
  intros Hsorted Hlt Hin. apply StronglySorted_inv in Hsorted as [_ Hall].
  apply elem_of_cons in Hin as [->|Hin]; [lia|].
  rewrite Forall_forall in Hall. specialize (Hall _ Hin). lia.
Qed.

Lemma addProvider_keys id p groups :
  forall k, k ∈ (addProvider id p groups).*1 -> k = id \/ k ∈ groups.*1.
Proof.
  induction groups as [|[k' ps] groups IH]; intros k; simpl.
  - intros Hin%list_elem_of_singleton. by left.
  - repeat case_decide; simpl; rewrite ?elem_of_cons; [tauto|tauto|].
    intros [->|Hin]; [tauto|]. destruct (IH _ Hin); tauto.
Qed.

Lemma addProvider_sorted id p groups :
  StronglySorted lt groups.*1 -> StronglySorted lt (addProvider id p groups).*1.
Proof.
  induction groups as [|[k' ps] groups IH]; simpl; intros Hsorted.
  - repeat constructor.
  - repeat case_decide; simpl; [done| |].
    + constructor; [done|]. apply StronglySorted_inv in Hsorted as [_ Hall].
      constructor; [done|]. eapply Forall_impl; [exact Hall|]. simpl. lia.
    + apply StronglySorted_inv in Hsorted as [Hsorted Hall].
      constructor; [by apply IH|].
      apply Forall_forall. intros k Hin.
      destruct (addProvider_keys _ _ _ _ Hin) as [->|Hin']; [lia|].
      rewrite Forall_forall in Hall. by apply Hall.
Qed.

Lemma addProvider_groupFor id p groups k :
  StronglySorted lt groups.*1 ->
  groupFor k (addProvider id p groups) =
  if decide (k = id) then groupFor k groups ++ [p] else groupFor k groups.
Proof.
  induction groups as [|[k' ps] groups IH]; simpl; intros Hsorted.
  - by case_decide.
  - destruct (decide (id = k')) as [->|Hne]; simpl.
    + by repeat case_decide.
    + destruct (decide (id < k')%nat) as [Hlt|Hge]; simpl.
      * destruct (decide (k = id)) as [->|Hk]; [|done].
        rewrite decide_False by done.
        rewrite (groupFor_absent id groups); [done|].
        pose proof (sorted_head_absent id k' _ Hsorted Hlt) as Habs.
        by apply not_elem_of_cons in Habs as [_ ?].
      * apply StronglySorted_inv in Hsorted as [Hsorted _].
        destruct (decide (k = k')) as [->|Hk].
        -- by rewrite decide_False by lia.
        -- by apply IH.
Qed.

Lemma classify_groupFor leaves k :
  forall fields groups,
    StronglySorted lt groups.*1 ->
    groupFor k (classify leaves fields groups).2 =
    groupFor k groups ++ providersFor k leaves.
Proof.
  induction leaves as [|[p|f] leaves IH]; intros fields groups Hsorted; simpl.
  - by rewrite app_nil_r.
  - rewrite IH by (by apply addProvider_sorted).
    rewrite addProvider_groupFor by done.
    destruct (decide (fd_id (fp_facet p) = k)) as [<-|Hne].
    + rewrite decide_True by done. by rewrite <- app_assoc.
    + by rewrite decide_False by done.
  - by apply IH.
Qed.

(** One step of the loop over the groups, for a group whose providers
    are all Static: the facet gets a static address and one value is
    appended to [staticValues]. *)
Lemma placeGroup_static (oldState : option EditorState) (l : Layout) (p0 : FacetProvider)
    (rest : list FacetProvider) :
  forallb (fun p => Provider_eqb (fp_type p) Static) (p0 :: rest) = true ->
  placeGroup oldState l (p0 :: rest) =
    Ok (MkLayout
          (<[fd_id (fp_facet p0) := js_or (js_shl (lengthZ (l_staticValues l)) 1) 1]>
             (l_address l))
          (l_staticValues l ++ [staticGroupValue oldState (fp_facet p0) (p0 :: rest)])
          (l_dynamicSlots l)).
Proof. intros Hstatic. unfold placeGroup. by rewrite Hstatic. Qed.

(** [Tabsize(2)] then [Tabsize(8)] resolve to [8]; resolving [Tabsize(2)]
    alone against that state gives [2]; an equal array of [Words] keeps the
    object of the previous state. *)
Example resolve_static_facets :
  Configuration_staticFacet
    (resolved (Configuration_resolve (ExtArray 103 [ExtProvider tab2; ExtProvider tab8]) None))
    TabsizeFacet = Ok (VNum 8) /\
  Configuration_staticFacet
    (resolved (Configuration_resolve (ExtProvider tab2) (Some tabOld)))
    TabsizeFacet = Ok (VNum 2) /\
  Configuration_staticFacet
    (resolved (Configuration_resolve (ExtProvider word2) (Some wordsOld)))
    (MkFacet (Some Words)) = Ok (VArr 799 [VNum 2]) /\
  Configuration_staticFacet
    (resolved (Configuration_resolve (ExtProvider word2) None))
    (MkFacet (Some Words)) = Ok (VArr 800 [VNum 2]).
Proof. repeat split; by vm_compute. Qed.

(** * Further properties of the engine *)

(** ** Field slots on the regular paths *)

(** The update function of a field slot.  Without a transaction it calls
    [create], stores the value and reports [Changed].  On a transaction
    that keeps the configuration it calls [update] with the start state's
    value at the slot's own index; on a reconfiguring one whose start
    configuration has an address for the field, with the value at the
    index of that address.  When the field's [compare] holds between the
    old and the new value the slot returns [0] and stores nothing;
    otherwise it stores the new value and reports [Changed].  An error of
    the callback is the error of the slot. *)
Theorem field_slot_regular (cb : Callbacks) (field : StateField) (idx : Z) :
  (forall w,
     fieldSlot_update cb field idx None w =
     match call_create cb (createF field) (snap w) with
     | Ok (v, s') =>
         Ok (Changed, MkWorld (setValue idx v s') (calls w ++ [CallCreate (createF field)]))
     | Throw e => Throw e
     | OutOfFuel => OutOfFuel
     end) /\
  (forall t w oldIdx,
     (reconfigured t = false /\ oldIdx = idx) \/
     (reconfigured t = true /\
      exists a, address (config (startState t)) !! sf_id field = Some a /\
                oldIdx = js_shr (Some a) 1) ->
     let oldVal := orUndef (values (startState t) !! oldIdx) in
     let log := calls w ++ [CallUpdate (updateF field) oldVal] in
     fieldSlot_update cb field idx (Some t) w =
     match call_update cb (updateF field) oldVal t (snap w) with
     | Ok (v, s') =>
         if compareF field oldVal v then Ok (0, MkWorld s' log)
         else Ok (Changed, MkWorld (setValue idx v s') log)
     | Throw e => Throw e
     | OutOfFuel => OutOfFuel
     end).
Proof.
  split.
  - intros w. unfold fieldSlot_update. run_monad_goal. simpl.
    by destruct (call_create cb _ (snap w)) as [[v s']| |].
  - intros t w oldIdx Hcase oldVal log. unfold fieldSlot_update.
    assert ((if reconfigured t
             then Some (js_shr (address (config (startState t)) !! sf_id field) 1)
             else Some idx) = Some oldIdx) as ->.
    { destruct Hcase as [[-> ->]|[-> (a & -> & ->)]]; done. }
    run_monad_goal. simpl. fold oldVal.
    destruct (call_update cb _ oldVal t (snap w)) as [[v s']| |]; try done.
    by destruct (compareF field oldVal v).
Qed.

Lemma field_slot_regular_witness :
  fieldSlot_update sampleCallbacks counter 0 (Some (mirrorEdit true))
    (MkWorld (editedState mirrorConfiguration mirrorStart true) [])
  = Ok (Changed,
        MkWorld (setValue 0 (VNum 1) (editedState mirrorConfiguration mirrorStart true))
          [CallUpdate 0%nat (VNum 0)]) /\
  fieldSlot_update sampleCallbacks counter 0 (Some (mirrorEdit false))
    (MkWorld (editedState mirrorConfiguration mirrorStart false) [])
  = Ok (0, MkWorld (editedState mirrorConfiguration mirrorStart false)
             [CallUpdate 0%nat (VNum 0)]).
Proof.
  split.
  - rewrite (proj2 (field_slot_regular sampleCallbacks counter 0) (mirrorEdit true)
               (MkWorld (editedState mirrorConfiguration mirrorStart true) []) 0);
      [reflexivity|by left].
  - rewrite (proj2 (field_slot_regular sampleCallbacks counter 0) (mirrorEdit false)
               (MkWorld (editedState mirrorConfiguration mirrorStart false) []) 0);
      [reflexivity|by left].
Defined.

(** ** Memoisation *)

Lemma or_computed_flag changed :
  changed = 0 \/ changed = Changed ->
  js_and (Some (js_or Computed changed)) Computed <> 0.
Proof. by intros [->| ->]. Qed.

Lemma ensureAddr_static cb fuel addr w :
  js_and addr 1 <> 0 -> ensureAddr cb fuel addr w = Ok (Computed, w).
Proof. intros Hbit. destruct fuel; simpl; by rewrite decide_False. Qed.

Lemma ensureAddr_cached cb fuel addr w s :
  js_and addr 1 = 0 ->
  status (snap w) !! js_shr addr 1 = Some s ->
  js_and (Some s) Computed <> 0 ->
  ensureAddr cb fuel addr w = Ok (s, w).
Proof.
  intros Hbit Hst Hcomputed.
  pose proof (computed_bit_not_computing s Hcomputed) as Hne.
  destruct fuel; simpl; rewrite decide_True, Hst by done;
    rewrite decide_False by congruence; by rewrite decide_False.
Qed.

(** What a successful [ensureAddr] leaves behind: the status returned has
    the [Computed] bit, and for a dynamic address it is the content of the
    status cell. *)
Lemma ensureAddr_result cb fuel addr w s w' :
  ensureAddr cb fuel addr w = Ok (s, w') ->
  js_and (Some s) Computed <> 0 /\
  (js_and addr 1 = 0 -> status (snap w') !! js_shr addr 1 = Some s).
Proof.
  intros Hrun. destruct (decide (js_and addr 1 = 0)) as [Hbit|Hbit].
  - assert (forall n, ensureAddr cb n addr w = Ok (s, w') ->
              js_and (Some s) Computed <> 0 /\ status (snap w') !! js_shr addr 1 = Some s)
      as Hcase; [|by destruct (Hcase fuel Hrun)].
    clear Hrun fuel. intros fuel Hrun.
    destruct fuel as [|fuel]; simpl in Hrun; rewrite decide_True in Hrun by done.
    + repeat case_decide; simplify_eq.
      destruct (status (snap w') !! js_shr addr 1) as [s'|] eqn:Hst; [done|].
      by exfalso.
    + case_decide as Hcomputing; [done|]. case_decide as Hfresh.
      * run_monad Hrun. simpl in Hrun.
        destruct (array_get _ _) as [slot|]; [|done].
        destruct (runSlot _ _ _ _ _) as [[changed w2]| |] eqn:Hslot; simplify_eq.
        split; [by eapply or_computed_flag, runSlot_flag|].
        simpl. apply lookup_insert_eq.
      * simplify_eq.
        destruct (status (snap w') !! js_shr addr 1) as [s'|] eqn:Hst; [done|].
        by exfalso.
  - rewrite ensureAddr_static in Hrun by done. by simplify_eq.
Qed.

(** [ensureAddr] is memoised: once it has returned for an address, calling
    it again on the resulting state returns the same status, whatever the
    fuel, and leaves the state and the log of callback calls as they
    are. *)
Theorem ensureAddr_memoised (cb : Callbacks) (fuel fuel' : nat) (addr : option Z)
    (w w' : World) (s : Z) :
  ensureAddr cb fuel addr w = Ok (s, w') ->
  ensureAddr cb fuel' addr w' = Ok (s, w').
Proof.
  intros Hrun. destruct (ensureAddr_result _ _ _ _ _ _ Hrun) as [Hcomputed Hcell].
  destruct (decide (js_and addr 1 = 0)) as [Hbit|Hbit].
  - apply ensureAddr_cached; auto.
  - rewrite ensureAddr_static in Hrun by done. simplify_eq.
    by apply ensureAddr_static.
Qed.

Lemma ensureAddr_memoised_witness :
  ensureAddr sampleCallbacks 0 (Some 0) (afterCounter true) = Ok (3, afterCounter true).
Proof.
  apply (ensureAddr_memoised sampleCallbacks 1 0 (Some 0)
           (MkWorld (editedState mirrorConfiguration mirrorStart true) [])).
  by vm_compute.
Defined.

(** ** Flattening: no repeats, nothing invented, nothing lost *)

Lemma ofTier_cons p q leaf l :
  ofTier p ((q, leaf) :: l) =
  if decide (q = p) then leaf :: ofTier p l else ofTier p l.
Proof. unfold ofTier. rewrite filter_cons. simpl. by case_decide. Qed.

(** The four tiers together are the walk, reordered. *)
Lemma tiers_permutation (l : list (Precedence * Leaf)) :
  ofTier Override l ++ ofTier Extend l ++ ofTier Default l ++ ofTier Fallback l
  ≡ₚ l.*2.
Proof.
  induction l as [|[q leaf] l IH]; [done|].
  rewrite !ofTier_cons. simpl. rewrite <- IH.
  destruct q; repeat (case_decide; try done); simpl.
  - rewrite !app_assoc. by rewrite <- Permutation_middle.
  - rewrite (app_assoc (ofTier Override l)).
    rewrite <- Permutation_middle. by rewrite <- app_assoc.
  - by rewrite <- Permutation_middle.
Qed.

Lemma flatten_permutation extension :
  flatten extension ≡ₚ (visit extension Default (∅, [])).2.*2.
Proof. rewrite flatten_tier_order. apply tiers_permutation. Qed.

Lemma walkInv_snoc visited l r tier leaf :
  leaf_ref leaf = r -> r ∉ visited ->
  walkInv (visited, l) -> walkInv ({[r]} ∪ visited, l ++ [(tier, leaf)]).
Proof.
  intros Href Hfresh [Hnd Hsub]. simpl in *. split; simpl.
  - rewrite !fmap_app. simpl. apply NoDup_app. split; [done|].
    split; [|apply NoDup_singleton].
    intros x Hx Hx'. apply list_elem_of_singleton in Hx'. subst x.
    apply list_elem_of_fmap in Hx as (y & Hy & Hin).
    apply list_elem_of_fmap in Hin as (z & -> & Hin).
    apply Hfresh. rewrite <- Href, Hy. by apply Hsub.
  - intros x [Hx|Hx]%elem_of_app.
    + apply elem_of_union_r. by apply Hsub.
    + apply list_elem_of_singleton in Hx. subst x. simpl. set_solver.
Qed.

Lemma walkInv_mark visited l r :
  walkInv (visited, l) -> walkInv ({[r]} ∪ visited, l).
Proof.
  intros [Hnd Hsub]. split; [done|]. intros x Hx. simpl.
  apply elem_of_union_r. by apply Hsub.
Qed.

Lemma visit_walkInv ext : forall tier acc, walkInv acc -> walkInv (visit ext tier acc).
Proof.
  induction ext as [p|r i c u cmp fs IH|r e p IH|r items IH]
    using Extension_tree_ind; intros tier [visited l] Hinv; rewrite visit_unfold;
    simpl; case_decide as Hseen; try done.
  - by apply walkInv_snoc.
  - apply IH. by apply walkInv_snoc.
  - apply IH. by apply walkInv_mark.
  - apply (walkInv_mark _ _ r) in Hinv. revert Hinv.
    generalize ({[r]} ∪ visited, l). clear Hseen.
    induction IH as [|e items He _ IHitems]; intros acc Hacc; simpl; [done|].
    apply IHitems, He, Hacc.
Qed.

(** No object is listed twice by [flatten]. *)
Theorem flatten_no_repeats (extension : Extension) :
  NoDup (leaf_ref <$> flatten extension).
Proof.
  rewrite flatten_permutation.
  apply (visit_walkInv extension Default (∅, [])).
  split; simpl; [constructor|]. intros x Hx. by apply elem_of_nil in Hx.
Qed.

Lemma tagged_unfold ext tier :
  tagged ext tier =
  match ext with
  | ExtProvider p => [(tier, LeafProvider p)]
  | ExtField f => (tier, LeafField f) :: tagged (facets f) tier
  | ExtPrec _ e p => tagged e p
  | ExtArray _ items => flat_map (fun e => tagged e tier) items
  end.
Proof. destruct ext as [p|[r i c u cmp fs]|r e p|r items]; reflexivity. Qed.

Lemma allRefs_unfold ext :
  allRefs ext =
  match ext with
  | ExtProvider p => [fp_ref p]
  | ExtField f => sf_ref f :: allRefs (facets f)
  | ExtPrec r e _ => r :: allRefs e
  | ExtArray r items => r :: flat_map allRefs items
  end.
Proof. destruct ext as [p|[r i c u cmp fs]|r e p|r items]; reflexivity. Qed.

Lemma allRefs_head ext : exists rest, allRefs ext = ref_of ext :: rest.
Proof. destruct ext as [p|[r i c u cmp fs]|r e p|r items]; simpl; eauto. Qed.

(** Every leaf the walk adds is a leaf of the tree. *)
Lemma visit_sound ext :
  forall tier acc x,
    x ∈ (visit ext tier acc).2 -> x ∈ acc.2 \/ x.2 ∈ (tagged ext tier).*2.
Proof.
  induction ext as [p|r i c u cmp fs IH|r e p IH|r items IH]
    using Extension_tree_ind; intros tier [visited l] x; rewrite visit_unfold;
    simpl; case_decide as Hseen; try tauto.
  - intros [Hx|Hx]%elem_of_app; [tauto|].
    apply list_elem_of_singleton in Hx. subst x. right. simpl. set_solver.
  - intros Hx. apply IH in Hx as [[Hx|Hx]%elem_of_app|Hx]; simpl; [tauto| |].
    + apply list_elem_of_singleton in Hx. subst x. right. simpl. set_solver.
    + right. set_solver.
  - intros Hx. by apply IH in Hx.
  - change l with ({[r]} ∪ visited, l).2 at 2.
    generalize ({[r]} ∪ visited, l). clear Hseen.
    induction IH as [|e items He _ IHitems]; intros acc; simpl; [tauto|].
    intros Hx. apply IHitems in Hx as [Hx|Hx].
    + apply He in Hx as [?|?]; [tauto|]. right. rewrite fmap_app. set_solver.
    + right. rewrite fmap_app. set_solver.
Qed.

(** [flatten] invents nothing: each of its leaves is a provider or a field
    of the tree. *)
Theorem flatten_sound (extension : Extension) (leaf : Leaf) :
  leaf ∈ flatten extension -> leaf ∈ (tagged extension Default).*2.
Proof.
  rewrite flatten_permutation. intros Hin.
  apply list_elem_of_fmap in Hin as (x & -> & Hx).
  apply visit_sound in Hx as [Hx|Hx]; [|done]. by apply elem_of_nil in Hx.
Qed.

Lemma flatten_sound_witness :
  LeafProvider tab8 ∈ (tagged (ExtArray 12 [ExtPrec 10 (ExtProvider tab2) Fallback;
                                            ExtPrec 11 (ExtProvider tab8) Override;
                                            ExtProvider tab5]) Default).*2.
Proof.
  apply flatten_sound.
  assert (flatten (ExtArray 12 [ExtPrec 10 (ExtProvider tab2) Fallback;
                                ExtPrec 11 (ExtProvider tab8) Override;
                                ExtProvider tab5])
          = [LeafProvider tab8; LeafProvider tab5; LeafProvider tab2]) as ->
    by (by vm_compute).
  set_solver.
Defined.

Lemma visit_items_fresh (items : list Extension) tier :
  Forall (fun e => forall tier acc,
            NoDup (allRefs e) -> (forall r, r ∈ allRefs e -> r ∉ acc.1) ->
            visit e tier acc = (list_to_set (allRefs e) ∪ acc.1, acc.2 ++ tagged e tier))
         items ->
  forall acc,
    NoDup (flat_map allRefs items) ->
    (forall r, r ∈ flat_map allRefs items -> r ∉ acc.1) ->
    foldl (fun acc e => visit e tier acc) acc items =
    (list_to_set (flat_map allRefs items) ∪ acc.1,
     acc.2 ++ flat_map (fun e => tagged e tier) items).
Proof.
  induction 1 as [|e items He _ IH]; intros [visited l] Hnd Hfresh; simpl in *.
  - rewrite app_nil_r. f_equal. set_solver.
  - apply NoDup_app in Hnd as (Hnd1 & Hdisj & Hnd2).
    rewrite He by (try done; intros r Hr; apply Hfresh; set_solver).
    rewrite IH; simpl.
    + rewrite <- app_assoc. f_equal. rewrite list_to_set_app_L. set_solver.
    + done.
    + intros r Hr. specialize (Hfresh r). specialize (Hdisj r). set_solver.
Qed.

(** On a tree whose objects are all distinct the walk skips nothing. *)
Lemma visit_fresh ext :
  forall tier acc,
    NoDup (allRefs ext) -> (forall r, r ∈ allRefs ext -> r ∉ acc.1) ->
    visit ext tier acc = (list_to_set (allRefs ext) ∪ acc.1, acc.2 ++ tagged ext tier).
Proof.
  induction ext as [p|r i c u cmp fs IH|r e p IH|r items IH]
    using Extension_tree_ind; intros tier [visited l] Hnd Hfresh;
    rewrite visit_unfold; simpl in *.
  - rewrite decide_False by (apply Hfresh; set_solver). f_equal. set_solver.
  - apply NoDup_cons in Hnd as [Hr Hnd].
    rewrite decide_False by (apply Hfresh; set_solver).
    rewrite IH; simpl; [|done|].
    + rewrite <- app_assoc. f_equal. set_solver.
    + intros r' Hr'. specialize (Hfresh r'). set_solver.
  - apply NoDup_cons in Hnd as [Hr Hnd].
    rewrite decide_False by (apply Hfresh; set_solver).
    rewrite IH; simpl; [|done|].
    + f_equal. set_solver.
    + intros r' Hr'. specialize (Hfresh r'). set_solver.
  - apply NoDup_cons in Hnd as [Hr Hnd].
    rewrite decide_False by (apply Hfresh; set_solver).
    rewrite (visit_items_fresh items tier IH); simpl; [|done|].
    + f_equal. set_solver.
    + intros r' Hr'. specialize (Hfresh r'). set_solver.
Qed.

Lemma tagged_untagged ext :
  forall tier, untagged ext = true -> Forall (fun x => x.1 = tier) (tagged ext tier).
Proof.
  induction ext as [p|r i c u cmp fs IH|r e p IH|r items IH]
    using Extension_tree_ind; intros tier Hun; simpl in *.
  - by repeat constructor.
  - constructor; [done|]. by apply IH.
  - done.
  - revert Hun.
    induction IH as [|e items He _ IHitems]; intros Hun; simpl in *; [constructor|].
    apply andb_true_iff in Hun as [Hun1 Hun2]. apply Forall_app. split.
    + by apply He.
    + by apply IHitems.
Qed.

Lemma ofTier_all p l : Forall (fun x => x.1 = p) l -> ofTier p l = l.*2.
Proof.
  induction 1 as [|[q leaf] l Hq _ IH]; [done|]. simpl in Hq. subst q.
  rewrite ofTier_cons, decide_True by done. simpl. by rewrite IH.
Qed.

Lemma ofTier_none p q l : p <> q -> Forall (fun x => x.1 = q) l -> ofTier p l = [].
Proof.
  intros Hne. induction 1 as [|[q' leaf] l Hq _ IH]; [done|]. simpl in Hq. subst q'.
  by rewrite ofTier_cons, decide_False by done.
Qed.

(** Without shared objects [flatten] loses no leaf: it lists all leaves of
    the tree, tier by tier, each tier in pre-order; a tree that also has no
    precedence wrapper flattens to its leaves in pre-order. *)
Theorem flatten_without_sharing (extension : Extension) :
  NoDup (allRefs extension) ->
  let leaves := tagged extension Default in
  flatten extension =
    ofTier Override leaves ++ ofTier Extend leaves
      ++ ofTier Default leaves ++ ofTier Fallback leaves /\
  (untagged extension = true -> flatten extension = leaves.*2).
Proof.
  intros Hnd leaves.
  assert (flatten extension =
          ofTier Override leaves ++ ofTier Extend leaves
            ++ ofTier Default leaves ++ ofTier Fallback leaves) as Hflat.
  { rewrite flatten_tier_order. unfold flatten_by_tier.
    rewrite visit_fresh; [done|done|]. intros r _. simpl. set_solver. }
  split; [done|]. intros Hun. rewrite Hflat.
  pose proof (tagged_untagged extension Default Hun) as Hall. fold leaves in Hall.
  rewrite (ofTier_all Default), !(ofTier_none _ Default) by done.
  simpl. by rewrite app_nil_r.
Qed.

Lemma flatten_without_sharing_witness :
  flatten (ExtArray 602 [ExtField counter; ExtProvider mirrorProvider]) =
  [LeafField counter; LeafProvider mirrorProvider].
Proof.
  apply (flatten_without_sharing
           (ExtArray 602 [ExtField counter; ExtProvider mirrorProvider])); [|done].
  simpl. repeat (constructor; [set_solver|]). constructor.
Defined.

(** ** Addresses and stored values *)

(** An address is [(index << 1) | staticBit].  For an index below [2^30]
    the index and the bit are read back from the address, so addresses of
    different slots differ; at [2^30] the shift leaves the 32-bit range and
    the index read back is negative. *)
Theorem address_round_trip :
  (forall i, 0 <= i < 2 ^ 30 ->
     js_shr (Some (js_shl i 1)) 1 = i /\ js_and (Some (js_shl i 1)) 1 = 0 /\
     js_shr (Some (js_or (js_shl i 1) 1)) 1 = i /\
     js_and (Some (js_or (js_shl i 1) 1)) 1 = 1) /\
  js_shr (Some (js_shl (2 ^ 30) 1)) 1 = - 2 ^ 30.
Proof.
  split; [|done]. intros i Hi.
  destruct (dynamic_address_index i) as [-> ->]; [lia|].
  by destruct (static_address_index i Hi) as [-> ->].
Qed.

Lemma address_round_trip_witness :
  js_shr (Some (js_shl 5 1)) 1 = 5 /\ js_and (Some (js_shl 5 1)) 1 = 0 /\
  js_shr (Some (js_or (js_shl 5 1) 1)) 1 = 5 /\
  js_and (Some (js_or (js_shl 5 1) 1)) 1 = 1.
Proof. apply (proj1 address_round_trip 5). lia. Defined.

(** [getAddr] after [state.values[i] = v]: the dynamic address of index
    [i] reads [v]; every other read, and every static read, is as
    before. *)
Theorem getAddr_after_store (state : EditorState) (i : Z) (v : value) :
  (forall addr,
     getAddr (setValue i v state) addr =
     if decide (js_and addr 1 = 0 /\ js_shr addr 1 = i) then v
     else getAddr state addr) /\
  (- 2 ^ 30 <= i < 2 ^ 30 -> getAddr (setValue i v state) (Some (js_shl i 1)) = v).
Proof.
  assert (forall addr,
            getAddr (setValue i v state) addr =
            if decide (js_and addr 1 = 0 /\ js_shr addr 1 = i) then v
            else getAddr state addr) as Hget.
  { intros addr. unfold getAddr. simpl.
    destruct (decide (js_and addr 1 = 0)) as [Hbit|Hbit].
    - destruct (decide (js_shr addr 1 = i)) as [->|Hne].
      + rewrite decide_True by done. by rewrite lookup_insert_eq.
      + rewrite decide_False by tauto. by rewrite lookup_insert_ne.
    - by rewrite decide_False by tauto. }
  split; [done|]. intros Hi. rewrite Hget.
  destruct (dynamic_address_index i Hi) as [Hidx Hbit].
  by rewrite decide_True.
Qed.

Lemma getAddr_after_store_witness :
  getAddr (setValue 1 (VNum 7) mirrorStart) (Some (js_shl 1 1)) = VNum 7.
Proof. apply (proj2 (getAddr_after_store mirrorStart 1 (VNum 7))). lia. Defined.

(** ** Resolving dependencies *)

Lemma scanDependencies_good (addresses : gmap nat Z) (deps : list Slot) :
  Forall hasData deps ->
  forall depDoc depSel depAddrs,
    scanDependencies addresses deps depDoc depSel depAddrs =
    Ok (depDoc || existsb isDoc deps, depSel || existsb isSelection deps,
        depAddrs ++ filter (fun a => js_and a 1 = 0)
                      ((fun id => addresses !! id) <$> omap slotId deps)).
Proof.
  induction 1 as [|dep deps Hdep _ IH]; intros depDoc depSel depAddrs; simpl.
  - by rewrite !orb_false_r, app_nil_r.
  - destruct dep as [[[d|]]|f| |]; simpl in *.
    + rewrite IH. rewrite filter_cons. case_decide; [|done].
      by rewrite <- app_assoc.
    + by destruct Hdep.
    + rewrite IH. rewrite filter_cons. case_decide; [|done].
      by rewrite <- app_assoc.
    + rewrite IH. by rewrite orb_true_r.
    + rewrite IH. by rewrite orb_true_r.
Qed.

Lemma scanDependencies_bad (addresses : gmap nat Z) (deps : list Slot) :
  ~ Forall hasData deps ->
  forall depDoc depSel depAddrs,
    scanDependencies addresses deps depDoc depSel depAddrs = Throw NoFacetData.
Proof.
  induction deps as [|dep deps IH]; intros Hbad depDoc depSel depAddrs.
  - exfalso. apply Hbad. constructor.
  - destruct dep as [[[d|]]|f| |]; simpl; try done;
      apply IH; intros Hall; apply Hbad; (constructor; [simpl; eauto|done]).
Qed.

(** The dependency loop of [dynamicSlot].  When every facet dependency
    carries its data, the flags tell whether "doc" and "selection" occur,
    and the addresses are those of the other dependencies, in order,
    without the static ones; a dependency without an address stays, as
    [undefined].  A facet dependency without data makes the loop throw. *)
Theorem scanDependencies_spec (addresses : gmap nat Z) (deps : list Slot) :
  (Forall hasData deps ->
   forall depDoc depSel depAddrs,
     scanDependencies addresses deps depDoc depSel depAddrs =
     Ok (depDoc || existsb isDoc deps, depSel || existsb isSelection deps,
         depAddrs ++ filter (fun a => js_and a 1 = 0)
                       ((fun id => addresses !! id) <$> omap slotId deps))) /\
  (~ Forall hasData deps ->
   forall depDoc depSel depAddrs,
     scanDependencies addresses deps depDoc depSel depAddrs = Throw NoFacetData).
Proof. split; [apply scanDependencies_good|apply scanDependencies_bad]. Qed.

Lemma scanDependencies_spec_witness :
  scanDependencies (address mirrorConfiguration)
    [SlotDoc; SlotField counter; SlotFacet TabsizeFacet; SlotFacet MirrorFacet] false false []
  = Ok (true, false, [Some 0; None; Some 4]) /\
  scanDependencies (address mirrorConfiguration)
    [SlotField counter; SlotFacet (MkFacet None)] false false []
  = Throw NoFacetData.
Proof.
  split.
  - rewrite (proj1 (scanDependencies_spec (address mirrorConfiguration) _));
      [by vm_compute|].
    repeat constructor; by eexists.
  - apply (proj2 (scanDependencies_spec (address mirrorConfiguration) _)).
    intros Hall. apply Forall_cons in Hall as [_ Hall].
    apply Forall_cons in Hall as [[? Hnone] _]. discriminate Hnone.
Defined.

(** A dependency that has no address in the configuration is kept as
    [undefined] among the addresses the provider slot forces, and
    [ensureAddr] on [undefined] is [ensureAddr] on the address [0]: the
    first dynamic slot stands in for the missing dependency. *)
Theorem missing_dependency_forces_first_slot (cb : Callbacks) (p : FacetProvider)
    (f : StateField) (addresses : gmap nat Z) :
  fp_dependencies p = [SlotField f] ->
  addresses !! sf_id f = None ->
  FacetProvider_dynamicSlot p addresses =
    Ok (ProviderSlot (fp_value p) (compareInput (fp_facet p))
          (js_shr (addresses !! fp_id p) 1) false false [None]) /\
  (forall fuel w, ensureAddr cb fuel None w = ensureAddr cb fuel (Some 0) w).
Proof.
  intros Hdeps Hnone. split; [|by intros []].
  unfold FacetProvider_dynamicSlot. rewrite Hdeps. simpl. by rewrite Hnone.
Qed.

Lemma missing_dependency_forces_first_slot_witness :
  FacetProvider_dynamicSlot mirrorProvider ∅ =
    Ok (ProviderSlot (VFun 3%nat) numEq 0 false false [None]) /\
  ensureAddr sampleCallbacks 1 None (MkWorld (firstState counterConfiguration) [])
  = ensureAddr sampleCallbacks 1 (Some 0) (MkWorld (firstState counterConfiguration) []).
Proof.
  destruct (missing_dependency_forces_first_slot sampleCallbacks mirrorProvider counter ∅
              eq_refl (lookup_empty _)) as [Hslot Hforce].
  split; [exact Hslot|apply Hforce].
Defined.

(** ** Gathering the inputs of [combine] *)

Lemma gather_not_array state (tys : list Provider) :
  forall addrs pre acc i addr,
    tys !! i = Some Multi -> addrs !! i = Some addr ->
    contribution state Multi addr = None ->
    gather state (pre ++ tys) addrs (length pre) acc = Throw TypeError.
Proof.
  revert tys. intros tys addrs. revert tys.
  induction addrs as [|a addrs IH]; intros tys pre acc i addr Hty Haddr Hnone;
    [done|].
  destruct tys as [|ty tys]; [done|]. simpl.
  rewrite list_lookup_middle by done.
  destruct i as [|i]; simpl in Hty, Haddr; simplify_eq.
  - unfold contribution in Hnone. by destruct (getAddr state addr).
  - specialize (IH tys (pre ++ [ty])).
    rewrite <- app_assoc, length_app, Nat.add_1_r in IH. simpl in IH.
    destruct ty; try (by eapply IH).
    destruct (getAddr state a); try done. by eapply IH.
Qed.

(** The combine slot iterates over the value of a Multi provider: when the
    values of all Multi members are arrays the inputs are the members'
    contributions in order; when the value of one Multi member is not an
    array, as for a slot without a stored value, gathering throws a
    [TypeError]. *)
Theorem gather_needs_arrays (state : EditorState) (tys : list Provider)
    (addrs : list (option Z)) :
  (forall parts,
     Forall3 (fun ty addr part => contribution state ty addr = Some part) tys addrs parts ->
     gather state tys addrs 0 [] = Ok (concat parts)) /\
  (forall i addr,
     tys !! i = Some Multi -> addrs !! i = Some addr ->
     (forall r items, getAddr state addr <> VArr r items) ->
     gather state tys addrs 0 [] = Throw TypeError).
Proof.
  split; [apply gather_contributions|].
  intros i addr Hty Haddr Hnot.
  apply (gather_not_array state tys addrs [] [] i addr Hty Haddr).
  unfold contribution. destruct (getAddr state addr) eqn:Hv; try done.
  by destruct (Hnot ref items).
Qed.

Lemma gather_needs_arrays_witness :
  gather (snap collectProvided) [Multi; Single] [Some 0; Some 2] 0 []
    = Ok [VNum 1; VNum 2; VNum 3] /\
  gather (firstState collectConfiguration) [Multi; Single] [Some 0; Some 2] 0 []
    = Throw TypeError.
Proof.
  destruct (gather_needs_arrays (snap collectProvided) [Multi; Single] [Some 0; Some 2])
    as [Hok _].
  destruct (gather_needs_arrays (firstState collectConfiguration) [Multi; Single]
              [Some 0; Some 2]) as [_ Hfail].
  split.
  - apply (Hok [[VNum 1; VNum 2]; [VNum 3]]). repeat constructor.
  - apply (Hfail 0%nat (Some 0)); [done|done|]. by intros r items.
Defined.

(** ** Fields that provide facets *)

Lemma flatten_fresh extension :
  NoDup (allRefs extension) ->
  flatten extension =
  ofTier Override (tagged extension Default) ++ ofTier Extend (tagged extension Default)
    ++ ofTier Default (tagged extension Default)
    ++ ofTier Fallback (tagged extension Default).
Proof.
  intros Hnd. rewrite flatten_tier_order. unfold flatten_by_tier.
  rewrite visit_fresh; [done|done|]. intros r _. simpl. set_solver.
Qed.

(** [provide] and [provideN] on a field made by [define].  On a static
    facet both throw, as [computedFacet] does.  Otherwise the new field
    keeps the id of the old one and carries one provider of the facet, of
    kind Single for [provide] and Multi for [provideN], that depends on the
    old field.  Flattening the new field lists the field and the provider:
    the provider first when it was given the precedence Override or
    Extend, the field first otherwise. *)
Theorem field_provide (facet : Facet) (data : FacetData) (create update getter : Closure)
    (compare : option (value -> value -> bool)) (prec : option Precedence)
    (ref0 arrayRef0 id0 providerRef precRef fieldRef arrayRef nextID : nat) :
  _data facet = Some data ->
  let this := (StateField_define create update compare ref0 arrayRef0 id0).1 in
  (isStatic data = true ->
     StateField_provide this facet getter prec providerRef precRef fieldRef arrayRef nextID
       = Throw ComputeStatic /\
     StateField_provideN this facet getter prec providerRef precRef fieldRef arrayRef nextID
       = Throw ComputeStatic) /\
  (isStatic data = false ->
   NoDup [fieldRef; arrayRef; precRef; providerRef] ->
   forall kind provide,
     (kind = Single /\ provide = StateField_provide) \/
     (kind = Multi /\ provide = StateField_provideN) ->
     let p := MkFacetProvider providerRef nextID [SlotField this] data kind (VFun getter) in
     exists field,
       provide this facet getter prec providerRef precRef fieldRef arrayRef nextID
         = Ok (field, S nextID) /\
       sf_id field = id0 /\ createF field = create /\ updateF field = update /\
       flatten (ExtField field) =
         if providedFirst prec then [LeafProvider p; LeafField field]
         else [LeafField field; LeafProvider p]).
Proof.
  intros Hdata this. split.
  - intros Hstatic.
    unfold StateField_provide, StateField_provideN, computedFacet, computedFacetN,
      FacetData_get.
    by rewrite Hdata; simpl; rewrite Hstatic.
  - intros Hdynamic Hnd kind provide Hkind p.
    apply NoDup_cons in Hnd as [H1 Hnd]. apply NoDup_cons in Hnd as [H2 Hnd].
    apply NoDup_cons in Hnd as [H3 _].
    eexists. split; [|split; [|split; [|split]]].
    + destruct Hkind as [[-> ->]|[-> ->]];
        unfold StateField_provide, StateField_provideN, computedFacet, computedFacetN,
          FacetData_get; rewrite Hdata; simpl; rewrite Hdynamic; simpl; reflexivity.
    + done.
    + done.
    + done.
    + rewrite flatten_fresh.
      * destruct prec as [[]|]; reflexivity.
      * destruct prec as [q|]; simpl;
          repeat (constructor; [set_solver|]); constructor.
Qed.

Lemma field_provide_witness :
  exists field,
    StateField_provide (StateField_define 0%nat 0%nat None 900 901 60).1 MirrorFacet 3%nat
      (Some Override) 902 903 904 905 61 = Ok (field, 62%nat) /\
    sf_id field = 60%nat /\
    flatten (ExtField field) =
      [LeafProvider (MkFacetProvider 902 61
                       [SlotField (StateField_define 0%nat 0%nat None 900 901 60).1]
                       Mirror Single (VFun 3%nat));
       LeafField field].
Proof.
  destruct (proj2 (field_provide MirrorFacet Mirror 0%nat 0%nat 3%nat None (Some Override)
                     900 901 60 902 903 904 905 61 eq_refl) eq_refl)
    with (kind := Single) (provide := StateField_provide)
    as (field & Hprovide & Hid & _ & _ & Hflat).
  - repeat (constructor; [set_solver|]). constructor.
  - by left.
  - exists field. by repeat split.
Defined.

(** ** Resolving a facet with static providers only *)

Lemma classify_one_group (k : nat) (ps : list FacetProvider) :
  Forall (fun p => fd_id (fp_facet p) = k) ps ->
  forall fields qs,
    classify (LeafProvider <$> ps) fields [(k, qs)] = (fields, [(k, qs ++ ps)]).
Proof.
  induction 1 as [|p ps Hp _ IH]; intros fields qs; simpl.
  - by rewrite app_nil_r.
  - rewrite Hp, decide_True by done. rewrite IH. by rewrite <- app_assoc.
Qed.

Lemma tagged_providers (ps : list FacetProvider) tier :
  flat_map (fun e => tagged e tier) (ExtProvider <$> ps) =
  (fun p => (tier, LeafProvider p)) <$> ps.
Proof. induction ps as [|p ps IH]; [done|]. cbn. by f_equal. Qed.

Lemma allRefs_providers (ps : list FacetProvider) :
  flat_map allRefs (ExtProvider <$> ps) = fp_ref <$> ps.
Proof. induction ps as [|p ps IH]; [done|]. cbn. by f_equal. Qed.

Lemma untagged_providers (ps : list FacetProvider) :
  forallb untagged (ExtProvider <$> ps) = true.
Proof. by induction ps. Qed.

Lemma flatten_providers r (ps : list FacetProvider) :
  NoDup (r :: (fp_ref <$> ps)) ->
  flatten (ExtArray r (ExtProvider <$> ps)) = LeafProvider <$> ps.
Proof.
  intros Hnd. rewrite flatten_fresh by (simpl; by rewrite allRefs_providers).
  simpl. rewrite tagged_providers.
  assert (Forall (fun x : Precedence * Leaf => x.1 = Default)
            ((fun p => (Default, LeafProvider p)) <$> ps)) as Hall.
  { apply Forall_fmap, Forall_forall. by intros p _. }
  rewrite (ofTier_all Default), !(ofTier_none _ Default) by done.
  simpl. rewrite app_nil_r, <- list_fmap_compose. done.
Qed.

(** A facet fed only by static providers of distinct identity, composed
    in one array: [resolve] without a previous state gives a configuration
    without dynamic slot whose single static value is [combine] of the
    provided values in array order, and [staticFacet] returns it. *)
Theorem resolve_static_facet (data : FacetData) (r : nat) (p0 : FacetProvider)
    (rest : list FacetProvider) :
  let ps := p0 :: rest in
  Forall (fun p => fp_facet p = data /\ fp_type p = Static) ps ->
  NoDup (r :: (fp_ref <$> ps)) ->
  let c := Configuration_new [] {[fd_id data := 1]} [combine data (fp_value <$> ps)] in
  Configuration_resolve (ExtArray r (ExtProvider <$> ps)) None = Ok c /\
  Configuration_staticFacet c (MkFacet (Some data)) = Ok (combine data (fp_value <$> ps)).
Proof.
  intros ps Hall Hnd c. split.
  2: { unfold Configuration_staticFacet, FacetData_get. simpl.
       by rewrite lookup_singleton_eq. }
  unfold Configuration_resolve. rewrite flatten_providers by done.
  assert (classify (LeafProvider <$> ps) [] [] = ([], [(fd_id data, ps)])) as ->.
  { pose proof (Forall_inv Hall) as [Hp0 _]. simpl. rewrite Hp0.
    rewrite (classify_one_group (fd_id data) rest); [done|].
    apply Forall_inv_tail in Hall. eapply Forall_impl; [exact Hall|].
    by intros p [-> _]. }
  simpl.
  assert (forallb (fun p => Provider_eqb (fp_type p) Static) rest = true) as Hrest.
  { apply Forall_inv_tail in Hall. apply forallb_forall. intros p Hp.
    apply list_elem_of_In in Hp. rewrite Forall_forall in Hall.
    destruct (Hall p Hp) as [_ ->]. done. }
  pose proof (Forall_inv Hall) as [Hp0 Ht0]. rewrite Ht0, Hp0. simpl.
  rewrite Hrest. simpl. unfold staticGroupValue. simpl.
  unfold c. by rewrite insert_empty.
Qed.

Lemma resolve_static_facet_witness :
  Configuration_resolve (ExtArray 103 (ExtProvider <$> [tab2; tab8])) None =
    Ok (Configuration_new [] {[0%nat := 1]} [VNum 8]) /\
  Configuration_staticFacet (Configuration_new [] {[0%nat := 1]} [VNum 8]) TabsizeFacet
    = Ok (VNum 8).
Proof.
  apply (resolve_static_facet Tabsize 103 tab2 [tab8]).
  - by repeat constructor.
  - repeat (constructor; [set_solver|]). constructor.
Defined.

(** ** When [resolve] throws *)

Lemma makeSlot_outcome addresses m :
  (Forall (fun p => Forall hasData (fp_dependencies p)) (makerProviders m) ->
   exists slot, makeSlot addresses m = Ok slot) /\
  (~ Forall (fun p => Forall hasData (fp_dependencies p)) (makerProviders m) ->
   makeSlot addresses m = Throw NoFacetData).
Proof.
  destruct m as [field|p|facet providers]; simpl.
  - split; [eauto|]. intros Hbad. destruct Hbad. constructor.
  - unfold FacetProvider_dynamicSlot. split.
    + intros Hgood%Forall_inv. rewrite scanDependencies_good by done. simpl. eauto.
    + intros Hbad. rewrite scanDependencies_bad; [done|].
      intros Hgood. apply Hbad. by repeat constructor.
  - split; [eauto|]. intros Hbad. destruct Hbad. constructor.
Qed.

Lemma mapResult_makeSlot addresses (makers : list SlotMaker) :
  (Forall (fun p => Forall hasData (fp_dependencies p)) (flat_map makerProviders makers) ->
   exists slots, mapResult (makeSlot addresses) makers = Ok slots /\
                 length slots = length makers) /\
  (~ Forall (fun p => Forall hasData (fp_dependencies p)) (flat_map makerProviders makers) ->
   mapResult (makeSlot addresses) makers = Throw NoFacetData).
Proof.
  induction makers as [|m makers [IHgood IHbad]]; simpl.
  - split; [by exists []|]. intros Hbad. destruct Hbad. constructor.
  - destruct (makeSlot_outcome addresses m) as [Hgood Hbad].
    destruct (decide (Forall (fun p => Forall hasData (fp_dependencies p))
                        (makerProviders m))) as [Hm|Hm].
    + destruct (Hgood Hm) as [slot ->]. simpl. split.
      * intros [_ Hrest]%Forall_app. destruct (IHgood Hrest) as (slots & -> & Hlen).
        simpl. exists (slot :: slots). split; [done|]. simpl. by rewrite Hlen.
      * intros Hnot. rewrite IHbad; [done|]. intros Hrest. apply Hnot.
        by apply Forall_app.
    + rewrite (Hbad Hm). simpl. split; [|done].
      intros [? _]%Forall_app. done.
Qed.

Lemma addProvider_members id p groups q :
  q ∈ flat_map snd (addProvider id p groups) <-> q = p \/ q ∈ flat_map snd groups.
Proof.
  induction groups as [|[k ps] groups IH]; simpl.
  - set_solver.
  - repeat case_decide; simpl; set_solver.
Qed.

Lemma classify_members leaves q :
  forall fields groups,
    q ∈ flat_map snd (classify leaves fields groups).2 <->
    LeafProvider q ∈ leaves \/ q ∈ flat_map snd groups.
Proof.
  induction leaves as [|[p|f] leaves IH]; intros fields groups; simpl.
  - set_solver.
  - rewrite IH, addProvider_members. set_solver.
  - rewrite IH. set_solver.
Qed.

Lemma addProvider_nonempty id p groups :
  Forall (fun g => g.2 <> []) groups ->
  Forall (fun g : nat * list FacetProvider => g.2 <> []) (addProvider id p groups).
Proof.
  induction 1 as [|[k ps] groups Hg Hall IH]; simpl.
  - by repeat constructor.
  - repeat case_decide; repeat constructor; simpl in *; try done.
    by destruct ps.
Qed.

Lemma classify_nonempty leaves :
  forall fields groups,
    Forall (fun g => g.2 <> []) groups ->
    Forall (fun g : nat * list FacetProvider => g.2 <> [])
      (classify leaves fields groups).2.
Proof.
  induction leaves as [|[p|f] leaves IH]; intros fields groups Hall; simpl; [done| |].
  - by apply IH, addProvider_nonempty.
  - by apply IH.
Qed.

Lemma type_not_static p : Provider_eqb (fp_type p) Static = false <-> fp_type p <> Static.
Proof. by destruct (fp_type p). Qed.

Lemma placeProviders_slots ps :
  forall l q,
    q ∈ slotProviders (foldl placeProvider l ps) <->
    q ∈ slotProviders l \/ (q ∈ ps /\ fp_type q <> Static).
Proof.
  induction ps as [|p ps IH]; intros l q; simpl.
  - set_solver.
  - rewrite IH. unfold placeProvider.
    destruct (Provider_eqb (fp_type p) Static) eqn:Htype; unfold slotProviders; simpl.
    + assert (fp_type p = Static) as Hst by (by destruct (fp_type p)).
      split; [set_solver|]. intros [?|[Hq ?]]; [tauto|].
      apply elem_of_cons in Hq as [->|?]; [done|tauto].
    + apply type_not_static in Htype. rewrite flat_map_app. simpl.
      rewrite elem_of_app, list_elem_of_singleton, elem_of_cons.
      split; [intros [[?| ->]|[? ?]]; tauto|].
      intros [?|[[ ->|?] ?]]; tauto.
Qed.

Lemma placeGroup_slots oldState l ps :
  ps <> [] ->
  exists l',
    placeGroup oldState l ps = Ok l' /\
    forall q, q ∈ slotProviders l' <->
              q ∈ slotProviders l \/ (q ∈ ps /\ fp_type q <> Static).
Proof.
  intros Hne. destruct ps as [|p0 rest]; [done|]. unfold placeGroup.
  destruct (forallb _ (p0 :: rest)) eqn:Hall.
  - eexists. split; [done|]. intros q. unfold slotProviders at 1. simpl.
    fold (slotProviders l). split; [tauto|]. intros [?|[Hq Htype]]; [done|].
    exfalso. rewrite forallb_forall in Hall. apply list_elem_of_In in Hq.
    specialize (Hall _ Hq). by destruct (fp_type q).
  - eexists. split; [done|]. intros q. unfold slotProviders at 1. simpl.
    rewrite flat_map_app. simpl. rewrite app_nil_r.
    apply (placeProviders_slots (p0 :: rest) l q).
Qed.

Lemma placeGroups_slots oldState groups :
  Forall (fun g => g.2 <> []) groups ->
  forall l,
    exists l',
      placeGroups oldState l groups = Ok l' /\
      forall q, q ∈ slotProviders l' <->
                q ∈ slotProviders l \/ (q ∈ flat_map snd groups /\ fp_type q <> Static).
Proof.
  induction 1 as [|[k ps] groups Hg _ IH]; intros l; simpl.
  - exists l. split; [done|]. set_solver.
  - destruct (placeGroup_slots oldState l ps Hg) as (l1 & -> & Hl1). simpl.
    destruct (IH l1) as (l' & -> & Hl'). exists l'. split; [done|].
    intros q. rewrite Hl', Hl1, elem_of_app. tauto.
Qed.

Lemma placeFields_slots fields :
  forall l, slotProviders (foldl placeField l fields) = slotProviders l.
Proof.
  induction fields as [|f fields IH]; intros l; simpl; [done|].
  rewrite IH. unfold slotProviders. simpl. rewrite flat_map_app. simpl.
  by rewrite app_nil_r.
Qed.

(** The errors of [resolve] itself, the facets' [combine] and [compare]
    being functions that return.  [resolve] throws exactly when the
    flattened tree holds a computed provider one of whose dependencies is a
    function without facet data, and then the error is the missing-data
    error; otherwise it returns a configuration. *)
Theorem resolve_outcome (extension : Extension) (oldState : option EditorState) :
  ((exists p, brokenProvider extension p) ->
   Configuration_resolve extension oldState = Throw NoFacetData) /\
  ((forall p, ~ brokenProvider extension p) ->
   exists c, Configuration_resolve extension oldState = Ok c).
Proof.
  unfold Configuration_resolve, brokenProvider.
  destruct (classify (flatten extension) [] []) as [fields groups] eqn:Hclass.
  assert (Forall (fun g : nat * list FacetProvider => g.2 <> []) groups) as Hne.
  { pose proof (classify_nonempty (flatten extension) [] []) as H.
    rewrite Hclass in H. apply H. constructor. }
  destruct (placeGroups_slots oldState groups Hne (foldl placeField (MkLayout ∅ [] []) fields))
    as (l & -> & Hslots). simpl.
  assert (forall q, q ∈ slotProviders l <->
                    LeafProvider q ∈ flatten extension /\ fp_type q <> Static) as Hmem.
  { intros q. rewrite Hslots, placeFields_slots.
    pose proof (classify_members (flatten extension) q [] []) as Hq.
    rewrite Hclass in Hq. simpl in Hq. unfold slotProviders. simpl. set_solver. }
  destruct (mapResult_makeSlot (l_address l) (l_dynamicSlots l)) as [Hgood Hbad].
  split.
  - intros (p & Hleaf & Htype & Hdeps). rewrite Hbad; [done|].
    intros Hall. apply Hdeps. rewrite Forall_forall in Hall. apply Hall.
    apply Hmem. by split.
  - intros Hnone. destruct Hgood as (slots & -> & _); [|simpl; eauto].
    apply Forall_forall. intros p [Hleaf Htype]%Hmem.
    destruct (decide (Forall hasData (fp_dependencies p))) as [?|Hdeps]; [done|].
    by destruct (Hnone p).
Qed.

Lemma resolve_outcome_witness :
  Configuration_resolve (ExtArray 611 [ExtField counter; ExtProvider brokenMirror]) None
    = Throw NoFacetData /\
  (exists c, Configuration_resolve mirrorExtension None = Ok c).
Proof.
  split.
  - apply (proj1 (resolve_outcome _ None)). exists brokenMirror.
    split; [|split; [done|]].
    + assert (flatten (ExtArray 611 [ExtField counter; ExtProvider brokenMirror])
              = [LeafField counter; LeafProvider brokenMirror]) as -> by (by vm_compute).
      set_solver.
    + intros [[? Hnone] _]%Forall_cons. discriminate Hnone.
  - apply (proj2 (resolve_outcome mirrorExtension None)).
    assert (flatten mirrorExtension = [LeafField counter; LeafProvider mirrorProvider])
      as Hflat by (by vm_compute).
    intros p (Hleaf & _ & Hdeps). apply Hdeps. rewrite Hflat in Hleaf.
    apply elem_of_cons in Hleaf as [?|Hleaf]; [done|].
    apply list_elem_of_singleton in Hleaf. simplify_eq. by repeat constructor.
Defined.

(** ** The addresses of a resolved configuration *)

Lemma addressInRange_mono s d s' d' a :
  s <= s' -> d <= d' -> addressInRange s d a -> addressInRange s' d' a.
Proof. unfold addressInRange. intros ? ? [[? ?]|[? ?]]; [left|right]; split; lia. Qed.

Lemma new_static_address n d :
  0 <= n < 2 ^ 30 -> addressInRange (n + 1) d (js_or (js_shl n 1) 1).
Proof.
  intros Hn. destruct (static_address_index n Hn) as [Hidx Hbit].
  left. rewrite Hidx, Hbit. lia.
Qed.

Lemma new_dynamic_address n s :
  0 <= n < 2 ^ 30 -> addressInRange s (n + 1) (js_shl n 1).
Proof.
  intros Hn. destruct (dynamic_address_index n) as [Hidx Hbit]; [lia|].
  right. rewrite Hidx, Hbit. lia.
Qed.

Lemma lengthZ_snoc {A} (l : list A) x : lengthZ (l ++ [x]) = lengthZ l + 1.
Proof. unfold lengthZ. rewrite length_app. simpl. lia. Qed.

Lemma lengthZ_nonneg {A} (l : list A) : 0 <= lengthZ l.
Proof. unfold lengthZ. lia. Qed.

Lemma grows_refl l : grows l l.
Proof. unfold grows. lia. Qed.

Lemma grows_trans l1 l2 l3 : grows l1 l2 -> grows l2 l3 -> grows l1 l3.
Proof. unfold grows. lia. Qed.

Lemma withinBounds_grows l l' : grows l l' -> withinBounds l' -> withinBounds l.
Proof. unfold grows, withinBounds. lia. Qed.

Lemma layoutOk_insert l id a statics dynamics :
  layoutOk l ->
  lengthZ (l_staticValues l) <= lengthZ statics ->
  lengthZ (l_dynamicSlots l) <= lengthZ dynamics ->
  addressInRange (lengthZ statics) (lengthZ dynamics) a ->
  layoutOk (MkLayout (<[id := a]> (l_address l)) statics dynamics).
Proof.
  intros Hok Hs Hd Ha id' a'. simpl. rewrite lookup_insert.
  case_decide; [by intros [= <-]|].
  intros Hlook. eapply addressInRange_mono; [exact Hs|exact Hd|by eapply Hok].
Qed.

Lemma placeField_ok l f : layoutOk l -> withinBounds l -> layoutOk (placeField l f).
Proof.
  intros Hok [Hs Hd]. unfold placeField. apply layoutOk_insert; [done|lia| |].
  - rewrite lengthZ_snoc. lia.
  - rewrite lengthZ_snoc. apply new_dynamic_address.
    pose proof (lengthZ_nonneg (l_dynamicSlots l)). lia.
Qed.

Lemma placeField_grows l f : grows l (placeField l f).
Proof. unfold grows, placeField. simpl. rewrite lengthZ_snoc. lia. Qed.

Lemma placeProvider_ok l p : layoutOk l -> withinBounds l -> layoutOk (placeProvider l p).
Proof.
  intros Hok [Hs Hd]. unfold placeProvider.
  destruct (Provider_eqb (fp_type p) Static); apply layoutOk_insert; try done;
    rewrite ?lengthZ_snoc; try lia.
  - apply new_static_address. pose proof (lengthZ_nonneg (l_staticValues l)). lia.
  - apply new_dynamic_address. pose proof (lengthZ_nonneg (l_dynamicSlots l)). lia.
Qed.

Lemma placeProvider_grows l p : grows l (placeProvider l p).
Proof.
  unfold grows, placeProvider.
  destruct (Provider_eqb (fp_type p) Static); simpl; rewrite lengthZ_snoc; lia.
Qed.

Lemma foldl_grows {A} (step : Layout -> A -> Layout) (xs : list A) :
  (forall l x, grows l (step l x)) -> forall l, grows l (foldl step l xs).
Proof.
  intros Hstep. induction xs as [|x xs IH]; intros l; simpl; [apply grows_refl|].
  eapply grows_trans; [apply Hstep|apply IH].
Qed.

Lemma foldl_ok {A} (step : Layout -> A -> Layout) (xs : list A) :
  (forall l x, grows l (step l x)) ->
  (forall l x, layoutOk l -> withinBounds l -> layoutOk (step l x)) ->
  forall l, layoutOk l -> withinBounds (foldl step l xs) -> layoutOk (foldl step l xs).
Proof.
  intros Hgrows Hstep. induction xs as [|x xs IH]; intros l Hok Hb; simpl in *; [done|].
  apply IH; [|done]. apply Hstep; [done|].
  eapply withinBounds_grows; [|exact Hb].
  eapply grows_trans; [apply Hgrows|by apply foldl_grows].
Qed.

Lemma placeGroup_grows oldState l ps l' :
  placeGroup oldState l ps = Ok l' -> grows l l'.
Proof.
  unfold placeGroup. destruct ps as [|p0 rest]; [done|].
  destruct (forallb _ _); intros [= <-]; unfold grows; simpl.
  - rewrite lengthZ_snoc. lia.
  - rewrite lengthZ_snoc.
    pose proof (foldl_grows placeProvider (p0 :: rest) placeProvider_grows l) as [? ?].
    simpl in *. lia.
Qed.

Lemma placeGroup_ok oldState l ps l' :
  placeGroup oldState l ps = Ok l' -> layoutOk l -> withinBounds l' -> layoutOk l'.
Proof.
  unfold placeGroup. destruct ps as [|p0 rest]; [done|].
  destruct (forallb _ _); intros [= <-] Hok [Hs Hd]; simpl in *.
  - rewrite lengthZ_snoc in Hs. apply layoutOk_insert; [done| |lia|].
    + rewrite lengthZ_snoc. lia.
    + rewrite lengthZ_snoc. apply new_static_address.
      pose proof (lengthZ_nonneg (l_staticValues l)). lia.
  - rewrite lengthZ_snoc in Hd.
    set (l1 := foldl placeProvider (placeProvider l p0) rest) in *.
    assert (layoutOk l1) as Hok1.
    { apply (foldl_ok placeProvider (p0 :: rest) placeProvider_grows placeProvider_ok l Hok).
      split; simpl; fold l1; lia. }
    apply layoutOk_insert; [done|lia| |].
    + rewrite lengthZ_snoc. lia.
    + rewrite lengthZ_snoc. apply new_dynamic_address.
      pose proof (lengthZ_nonneg (l_dynamicSlots l1)). lia.
Qed.

Lemma placeGroups_grows oldState groups :
  forall l l', placeGroups oldState l groups = Ok l' -> grows l l'.
Proof.
  induction groups as [|[k ps] groups IH]; intros l l'; simpl.
  - intros [= <-]. apply grows_refl.
  - destruct (placeGroup oldState l ps) as [l1| |] eqn:Hplace; try done. simpl.
    intros Hrest. eapply grows_trans; [by eapply placeGroup_grows|by apply IH].
Qed.

Lemma placeGroups_ok oldState groups :
  forall l l',
    placeGroups oldState l groups = Ok l' -> layoutOk l -> withinBounds l' -> layoutOk l'.
Proof.
  induction groups as [|[k ps] groups IH]; intros l l'; simpl.
  - by intros [= <-].
  - destruct (placeGroup oldState l ps) as [l1| |] eqn:Hplace; try done. simpl.
    intros Hrest Hok Hb. eapply IH; [exact Hrest| |done].
    eapply placeGroup_ok; [exact Hplace|done|].
    eapply withinBounds_grows; [by eapply placeGroups_grows|done].
Qed.

Lemma mapResult_length {A B} (f : A -> Result B) (l : list A) ys :
  mapResult f l = Ok ys -> length ys = length l.
Proof.
  revert ys. induction l as [|x l IH]; intros ys; simpl.
  - by intros [= <-].
  - destruct (f x) as [y| |]; try done. simpl.
    destruct (mapResult f l) as [ys'| |]; try done. simpl.
    intros [= <-]. simpl. by rewrite (IH ys').
Qed.

(** Every address of a resolved configuration points to an existing cell:
    an address with the static bit to an entry of [staticValues], one
    without it to a slot of [dynamicSlots], as long as there are fewer than
    [2^30] of each. *)
Theorem resolve_addresses_in_range (extension : Extension)
    (oldState : option EditorState) (c : Configuration) :
  Configuration_resolve extension oldState = Ok c ->
  lengthZ (staticValues c) < 2 ^ 30 ->
  lengthZ (dynamicSlots c) < 2 ^ 30 ->
  forall id a,
    address c !! id = Some a ->
    if decide (js_and (Some a) 1 = 0)
    then is_Some (array_get (dynamicSlots c) (js_shr (Some a) 1))
    else is_Some (array_get (staticValues c) (js_shr (Some a) 1)).
Proof.
  unfold Configuration_resolve.
  destruct (classify (flatten extension) [] []) as [fields groups].
  destruct (placeGroups oldState _ groups) as [l| |] eqn:Hplace; try done. simpl.
  destruct (mapResult _ _) as [slots| |] eqn:Hslots; try done. simpl.
  intros [= <-] Hs Hd id a Hlook. simpl in *.
  apply mapResult_length in Hslots.
  assert (withinBounds l) as Hb.
  { split; [done|]. unfold lengthZ in *. by rewrite <- Hslots. }
  assert (layoutOk l) as Hok.
  { eapply placeGroups_ok; [exact Hplace| |done].
    apply (foldl_ok placeField fields placeField_grows placeField_ok).
    - intros id' a'. simpl. by rewrite lookup_empty.
    - eapply withinBounds_grows; [by eapply placeGroups_grows|done]. }
  destruct (Hok id a Hlook) as [[Hbit Hidx]|[Hbit Hidx]].
  - rewrite decide_False by lia. unfold array_get. rewrite decide_True by lia.
    apply lookup_lt_is_Some. unfold lengthZ in Hidx. lia.
  - rewrite decide_True by done. unfold array_get. rewrite decide_True by lia.
    apply lookup_lt_is_Some. unfold lengthZ in Hidx. lia.
Qed.

Lemma resolve_addresses_in_range_witness :
  is_Some (array_get (dynamicSlots mirrorConfiguration) (js_shr (Some 4) 1)).
Proof.
  apply (resolve_addresses_in_range mirrorExtension None mirrorConfiguration eq_refl
           ltac:(by vm_compute) ltac:(by vm_compute) 30%nat 4).
  by vm_compute.
Defined.

(** ** Evaluation in bounded depth *)

Lemma advances_refl w : advances w w.
Proof. by repeat split. Qed.

Lemma advances_trans w1 w2 w3 : advances w1 w2 -> advances w2 w3 -> advances w1 w3.
Proof.
  intros (Hc1 & Ha1 & Hs1) (Hc2 & Ha2 & Hs2). repeat split; [congruence|congruence|].
  intros idx Hidx. by apply Hs2, Hs1.
Qed.

Lemma preserving_ret {A} (a : A) : preserving (ret a).
Proof. intros w a' w' [= <- <-]. apply advances_refl. Qed.

Lemma preserving_throw {A} e : preserving (@throw A e).
Proof. by intros w a w'. Qed.

Lemma preserving_bind {A B} (m : M A) (k : A -> M B) :
  preserving m -> (forall a, preserving (k a)) -> preserving (bind m k).
Proof.
  intros Hm Hk w b w'. unfold bind.
  destruct (m w) as [[a w1]| |] eqn:Hmw; try done.
  intros Hkw. eapply advances_trans; [by eapply Hm|by eapply Hk].
Qed.

Lemma preserving_logCall c : preserving (logCall c).
Proof. intros w a w' [= <- <-]. by repeat split. Qed.

Lemma preserving_setValue idx v : preserving (modify (setValue idx v)).
Proof. intros w a w' [= <- <-]. by repeat split. Qed.

Lemma preserving_onState f :
  (forall s, sameFrame s (f s)) -> preserving (onState f).
Proof.
  intros Hf w a w'. unfold onState. specialize (Hf (snap w)).
  destruct (f (snap w)) as [[v s']| |]; try done.
  intros [= <- <-]. destruct Hf as (Hc & Hs & Ha). repeat split; simpl; try done.
  intros idx. by rewrite Hs.
Qed.

Lemma preserving_gatherValues tys addrs : preserving (gatherValues tys addrs).
Proof.
  intros w a w'. unfold gatherValues. destruct (gather _ _ _ _ _); try done.
  intros [= <- <-]. apply advances_refl.
Qed.

Lemma preserving_if {A} (b : bool) (m1 m2 : M A) :
  preserving m1 -> preserving m2 -> preserving (if b then m1 else m2).
Proof. by destruct b. Qed.

Ltac preserve :=
  repeat first
    [ apply preserving_ret | apply preserving_throw | apply preserving_logCall
    | apply preserving_setValue | apply preserving_gatherValues
    | apply preserving_bind; [|intros ?] | apply preserving_if
    | by apply preserving_onState | done ].

Section Preserving.
Variable cb : Callbacks.
Hypothesis Hquiet : quiet cb.
Variable ensure : option Z -> M Z.
Hypothesis Hensure : forall addr, preserving (ensure addr).

Lemma preserving_callGetter getter : preserving (callGetter cb getter).
Proof using Hquiet.
  destruct Hquiet as (_ & _ & Hget). unfold callGetter.
  destruct getter; preserve.
Qed.

Lemma preserving_someChanged addrs : preserving (someChanged ensure addrs).
Proof using Hensure.
  induction addrs as [|a addrs IH]; simpl; preserve.
  case_decide; preserve.
Qed.

Lemma preserving_ensureAll dynamic :
  forall changed, preserving (ensureAll ensure dynamic changed).
Proof using Hensure. induction dynamic as [|a dynamic IH]; intros changed; simpl; preserve. Qed.

Lemma preserving_runSlot slot tr : preserving (runSlot cb ensure slot tr).
Proof using Hquiet Hensure.
  destruct Hquiet as (Hcreate & Hupdate & Hget).
  destruct slot as [field idx|getter cmp idx depDoc depSel depAddrs
                   |facet providerAddrs providerTypes dynamic idx]; simpl.
  - unfold fieldSlot_update, callCreate, callUpdate.
    destruct tr as [t|]; [destruct (reconfigured t)|]; preserve.
  - unfold providerSlot_update.
    destruct tr as [t|]; [destruct (reconfigured t)|]; preserve;
      try apply preserving_callGetter; try apply preserving_someChanged; preserve.
  - unfold facetSlot_update, callCombine. preserve.
    + apply preserving_ensureAll.
    + destruct tr as [t|]; [destruct (reconfigured t)|]; simpl;
        repeat case_match; preserve.
Qed.
End Preserving.

Lemma settled_computing : settled (Some Computing).
Proof. by left. Qed.

Lemma settled_computed changed :
  changed = 0 \/ changed = Changed -> settled (Some (js_or Computed changed)).
Proof. intros Hc. right. by apply or_computed_flag. Qed.

Lemma advances_setStatus w idx s :
  settled (Some s) ->
  advances w (MkWorld (setStatus idx s (snap w)) (calls w)).
Proof.
  intros Hs. repeat split. intros idx' Hidx'. simpl. rewrite lookup_insert.
  by case_decide.
Qed.

(** With quiet callbacks [ensureAddr] keeps the configuration and never
    unsettles a cell. *)
Lemma ensureAddr_preserving cb :
  quiet cb -> forall fuel addr, preserving (ensureAddr cb fuel addr).
Proof.
  intros Hquiet. induction fuel as [|fuel IH]; intros addr w s w'; simpl.
  - repeat case_decide; try done; intros [= <- <-]; apply advances_refl.
  - case_decide; [|intros [= <- <-]; apply advances_refl].
    case_decide; [done|]. case_decide; [|intros [= <- <-]; apply advances_refl].
    unfold bind at 1. simpl.
    destruct (array_get _ _) as [slot|]; [|done].
    unfold bind at 1.
    destruct (runSlot _ _ _ _ _) as [[changed w2]| |] eqn:Hslot; try done.
    intros [= <- <-].
    eapply advances_trans;
      [apply (advances_setStatus w (js_shr addr 1) Computing settled_computing)|].
    eapply advances_trans; [by eapply (preserving_runSlot cb Hquiet _ IH)|].
    apply advances_setStatus, settled_computed. by eapply runSlot_flag.
Qed.

Lemma total_ret {A} w0 (a : A) : totalFrom w0 (ret a).
Proof. by intros w _. Qed.

Lemma total_throw {A} w0 e : totalFrom w0 (@throw A e).
Proof. by intros w _. Qed.

Lemma total_logCall w0 c : totalFrom w0 (logCall c).
Proof. by intros w _. Qed.

Lemma total_setValue w0 idx v : totalFrom w0 (modify (setValue idx v)).
Proof. by intros w _. Qed.

Lemma total_bind {A B} w0 (m : M A) (k : A -> M B) :
  preserving m -> totalFrom w0 m -> (forall a, totalFrom w0 (k a)) ->
  totalFrom w0 (bind m k).
Proof.
  intros Hpres Hm Hk w Hw. unfold bind.
  destruct (m w) as [[a w1]| |] eqn:Hmw; [|done|by destruct (Hm w Hw)].
  apply Hk. eapply advances_trans; [exact Hw|by eapply Hpres].
Qed.

Lemma total_onState w0 f :
  (forall s, sameFrame s (f s)) -> totalFrom w0 (onState f).
Proof.
  intros Hf w _. unfold onState. specialize (Hf (snap w)).
  by destruct (f (snap w)) as [[v s']| |].
Qed.

Lemma gather_has_fuel state tys addrs :
  forall i acc, gather state tys addrs i acc <> OutOfFuel.
Proof.
  induction addrs as [|a addrs IH]; intros i acc; simpl; [done|].
  destruct (tys !! i) as [[]|]; try apply IH.
  destruct (getAddr state a); first [done|apply IH].
Qed.

Lemma total_gatherValues w0 tys addrs : totalFrom w0 (gatherValues tys addrs).
Proof.
  intros w _. unfold gatherValues.
  pose proof (gather_has_fuel (snap w) tys addrs 0%nat []).
  by destruct (gather _ _ _ _ _).
Qed.

Lemma total_if {A} w0 (b : bool) (m1 m2 : M A) :
  totalFrom w0 m1 -> totalFrom w0 m2 -> totalFrom w0 (if b then m1 else m2).
Proof. by destruct b. Qed.

Section Total.
Variable cb : Callbacks.
Hypothesis Hquiet : quiet cb.
Variable ensure : option Z -> M Z.
Hypothesis Hpres : forall addr, preserving (ensure addr).
Variable w0 : World.
Hypothesis Htotal : forall addr, totalFrom w0 (ensure addr).

Ltac total :=
  repeat first
    [ apply total_ret | apply total_throw | apply total_logCall
    | apply total_setValue | apply total_gatherValues
    | apply total_bind; [solve [preserve]| |intros ?] | apply total_if
    | by apply total_onState | done ].

Lemma total_callGetter getter : totalFrom w0 (callGetter cb getter).
Proof using Hquiet.
  destruct Hquiet as (_ & _ & Hget). unfold callGetter.
  destruct getter; total.
Qed.

Lemma total_someChanged addrs : totalFrom w0 (someChanged ensure addrs).
Proof using Hpres Htotal.
  induction addrs as [|a addrs IH]; simpl; total.
  case_decide; total.
Qed.

Lemma total_ensureAll dynamic :
  forall changed, totalFrom w0 (ensureAll ensure dynamic changed).
Proof using Hpres Htotal. induction dynamic as [|a dynamic IH]; intros changed; simpl; total. Qed.

Lemma total_runSlot slot tr : totalFrom w0 (runSlot cb ensure slot tr).
Proof using Hquiet Hpres Htotal.
  pose proof Hquiet as (Hcreate & Hupdate & Hget).
  destruct slot as [field idx|getter cmp idx depDoc depSel depAddrs
                   |facet providerAddrs providerTypes dynamic idx]; simpl.
  - unfold fieldSlot_update, callCreate, callUpdate.
    destruct tr as [t|]; [destruct (reconfigured t)|]; total.
  - unfold providerSlot_update.
    destruct tr as [t|]; [destruct (reconfigured t)|].
    + apply total_bind; [by apply preserving_callGetter|apply total_callGetter|].
      intros v. total.
    + apply total_bind.
      * apply preserving_if; [preserve|by apply preserving_someChanged].
      * apply total_if; [total|apply total_someChanged].
      * intros depChanged. apply total_if; [total|].
        apply total_bind; [by apply preserving_callGetter|apply total_callGetter|].
        intros v. total.
    + apply total_bind; [by apply preserving_callGetter|apply total_callGetter|].
      intros v. total.
  - unfold facetSlot_update, callCombine.
    apply total_bind; [by apply preserving_ensureAll|apply total_ensureAll|].
    intros changed. apply total_if; [total|].
    apply total_bind; [preserve|total|]. intros inputs.
    apply total_bind; [preserve|total|]. intros newVal.
    destruct tr as [t|]; [destruct (reconfigured t)|]; simpl;
      repeat case_match; total.
Qed.
End Total.

Lemma covers_after_mark cells w idx w' :
  covers cells w ->
  advances (MkWorld (setStatus idx Computing (snap w)) (calls w)) w' ->
  covers (cells ∖ {[idx]}) w'.
Proof.
  intros Hcov (Hc & _ & Hs) j Hslot Hfresh. simpl in *.
  assert (j <> idx) as Hne.
  { intros ->. apply Hfresh, Hs. rewrite lookup_insert_eq. by left. }
  apply elem_of_difference. split; [|set_solver].
  apply Hcov; [by rewrite <- Hc|].
  intros Hsettled. apply Hfresh, Hs. by rewrite lookup_insert_ne.
Qed.

(** With quiet callbacks, fuel beyond the number of cells still to settle
    is never used up. *)
Lemma ensureAddr_total cb :
  quiet cb ->
  forall fuel cells w addr,
    covers cells w -> (size cells < fuel)%nat ->
    ensureAddr cb fuel addr w <> OutOfFuel.
Proof.
  intros Hquiet. induction fuel as [|fuel IH]; intros cells w addr Hcov Hsize; [lia|].
  simpl. case_decide as Hbit; [|done]. case_decide as Hcomputing; [done|].
  case_decide as Hfresh; [|done].
  unfold bind at 1. simpl.
  destruct (array_get _ _) as [slot|] eqn:Hslot; [|done].
  set (w1 := MkWorld (setStatus (js_shr addr 1) Computing (snap w)) (calls w)).
  assert (js_shr addr 1 ∈ cells) as Hin.
  { apply Hcov; [by rewrite Hslot|]. intros [?|?]; done. }
  assert (totalFrom w1 (runSlot cb (ensureAddr cb fuel) slot (applying (snap w)))) as Hrun.
  { apply total_runSlot; [done|by apply ensureAddr_preserving|].
    intros a w' Hw'. apply (IH (cells ∖ {[js_shr addr 1]})).
    - by eapply covers_after_mark.
    - assert (size (cells ∖ {[js_shr addr 1]}) = size cells - size ({[js_shr addr 1]} : gset Z))%nat
        as -> by (apply size_difference; set_solver).
      rewrite size_singleton.
      assert (size cells <> 0)%nat by (intros Hz%size_empty_inv; set_solver).
      lia. }
  unfold bind. specialize (Hrun w1 (advances_refl w1)).
  by destruct (runSlot _ _ _ _ _) as [[changed w2]| |].
Qed.

Lemma refines_refl {A} (m : M A) : refines m m.
Proof. by intros w _. Qed.

Lemma refines_bind {A B} (m1 m2 : M A) (k1 k2 : A -> M B) :
  refines m1 m2 -> (forall a, refines (k1 a) (k2 a)) ->
  refines (bind m1 k1) (bind m2 k2).
Proof.
  intros Hm Hk w. unfold bind. intros Hfuel.
  rewrite (Hm w) by (intros Hout; by rewrite Hout in Hfuel).
  destruct (m1 w) as [[a w1]| |]; try done. by apply Hk.
Qed.

Lemma refines_if {A} (b : bool) (m1 m2 n1 n2 : M A) :
  refines m1 m2 -> refines n1 n2 ->
  refines (if b then m1 else n1) (if b then m2 else n2).
Proof. by destruct b. Qed.

Section Refines.
Variable cb : Callbacks.
Variables ensure1 ensure2 : option Z -> M Z.
Hypothesis Hensure : forall addr, refines (ensure1 addr) (ensure2 addr).

Lemma refines_someChanged addrs :
  refines (someChanged ensure1 addrs) (someChanged ensure2 addrs).
Proof using Hensure.
  induction addrs as [|a addrs IH]; simpl; [apply refines_refl|].
  apply refines_bind; [done|]. intros s. case_decide; [apply refines_refl|done].
Qed.

Lemma refines_ensureAll dynamic :
  forall changed,
    refines (ensureAll ensure1 dynamic changed) (ensureAll ensure2 dynamic changed).
Proof using Hensure.
  induction dynamic as [|a dynamic IH]; intros changed; simpl; [apply refines_refl|].
  apply refines_bind; [done|]. intros s. apply IH.
Qed.

Lemma refines_runSlot slot tr :
  refines (runSlot cb ensure1 slot tr) (runSlot cb ensure2 slot tr).
Proof using Hensure.
  destruct slot as [field idx|getter cmp idx depDoc depSel depAddrs
                   |facet providerAddrs providerTypes dynamic idx]; simpl.
  - apply refines_refl.
  - unfold providerSlot_update.
    destruct tr as [t|]; [destruct (reconfigured t)|]; try apply refines_refl.
    apply refines_bind; [|intros ?; apply refines_refl].
    apply refines_if; [apply refines_refl|apply refines_someChanged].
  - unfold facetSlot_update.
    apply refines_bind; [apply refines_ensureAll|intros ?; apply refines_refl].
Qed.
End Refines.

Lemma bind_modify {A} f (k : unit -> M A) w :
  bind (modify f) k w = k tt (MkWorld (f (snap w)) (calls w)).
Proof. reflexivity. Qed.

Lemma ensureAddr_step cb fuel addr :
  ensureAddr cb (S fuel) addr = ensureStep cb (ensureAddr cb fuel) addr.
Proof. reflexivity. Qed.

Lemma refines_ensureStep cb ensure1 ensure2 addr :
  (forall a, refines (ensure1 a) (ensure2 a)) ->
  refines (ensureStep cb ensure1 addr) (ensureStep cb ensure2 addr).
Proof.
  intros Hensure w. unfold ensureStep. repeat case_decide; try done.
  rewrite !bind_modify. simpl.
  destruct (array_get _ _) as [slot|]; [|done].
  apply refines_bind; [|intros ?; apply refines_refl].
  by apply refines_runSlot.
Qed.

(** One more unit of fuel changes no result that was reached. *)
Lemma ensureAddr_more_fuel cb :
  forall fuel addr, refines (ensureAddr cb fuel addr) (ensureAddr cb (S fuel) addr).
Proof.
  induction fuel as [|fuel IH]; intros addr.
  - intros w. simpl. repeat case_decide; done.
  - rewrite !ensureAddr_step. by apply refines_ensureStep.
Qed.

Lemma ensureAddr_fuel_le cb fuel fuel' addr :
  (fuel <= fuel')%nat -> refines (ensureAddr cb fuel addr) (ensureAddr cb fuel' addr).
Proof.
  induction 1 as [|fuel' _ IH]; [apply refines_refl|].
  intros w Hw. rewrite <- (IH w Hw). apply ensureAddr_more_fuel. by rewrite (IH w Hw).
Qed.

Lemma covers_all_slots w :
  covers (list_to_set (seqZ 0 (lengthZ (dynamicSlots (config (snap w)))))) w.
Proof.
  intros idx [slot Hslot] _. unfold array_get in Hslot.
  case_decide as Hpos; [|done]. apply lookup_lt_Some in Hslot.
  apply elem_of_list_to_set, list_elem_of_lookup. exists (Z.to_nat idx).
  apply lookup_seqZ. unfold lengthZ. lia.
Qed.

(** With callbacks that return or throw and leave status cells and
    configuration alone, [ensureAddr] needs no more nested slot calls than
    there are dynamic slots: with more fuel than slots it returns a status
    or throws, and the result is the same for every such fuel. *)
Theorem ensureAddr_terminates (cb : Callbacks) (w : World) (addr : option Z)
    (fuel fuel' : nat) :
  quiet cb ->
  (length (dynamicSlots (config (snap w))) < fuel)%nat ->
  (length (dynamicSlots (config (snap w))) < fuel')%nat ->
  ensureAddr cb fuel addr w <> OutOfFuel /\
  ensureAddr cb fuel' addr w = ensureAddr cb fuel addr w.
Proof.
  intros Hquiet Hfuel Hfuel'.
  assert (forall n, (length (dynamicSlots (config (snap w))) < n)%nat ->
                    ensureAddr cb n addr w <> OutOfFuel) as Htotal.
  { intros n Hn. apply (ensureAddr_total cb Hquiet n _ w addr (covers_all_slots w)).
    rewrite size_list_to_set by apply NoDup_seqZ.
    rewrite length_seqZ. unfold lengthZ. lia. }
  split; [by apply Htotal|].
  destruct (Nat.le_ge_cases fuel fuel') as [Hle|Hle].
  - by apply (ensureAddr_fuel_le cb fuel fuel' addr Hle), Htotal.
  - symmetry. by apply (ensureAddr_fuel_le cb fuel' fuel addr Hle), Htotal.
Qed.

Lemma sampleCallbacks_quiet : quiet sampleCallbacks.
Proof.
  repeat split.
  - intros [|code] s; by simpl.
  - intros [|code] v tr s; simpl; [|done]. by destruct v.
  - intros [|[|[|[|code]]]] s; by simpl.
Qed.

Lemma ensureAddr_terminates_witness :
  ensureAddr sampleCallbacks 4 (Some 4) (MkWorld (firstState mirrorConfiguration) [])
    <> OutOfFuel /\
  ensureAddr sampleCallbacks 9 (Some 4) (MkWorld (firstState mirrorConfiguration) [])
  = ensureAddr sampleCallbacks 4 (Some 4) (MkWorld (firstState mirrorConfiguration) []).
Proof.
  apply (ensureAddr_terminates sampleCallbacks
           (MkWorld (firstState mirrorConfiguration) []) (Some 4) 4 9
           sampleCallbacks_quiet); vm_compute; lia.
Defined.

(** With quiet callbacks a successful [ensureAddr] keeps the state's
    configuration and transaction, and every status cell that was
    [Computing] or had the [Computed] bit is still one or the other:
    evaluation never resets a cell. *)
Theorem ensureAddr_keeps_settled (cb : Callbacks) (fuel : nat) (addr : option Z)
    (w w' : World) (s : Z) :
  quiet cb ->
  ensureAddr cb fuel addr w = Ok (s, w') ->
  config (snap w') = config (snap w) /\
  applying (snap w') = applying (snap w) /\
  forall idx, settled (status (snap w) !! idx) -> settled (status (snap w') !! idx).
Proof. intros Hquiet Hrun. by eapply (ensureAddr_preserving cb Hquiet). Qed.

Lemma ensureAddr_keeps_settled_witness :
  config (snap (afterCounter true)) = mirrorConfiguration /\
  applying (snap (afterCounter true)) = Some (mirrorEdit true) /\
  forall idx,
    settled (status (editedState mirrorConfiguration mirrorStart true) !! idx) ->
    settled (status (snap (afterCounter true)) !! idx).
Proof.
  apply (ensureAddr_keeps_settled sampleCallbacks 1 (Some 0)
           (MkWorld (editedState mirrorConfiguration mirrorStart true) [])
           (afterCounter true) 3 sampleCallbacks_quiet).
  by vm_compute.
Defined.

(** What a successful [ensureAddr] returns: a status with the [Computed]
    bit, which for a dynamic address is then the content of the address's
    status cell; the cell is not left [Computing]. *)
Theorem ensureAddr_returns_computed (cb : Callbacks) (fuel : nat) (addr : option Z)
    (w w' : World) (s : Z) :
  ensureAddr cb fuel addr w = Ok (s, w') ->
  js_and (Some s) Computed <> 0 /\ s <> Computing /\
  (js_and addr 1 = 0 -> status (snap w') !! js_shr addr 1 = Some s).
Proof.
  intros Hrun. destruct (ensureAddr_result _ _ _ _ _ _ Hrun) as [Hbit Hcell].
  split; [done|]. split; [by apply computed_bit_not_computing|done].
Qed.

Lemma ensureAddr_returns_computed_witness :
  js_and (Some 3) Computed <> 0 /\ 3 <> Computing /\
  (js_and (Some 0) 1 = 0 -> status (snap (afterCounter true)) !! js_shr (Some 0) 1 = Some 3).
Proof.
  apply (ensureAddr_returns_computed sampleCallbacks 1 (Some 0)
           (MkWorld (editedState mirrorConfiguration mirrorStart true) [])).
  by vm_compute.
Defined.

(** ** A slot that depends on itself *)

Lemma ensureAddr_computing cb fuel addr w :
  js_and addr 1 = 0 ->
  status (snap w) !! js_shr addr 1 = Some Computing ->
  ensureAddr cb fuel addr w = Throw CyclicDependency.
Proof.
  intros Hbit Hst. destruct fuel; simpl; by rewrite decide_True, Hst, decide_True.
Qed.

(** A provider slot whose first dependency address is its own address: on
    a transaction that keeps the configuration and fires no symbolic
    dependency of the slot, forcing the slot throws the cyclic-dependency
    error, with any fuel that lets the slot start. *)
Theorem self_dependency_throws (cb : Callbacks) (fuel : nat) (w : World) (idx idx' : Z)
    (getter : value) (cmp : value -> value -> bool) (depDoc depSel : bool)
    (rest : list (option Z)) (t : Transaction) :
  - 2 ^ 30 <= idx < 2 ^ 30 ->
  array_get (dynamicSlots (config (snap w))) idx =
    Some (ProviderSlot getter cmp idx' depDoc depSel (Some (js_shl idx 1) :: rest)) ->
  applying (snap w) = Some t ->
  reconfigured t = false ->
  symbolicFired depDoc depSel t = false ->
  ~ settled (status (snap w) !! idx) ->
  ensureAddr cb (S fuel) (Some (js_shl idx 1)) w = Throw CyclicDependency.
Proof.
  intros Hidx Hslot Happ Hrec Hsym Hfresh.
  destruct (dynamic_address_index idx Hidx) as [Hshr Hbit].
  rewrite ensureAddr_step. unfold ensureStep.
  rewrite decide_True by done. rewrite Hshr.
  rewrite decide_False by (intros ?; apply Hfresh; by left).
  rewrite decide_True.
  2: { destruct (decide (js_and (status (snap w) !! idx) Computed = 0)); [done|].
       exfalso. apply Hfresh. by right. }
  rewrite bind_modify. simpl. rewrite Hslot, Happ. simpl.
  unfold providerSlot_update. rewrite Hrec, symbolicFired_eq, Hsym.
  unfold bind at 1 2. simpl. unfold bind at 1.
  assert (ensureAddr cb fuel (Some (js_shl idx 1))
            (MkWorld (setStatus idx Computing (snap w)) (calls w))
          = Throw CyclicDependency) as ->; [|done].
  apply ensureAddr_computing; [done|]. rewrite Hshr. simpl.
  apply lookup_insert_eq.
Qed.

Lemma self_dependency_throws_witness :
  ensureAddr sampleCallbacks 1 (Some (js_shl 0 1))
    (MkWorld (MkEditorState
                (Configuration_new
                   [ProviderSlot (VFun 2%nat) numEq 0 false false [Some (js_shl 0 1)]]
                   ∅ [])
                ∅ ∅ (Some (mirrorEdit true))) [])
  = Throw CyclicDependency.
Proof.
  apply (self_dependency_throws sampleCallbacks 0 _ 0 0 (VFun 2%nat) numEq false false []
           (mirrorEdit true)); try done; try lia.
  intros [Hc|Hc]; by vm_compute in Hc.
Defined.

(** ** Field slots come first *)

Lemma classify_fields leaves :
  forall fields groups,
    (classify leaves fields groups).1 = fields ++ omap leafField leaves.
Proof.
  induction leaves as [|[p|f] leaves IH]; intros fields groups; simpl.
  - by rewrite app_nil_r.
  - apply IH.
  - rewrite IH. by rewrite <- app_assoc.
Qed.

Lemma placeFields_makers fields :
  forall l,
    l_dynamicSlots (foldl placeField l fields) =
    l_dynamicSlots l ++ (MakeFieldSlot <$> fields).
Proof.
  induction fields as [|f fields IH]; intros l; simpl.
  - by rewrite app_nil_r.
  - rewrite IH. simpl. by rewrite <- app_assoc.
Qed.

Lemma placeProviders_appends ps :
  forall l, exists extra,
    l_dynamicSlots (foldl placeProvider l ps) = l_dynamicSlots l ++ extra.
Proof.
  induction ps as [|p ps IH]; intros l; simpl.
  - exists []. by rewrite app_nil_r.
  - destruct (IH (placeProvider l p)) as [extra ->]. unfold placeProvider.
    destruct (Provider_eqb (fp_type p) Static); simpl; [by eexists|].
    rewrite <- app_assoc. by eexists.
Qed.

Lemma placeGroup_appends oldState l ps l' :
  placeGroup oldState l ps = Ok l' ->
  exists extra, l_dynamicSlots l' = l_dynamicSlots l ++ extra.
Proof.
  unfold placeGroup. destruct ps as [|p0 rest]; [done|].
  destruct (forallb _ _); intros [= <-]; simpl.
  - exists []. by rewrite app_nil_r.
  - destruct (placeProviders_appends (p0 :: rest) l) as [extra Hextra].
    simpl in Hextra. rewrite Hextra, <- app_assoc. by eexists.
Qed.

Lemma placeGroups_appends oldState groups :
  forall l l',
    placeGroups oldState l groups = Ok l' ->
    exists extra, l_dynamicSlots l' = l_dynamicSlots l ++ extra.
Proof.
  induction groups as [|[k ps] groups IH]; intros l l'; simpl.
  - intros [= <-]. exists []. by rewrite app_nil_r.
  - destruct (placeGroup oldState l ps) as [l1| |] eqn:Hplace; try done. simpl.
    intros Hrest. destruct (placeGroup_appends _ _ _ _ Hplace) as [e1 He1].
    destruct (IH _ _ Hrest) as [e2 ->]. rewrite He1, <- app_assoc. by eexists.
Qed.

Lemma mapResult_app {A B} (f : A -> Result B) (xs ys : list A) zs :
  mapResult f (xs ++ ys) = Ok zs ->
  exists xs' ys', zs = xs' ++ ys' /\ mapResult f xs = Ok xs' /\ mapResult f ys = Ok ys'.
Proof.
  revert zs. induction xs as [|x xs IH]; intros zs; simpl.
  - intros Hys. by exists [], zs.
  - destruct (f x) as [y| |]; try done. simpl.
    destruct (mapResult f (xs ++ ys)) as [zs'| |] eqn:Hrest; try done. simpl.
    intros [= <-]. destruct (IH zs' eq_refl) as (xs' & ys' & -> & -> & ->).
    by exists (y :: xs'), ys'.
Qed.

Lemma mapResult_fields addresses (fields : list StateField) :
  mapResult (makeSlot addresses) (MakeFieldSlot <$> fields) =
  Ok ((fun f => StateField_slot f addresses) <$> fields).
Proof.
  induction fields as [|f fields IH]; [done|].
  change (mapResult (makeSlot addresses) (MakeFieldSlot <$> f :: fields))
    with (bindR (Ok (StateField_slot f addresses))
            (fun y => bindR (mapResult (makeSlot addresses) (MakeFieldSlot <$> fields))
                        (fun ys => Ok (y :: ys)))).
  by rewrite IH.
Qed.

(** The dynamic slots of a resolved configuration start with the slots of
    the fields of the flattened tree, in flatten order, each built from the
    complete address table. *)
Theorem resolve_fields_first (extension : Extension) (oldState : option EditorState)
    (c : Configuration) :
  Configuration_resolve extension oldState = Ok c ->
  let fields := omap leafField (flatten extension) in
  take (length fields) (dynamicSlots c) =
  (fun f => StateField_slot f (address c)) <$> fields.
Proof.
  unfold Configuration_resolve.
  pose proof (classify_fields (flatten extension) [] []) as Hfields.
  destruct (classify (flatten extension) [] []) as [fields groups].
  simpl in Hfields. subst fields.
  destruct (placeGroups oldState _ groups) as [l| |] eqn:Hplace; try done. simpl.
  destruct (mapResult _ _) as [slots| |] eqn:Hslots; try done. simpl.
  intros [= <-]. simpl.
  destruct (placeGroups_appends _ _ _ _ Hplace) as [extra Hextra].
  rewrite placeFields_makers in Hextra. simpl in Hextra. rewrite Hextra in Hslots.
  apply mapResult_app in Hslots as (xs' & ys' & -> & Hxs & _).
  rewrite mapResult_fields in Hxs. simplify_eq.
  rewrite take_app_length'; [done|]. by rewrite length_fmap.
Qed.

Lemma resolve_fields_first_witness :
  take 1 (dynamicSlots mirrorConfiguration) = [FieldSlot counter 0].
Proof.
  apply (resolve_fields_first mirrorExtension None mirrorConfiguration).
  by vm_compute.
Defined.

(** ** The provider groups *)

Lemma addProvider_keyed id p groups :
  fd_id (fp_facet p) = id ->
  Forall (fun g => Forall (fun q => fd_id (fp_facet q) = g.1) g.2) groups ->
  Forall (fun g : nat * list FacetProvider => Forall (fun q => fd_id (fp_facet q) = g.1) g.2)
    (addProvider id p groups).
Proof.
  intros Hid. induction 1 as [|[k ps] groups Hg Hall IH]; simpl.
  - by repeat constructor.
  - repeat case_decide; simpl in *; subst.
    + constructor; [|done]. simpl. apply Forall_app. by repeat constructor.
    + constructor; [by repeat constructor|]. by constructor.
    + by constructor.
Qed.

Lemma classify_invariants leaves :
  forall fields groups,
    StronglySorted lt groups.*1 ->
    Forall (fun g => Forall (fun q => fd_id (fp_facet q) = g.1) g.2) groups ->
    StronglySorted lt (classify leaves fields groups).2.*1 /\
    Forall (fun g : nat * list FacetProvider => Forall (fun q => fd_id (fp_facet q) = g.1) g.2)
      (classify leaves fields groups).2.
Proof.
  induction leaves as [|[p|f] leaves IH]; intros fields groups Hsorted Hkeyed; simpl.
  - done.
  - apply IH; [by apply addProvider_sorted|by apply addProvider_keyed].
  - by apply IH.
Qed.

(** The provider groups that [resolve] visits: their keys are strictly
    ascending, whatever the order of the leaves, no group is empty, and
    every provider of a group belongs to the facet whose id is the group's
    key. *)
Theorem resolve_groups (extension : Extension) :
  let groups := (classify (flatten extension) [] []).2 in
  StronglySorted lt groups.*1 /\
  Forall (fun g => g.2 <> [] /\ Forall (fun q => fd_id (fp_facet q) = g.1) g.2) groups.
Proof.
  intros groups.
  destruct (classify_invariants (flatten extension) [] []) as [Hsorted Hkeyed];
    [constructor|constructor|].
  split; [done|]. apply Forall_and. split; [|done].
  apply classify_nonempty. constructor.
Qed.

(** * The slots that [resolve] builds *)

(** ** From makers to slots *)

Lemma mapResult_elem {A B} (f : A -> Result B) (l : list A) ys x :
  mapResult f l = Ok ys -> x ∈ l -> exists y, f x = Ok y /\ y ∈ ys.
Proof.
  revert ys. induction l as [|x' l IH]; intros ys; simpl.
  - intros _ Hx. by apply elem_of_nil in Hx.
  - destruct (f x') as [y'| |] eqn:Hfx; try done. simpl.
    destruct (mapResult f l) as [ys'| |]; try done. simpl.
    intros [= <-] [->|Hx]%elem_of_cons.
    + exists y'. split; [done|]. set_solver.
    + destruct (IH ys' eq_refl Hx) as (y & Hy & Hin). exists y. split; [done|]. set_solver.
Qed.

Lemma slotProviders_maker l q :
  q ∈ slotProviders l <-> MakeProviderSlot q ∈ l_dynamicSlots l.
Proof.
  unfold slotProviders. induction (l_dynamicSlots l) as [|m ms IH]; simpl.
  - set_solver.
  - rewrite elem_of_app, IH, elem_of_cons.
    destruct m as [f|p|fd ps]; simpl; set_solver.
Qed.

(** Every computed provider among the leaves has its slot among the
    dynamic slots of the resolved configuration, built by [dynamicSlot]
    from the complete address table. *)
Lemma resolve_provider_slot extension oldState c p :
  Configuration_resolve extension oldState = Ok c ->
  LeafProvider p ∈ flatten extension -> fp_type p <> Static ->
  exists slot, FacetProvider_dynamicSlot p (address c) = Ok slot /\ slot ∈ dynamicSlots c.
Proof.
  unfold Configuration_resolve.
  destruct (classify (flatten extension) [] []) as [fields groups] eqn:Hclass.
  assert (Forall (fun g : nat * list FacetProvider => g.2 <> []) groups) as Hne.
  { pose proof (classify_nonempty (flatten extension) [] []) as H.
    rewrite Hclass in H. apply H. constructor. }
  destruct (placeGroups_slots oldState groups Hne (foldl placeField (MkLayout ∅ [] []) fields))
    as (l & -> & Hslots). simpl.
  destruct (mapResult _ _) as [slots| |] eqn:Hmap; try done. simpl.
  intros [= <-] Hleaf Htype. simpl.
  assert (MakeProviderSlot p ∈ l_dynamicSlots l) as Hmaker.
  { apply slotProviders_maker, Hslots. right. split; [|done].
    pose proof (classify_members (flatten extension) p [] []) as Hq.
    rewrite Hclass in Hq. simpl in Hq. apply Hq. by left. }
  apply (mapResult_elem _ _ _ _ Hmap Hmaker).
Qed.

Lemma groupFor_elem k groups p0 rest :
  groupFor k groups = p0 :: rest -> (k, p0 :: rest) ∈ groups.
Proof.
  induction groups as [|[k' ps] groups IH]; simpl; [done|].
  case_decide as Hk.
  - intros ->. subst k'. set_solver.
  - intros H. apply IH in H. set_solver.
Qed.

Lemma forallb_static_false (ps : list FacetProvider) :
  forallb (fun p => Provider_eqb (fp_type p) Static) ps = false <->
  Exists (fun p => fp_type p <> Static) ps.
Proof.
  induction ps as [|p ps IH]; simpl.
  - split; [done|]. by intros H%Exists_nil.
  - rewrite andb_false_iff, Exists_cons, IH, type_not_static. done.
Qed.

Lemma placeGroups_facet_maker oldState groups k p0 rest :
  (k, p0 :: rest) ∈ groups ->
  Exists (fun p => fp_type p <> Static) (p0 :: rest) ->
  forall l l',
    placeGroups oldState l groups = Ok l' ->
    MakeFacetSlot (fp_facet p0) (p0 :: rest) ∈ l_dynamicSlots l'.
Proof.
  intros Hin Hdyn%forallb_static_false.
  induction groups as [|[k' ps] groups IH]; intros l l'; simpl.
  - by apply elem_of_nil in Hin.
  - destruct (placeGroup oldState l ps) as [l1| |] eqn:Hplace; try done. simpl.
    intros Hrest. apply elem_of_cons in Hin as [Heq|Hin]; [|by eapply IH].
    simplify_eq. unfold placeGroup in Hplace. rewrite Hdyn in Hplace.
    destruct (placeGroups_appends _ _ _ _ Hrest) as [extra ->].
    simplify_eq. simpl. set_solver.
Qed.

(** The group of a facet that has a computed provider gets a combine
    slot, built by [dynamicFacetSlot] from the complete address table, the
    facet of the group's first provider and the group in flatten order. *)
Lemma resolve_facet_slot extension oldState c k p0 rest :
  Configuration_resolve extension oldState = Ok c ->
  providersFor k (flatten extension) = p0 :: rest ->
  Exists (fun p => fp_type p <> Static) (p0 :: rest) ->
  dynamicFacetSlot (address c) (fp_facet p0) (p0 :: rest) ∈ dynamicSlots c.
Proof.
  unfold Configuration_resolve. intros Hres Hgroup Hdyn.
  pose proof (classify_groupFor (flatten extension) k [] []) as Hfor.
  destruct (classify (flatten extension) [] []) as [fields groups] eqn:Hclass.
  simpl in Hfor. rewrite Hgroup in Hfor. specialize (Hfor ltac:(constructor)).
  apply groupFor_elem in Hfor.
  destruct (placeGroups oldState _ groups) as [l| |] eqn:Hplace; try done. simpl in Hres.
  destruct (mapResult _ _) as [slots| |] eqn:Hmap; try done. simpl in Hres.
  injection Hres as <-. simpl.
  pose proof (placeGroups_facet_maker _ _ _ _ _ Hfor Hdyn _ _ Hplace) as Hmaker.
  destruct (mapResult_elem _ _ _ _ Hmap Hmaker) as (slot & Hslot & Hin).
  simpl in Hslot. by simplify_eq.
Qed.

(** ** Provider slots *)

(** C3. The slot that [dynamicSlot] builds from an address table for a
    computed provider, one whose value is a getter and whose facet
    dependencies carry their data, without which [dynamicSlot] throws.
    Its index is the provider's address shifted right; its
    symbolic dependencies are "doc" and "selection" where the provider
    lists them; the addresses it forces are those of the provider's other
    dependencies, in order, the static ones left out; its comparison is the
    facet's [compareInput].  Without a transaction, or on a reconfiguring
    one, the slot calls the getter, stores the value and reports [Changed].
    Otherwise the getter is called when a symbolic dependency fired ("doc"
    on a document change, "selection" on a selection or a document change),
    in which case no address is forced, or when forcing the dependency
    addresses in order found one that reports [Changed]; when all of them
    were forced and none did, the slot returns [0] with the state and the
    log as forcing left them.  The value of the getter is compared by
    [compareInput] with the start state's value at the slot's index:
    equal, the slot returns [0] and does not store it; different, the slot
    stores it and reports [Changed].  In a resolved configuration every
    computed provider of the flattened tree has this slot, built from the
    configuration's address table. *)
Theorem provider_slot_update (cb : Callbacks) (ensure : option Z -> M Z)
    (p : FacetProvider) (code : Closure) :
  fp_value p = VFun code ->
  Forall hasData (fp_dependencies p) ->
  let deps := fp_dependencies p in
  let fired := symbolicFired (existsb isDoc deps) (existsb isSelection deps) in
  (forall addresses : gmap nat Z,
     let idx := js_shr (addresses !! fp_id p) 1 in
     let depAddrs := filter (fun a => js_and a 1 = 0)
                       ((fun id => addresses !! id) <$> omap slotId deps) in
     exists slot,
       FacetProvider_dynamicSlot p addresses = Ok slot /\
       (forall tr w v s',
          tr = None \/ (exists t, tr = Some t /\ reconfigured t = true) ->
          call_get cb code (snap w) = Ok (v, s') ->
          runSlot cb ensure slot tr w =
            Ok (Changed, MkWorld (setValue idx v s') (calls w ++ [CallGet code]))) /\
       (forall t w w1 flags,
          reconfigured t = false ->
          fired t = false ->
          ensured ensure depAddrs w flags w1 ->
          forallb (fun s => negb (reportsChanged s)) flags = true ->
          runSlot cb ensure slot (Some t) w = Ok (0, w1)) /\
       (forall t w w1 v s',
          reconfigured t = false ->
          (fired t = true /\ w1 = w) \/
          (fired t = false /\
           exists pre addr post flags w0 s,
             depAddrs = pre ++ addr :: post /\
             ensured ensure pre w flags w0 /\
             forallb (fun s => negb (reportsChanged s)) flags = true /\
             ensure addr w0 = Ok (s, w1) /\ reportsChanged s = true) ->
          call_get cb code (snap w1) = Ok (v, s') ->
          let log := calls w1 ++ [CallGet code] in
          runSlot cb ensure slot (Some t) w =
            if compareInput (fp_facet p) v (orUndef (values (startState t) !! idx))
            then Ok (0, MkWorld s' log)
            else Ok (Changed, MkWorld (setValue idx v s') log))) /\
  (forall extension oldState c,
     Configuration_resolve extension oldState = Ok c ->
     LeafProvider p ∈ flatten extension -> fp_type p <> Static ->
     exists slot,
       FacetProvider_dynamicSlot p (address c) = Ok slot /\ slot ∈ dynamicSlots c).
Proof.
  intros Hcode Hdeps deps fired. split.
  2: { intros extension oldState c Hres Hleaf Htype.
       by apply (resolve_provider_slot extension oldState). }
  intros addresses idx depAddrs. eexists. split.
  { unfold FacetProvider_dynamicSlot. by rewrite scanDependencies_good by done. }
  rewrite Hcode. simpl.
  apply (providerSlot_cases cb ensure code (compareInput (fp_facet p)) idx
           (existsb isDoc deps) (existsb isSelection deps) depAddrs).
Qed.

Lemma provider_slot_update_witness :
  (exists slot,
     FacetProvider_dynamicSlot watcher (address watcherConfiguration) = Ok slot /\
     slot ∈ dynamicSlots watcherConfiguration /\
     runSlot sampleCallbacks (ensureAddr sampleCallbacks 1) slot None
       (MkWorld (firstState watcherConfiguration) [])
     = Ok (Changed, MkWorld (setValue 1 (VNum 3) (firstState watcherConfiguration))
                      [CallGet 2%nat]) /\
     runSlot sampleCallbacks (ensureAddr sampleCallbacks 1) slot
       (Some (watcherEdit 3 true false)) (watching 3 true false)
     = Ok (0, MkWorld (snap (watching 3 true false)) [CallGet 2%nat]) /\
     runSlot sampleCallbacks (ensureAddr sampleCallbacks 1) slot
       (Some (watcherEdit 0 false true)) (watching 0 false true)
     = Ok (Changed, MkWorld (setValue 1 (VNum 3) (snap (watching 0 false true)))
                      [CallGet 2%nat]) /\
     runSlot sampleCallbacks (ensureAddr sampleCallbacks 1) slot
       (Some (watcherEdit 0 false false)) (watching 0 false false)
     = Ok (0, worldOf (ensureAddr sampleCallbacks 1 (Some 0) (watching 0 false false))
                (watching 0 false false))) /\
  (exists slot,
     FacetProvider_dynamicSlot mirrorProvider (address mirrorConfiguration) = Ok slot /\
     runSlot sampleCallbacks (ensureAddr sampleCallbacks 1) slot (Some (mirrorEdit true))
       (MkWorld (editedState mirrorConfiguration mirrorStart true) [])
     = Ok (Changed, MkWorld (setValue 1 (VNum 1) (snap (afterCounter true)))
                      (calls (afterCounter true) ++ [CallGet 3%nat]))).
Proof.
  split.
  - destruct (provider_slot_update sampleCallbacks (ensureAddr sampleCallbacks 1)
                watcher 2%nat eq_refl) as [Hslot Hwired]; [by repeat constructor|].
    destruct (Hslot (address watcherConfiguration))
      as (slot & Hbuilt & Hfresh & Hskip & Hrun).
    destruct (Hwired watcherExtension None watcherConfiguration eq_refl)
      as (slot' & Hbuilt' & Hin).
    { assert (flatten watcherExtension = [LeafField counter; LeafProvider watcher])
        as -> by (by vm_compute).
      set_solver. }
    { done. }
    rewrite Hbuilt in Hbuilt'. injection Hbuilt' as <-.
    exists slot. split; [done|]. split; [done|]. split; [|split; [|split]].
    + apply (Hfresh None (MkWorld (firstState watcherConfiguration) []) (VNum 3)
               (firstState watcherConfiguration)); [by left|done].
    + pose proof (Hrun (watcherEdit 3 true false) (watching 3 true false)
                    (watching 3 true false) (VNum 3) (snap (watching 3 true false))
                    eq_refl (or_introl (conj eq_refl eq_refl)) eq_refl) as H.
      exact H.
    + pose proof (Hrun (watcherEdit 0 false true) (watching 0 false true)
                    (watching 0 false true) (VNum 3) (snap (watching 0 false true))
                    eq_refl (or_introl (conj eq_refl eq_refl)) eq_refl) as H.
      exact H.
    + apply (Hskip (watcherEdit 0 false false) (watching 0 false false) _ [2]);
        [done|done| |done].
      econstructor; [by vm_compute|constructor].
  - destruct (provider_slot_update sampleCallbacks (ensureAddr sampleCallbacks 1)
                mirrorProvider 3%nat eq_refl) as [Hslot _]; [by repeat constructor|].
    destruct (Hslot (address mirrorConfiguration))
      as (slot & Hbuilt & _ & _ & Hrun).
    exists slot. split; [done|].
    apply (Hrun (mirrorEdit true)
             (MkWorld (editedState mirrorConfiguration mirrorStart true) [])
             (afterCounter true) (VNum 1) (snap (afterCounter true))); [done| |by vm_compute].
    right. split; [done|].
    exists [], (Some 0), [], [],
      (MkWorld (editedState mirrorConfiguration mirrorStart true) []), 3.
    split; [done|]. split; [constructor|]. split; [done|].
    split; [by vm_compute|done].
Defined.

(** ** Facet combine slots *)

Lemma ToInt32_range z : - 2 ^ 31 <= ToInt32 z < 2 ^ 31.
Proof.
  unfold ToInt32. pose proof (Z.mod_pos_bound (z + 2 ^ 31) (2 ^ 32)). lia.
Qed.

(** An index read from an address is in the range of half the 32-bit
    integers. *)
Lemma js_shr_range a : - 2 ^ 30 <= js_shr a 1 < 2 ^ 30.
Proof.
  unfold js_shr. rewrite Z.shiftr_div_pow2 by lia.
  assert (- 2 ^ 31 <= int32 a < 2 ^ 31) as Hrange.
  { destruct a as [z|]; simpl; [apply ToInt32_range|lia]. }
  replace (2 ^ 1) with 2 by lia. split.
  - apply Z.div_le_lower_bound; lia.
  - apply Z.div_lt_upper_bound; lia.
Qed.

Lemma contributions_of_group state (addresses : gmap nat Z) (providers : list FacetProvider)
    parts :
  Forall2 (fun p part =>
             contribution state (fp_type p) (addresses !! fp_id p) = Some part)
    providers parts ->
  Forall3 (fun ty addr part => contribution state ty addr = Some part)
    (map fp_type providers) (map (fun p => addresses !! fp_id p) providers) parts.
Proof. induction 1; simpl; by constructor. Qed.

(** C4. The slot that [dynamicFacetSlot] builds for a facet and its group
    of providers from an address table.  Its members are the providers'
    addresses in group order, its index is the facet's address shifted
    right.  The slot forces every member address that is dynamic, in group
    order.  On a transaction that keeps the configuration, when no member
    reports [Changed] it returns [0] with state and log as forcing left
    them, so [combine] is not called; when some member does, it gathers the
    members' values in group order, one element for a Static or Single
    provider and the elements of the array for a Multi provider, calls
    [combine], and compares the result with the start state's value of the
    slot: equal, it returns [0] and stores nothing; different, it stores
    the result and reports [Changed].  Without a transaction it gathers,
    combines, stores and reports [Changed].  In a resolved configuration
    the group of a facet that has a computed provider has this slot, built
    from the configuration's address table, the facet of the group's first
    provider and the facet's providers in flatten order. *)
Theorem facet_slot_update :
  (forall (cb : Callbacks) (ensure : option Z -> M Z) (addresses : gmap nat Z)
          (facet : FacetData) (providers : list FacetProvider),
     let slot := runSlot cb ensure (dynamicFacetSlot addresses facet providers) in
     let member := fun p => addresses !! fp_id p in
     let dynamic := filter (fun a => js_and a 1 = 0) (member <$> providers) in
     let idx := js_shr (addresses !! fd_id facet) 1 in
     (forall t w w1 flags,
        reconfigured t = false ->
        ensured ensure dynamic w flags w1 ->
        existsb reportsChanged flags = false ->
        slot (Some t) w = Ok (0, w1)) /\
     (forall t w w1 flags parts,
        reconfigured t = false ->
        ensured ensure dynamic w flags w1 ->
        existsb reportsChanged flags = true ->
        Forall2 (fun p part => contribution (snap w1) (fp_type p) (member p) = Some part)
          providers parts ->
        let newVal := combine facet (concat parts) in
        let log := calls w1 ++ [CallCombine (fd_id facet) (concat parts)] in
        slot (Some t) w =
          if compare facet newVal (orUndef (values (startState t) !! idx))
          then Ok (0, MkWorld (snap w1) log)
          else Ok (Changed, MkWorld (setValue idx newVal (snap w1)) log)) /\
     (forall w w1 flags parts,
        ensured ensure dynamic w flags w1 ->
        Forall2 (fun p part => contribution (snap w1) (fp_type p) (member p) = Some part)
          providers parts ->
        slot None w =
          Ok (Changed,
              MkWorld (setValue idx (combine facet (concat parts)) (snap w1))
                (calls w1 ++ [CallCombine (fd_id facet) (concat parts)])))) /\
  (forall extension oldState c k p0 rest,
     Configuration_resolve extension oldState = Ok c ->
     providersFor k (flatten extension) = p0 :: rest ->
     Exists (fun p => fp_type p <> Static) (p0 :: rest) ->
     dynamicFacetSlot (address c) (fp_facet p0) (p0 :: rest) ∈ dynamicSlots c).
Proof.
  split.
  2: { intros extension oldState c k p0 rest Hres Hgroup Hdyn.
       by apply (resolve_facet_slot extension oldState c k). }
  intros cb ensure addresses facet providers slot member dynamic idx.
  destruct (facetSlot_cases ensure facet (map member providers) (map fp_type providers)
              dynamic idx) as (Hsame & Hchanged & Hfirst).
  split; [exact Hsame|]. split.
  - intros t w w1 flags parts Hrec Hrun Hsome Hparts.
    apply (Hchanged t w w1 flags parts Hrec (js_shr_range _) Hrun Hsome).
    by apply contributions_of_group.
  - intros w w1 flags parts Hrun Hparts.
    apply (Hfirst w w1 flags parts Hrun). by apply contributions_of_group.
Qed.

Lemma facet_slot_update_witness :
  dynamicFacetSlot (address collectConfiguration) Collect [multiProvider; singleProvider]
    ∈ dynamicSlots collectConfiguration /\
  runSlot sampleCallbacks (ensureAddr sampleCallbacks 1)
    (dynamicFacetSlot (address collectConfiguration) Collect [multiProvider; singleProvider])
    None (MkWorld (firstState collectConfiguration) [])
  = Ok (Changed,
        MkWorld (setValue 2 (VArr 700 [VNum 1; VNum 2; VNum 3]) (snap collectProvided))
          (calls collectProvided ++ [CallCombine 40 [VNum 1; VNum 2; VNum 3]])) /\
  runSlot sampleCallbacks (ensureAddr sampleCallbacks 2)
    (dynamicFacetSlot (address mirrorConfiguration) Mirror [mirrorProvider])
    (Some (mirrorEdit false))
    (MkWorld (editedState mirrorConfiguration mirrorStart false) [])
  = Ok (0, afterMirrorProvider false) /\
  runSlot sampleCallbacks (ensureAddr sampleCallbacks 2)
    (dynamicFacetSlot (address mirrorConfiguration) Mirror [mirrorProvider])
    (Some (mirrorEdit true))
    (MkWorld (editedState mirrorConfiguration mirrorStart true) [])
  = Ok (Changed,
        MkWorld (setValue 2 (VArr 600 [VNum 1]) (snap (afterMirrorProvider true)))
          (calls (afterMirrorProvider true) ++ [CallCombine 30 [VNum 1]])).
Proof.
  destruct facet_slot_update as [Hslot Hwired].
  split; [|split; [|split]].
  - apply (Hwired (ExtArray 703 [ExtProvider multiProvider; ExtProvider singleProvider])
             None collectConfiguration 40%nat multiProvider [singleProvider] eq_refl).
    + by vm_compute.
    + left. done.
  - apply (proj2 (proj2 (Hslot sampleCallbacks (ensureAddr sampleCallbacks 1)
                           (address collectConfiguration) Collect
                           [multiProvider; singleProvider]))
             (MkWorld (firstState collectConfiguration) []) collectProvided [3; 3]
             [[VNum 1; VNum 2]; [VNum 3]]).
    + econstructor; [by vm_compute|].
      econstructor; [by vm_compute|]. constructor.
    + repeat constructor.
  - apply (proj1 (Hslot sampleCallbacks (ensureAddr sampleCallbacks 2)
                    (address mirrorConfiguration) Mirror [mirrorProvider])
             (mirrorEdit false)
             (MkWorld (editedState mirrorConfiguration mirrorStart false) [])
             (afterMirrorProvider false) [2]); [done| |done].
    econstructor; [by vm_compute|constructor].
  - apply (proj1 (proj2 (Hslot sampleCallbacks (ensureAddr sampleCallbacks 2)
                           (address mirrorConfiguration) Mirror [mirrorProvider]))
             (mirrorEdit true)
             (MkWorld (editedState mirrorConfiguration mirrorStart true) [])
             (afterMirrorProvider true) [3] [[VNum 1]]);
      [done| |done|repeat constructor].
    econstructor; [by vm_compute|constructor].
Defined.

(** ** Static groups in [resolve] *)

Lemma placeProviders_keeps (k : nat) ps :
  Forall (fun p => fp_id p <> k) ps ->
  forall l,
    l_address (foldl placeProvider l ps) !! k = l_address l !! k /\
    exists extra, l_staticValues (foldl placeProvider l ps) = l_staticValues l ++ extra.
Proof.
  induction 1 as [|p ps Hp _ IH]; intros l; simpl.
  - split; [done|]. exists []. by rewrite app_nil_r.
  - destruct (IH (placeProvider l p)) as [-> [extra ->]]. unfold placeProvider.
    destruct (Provider_eqb (fp_type p) Static); simpl;
      rewrite lookup_insert_ne by done; (split; [done|]).
    + rewrite <- app_assoc. by eexists.
    + by eexists.
Qed.

Lemma placeGroup_keeps oldState (k : nat) l ps l' :
  placeGroup oldState l ps = Ok l' ->
  Forall (fun p => fp_id p <> k /\ fd_id (fp_facet p) <> k) ps ->
  l_address l' !! k = l_address l !! k /\
  exists extra, l_staticValues l' = l_staticValues l ++ extra.
Proof.
  unfold placeGroup. destruct ps as [|p0 rest]; [done|].
  intros Hplace Hall. pose proof (Forall_inv Hall) as [_ Hfacet].
  destruct (forallb _ _); injection Hplace as <-; simpl;
    rewrite lookup_insert_ne by done.
  - split; [done|]. by eexists.
  - apply (placeProviders_keeps k (p0 :: rest)).
    eapply Forall_impl; [exact Hall|]. by intros p [? _].
Qed.

Lemma placeGroups_keeps oldState (k : nat) groups :
  Forall (fun g => Forall (fun p => fp_id p <> k /\ fd_id (fp_facet p) <> k) g.2) groups ->
  forall l l',
    placeGroups oldState l groups = Ok l' ->
    l_address l' !! k = l_address l !! k /\
    exists extra, l_staticValues l' = l_staticValues l ++ extra.
Proof.
  induction 1 as [|[k' ps] groups Hg _ IH]; intros l l'; simpl.
  - intros [= <-]. split; [done|]. exists []. by rewrite app_nil_r.
  - destruct (placeGroup oldState l ps) as [l1| |] eqn:Hplace; try done. simpl.
    intros Hrest. destruct (placeGroup_keeps _ k _ _ _ Hplace Hg) as [Ha1 [e1 He1]].
    destruct (IH _ _ Hrest) as [-> [e2 ->]]. split; [done|].
    rewrite He1, <- app_assoc. by eexists.
Qed.

Lemma placeGroups_app_inv oldState pre post :
  forall l l',
    placeGroups oldState l (pre ++ post) = Ok l' ->
    exists l1, placeGroups oldState l pre = Ok l1 /\ placeGroups oldState l1 post = Ok l'.
Proof.
  induction pre as [|[k ps] pre IH]; intros l l'; simpl.
  - intros Hpost. by exists l.
  - destruct (placeGroup oldState l ps) as [l1| |]; try done. simpl. apply IH.
Qed.

Lemma sorted_after (k : nat) (pre post : list nat) :
  StronglySorted lt (pre ++ k :: post) -> Forall (fun k' => k <> k') post.
Proof.
  induction pre as [|k0 pre IH]; simpl; intros Hsorted.
  - apply StronglySorted_inv in Hsorted as [_ Hall].
    eapply Forall_impl; [exact Hall|]. simpl. lia.
  - apply StronglySorted_inv in Hsorted as [Hsorted _]. by apply IH.
Qed.

(** C6. Resolving a tree against any previous state, for a facet whose
    providers among the flattened leaves are all Static.  The facet's
    address in the configuration is a static address; the value stored
    there, which is also what [staticFacet] returns, is [combine] of the
    providers' values in flatten order when there is no previous state,
    when the previous configuration has no address for the facet, or when
    [compare] of the new and the old value fails; when [compare] holds it
    is the old value itself.  Ids are taken from one counter, so no
    provider has the id of the facet; the configuration has fewer than
    [2^30] static values. *)
Theorem static_group_resolution (extension : Extension) (oldState : option EditorState)
    (c : Configuration) (p0 : FacetProvider) (rest : list FacetProvider) :
  Configuration_resolve extension oldState = Ok c ->
  let facet := fp_facet p0 in
  providersFor (fd_id facet) (flatten extension) = p0 :: rest ->
  Forall (fun p => fp_type p = Static) (p0 :: rest) ->
  (forall p, LeafProvider p ∈ flatten extension -> fp_id p <> fd_id facet) ->
  lengthZ (staticValues c) < 2 ^ 30 ->
  let fresh := combine facet (fp_value <$> p0 :: rest) in
  exists a v,
    address c !! fd_id facet = Some a /\
    js_and (Some a) 1 = 1 /\
    array_get (staticValues c) (js_shr (Some a) 1) = Some v /\
    Configuration_staticFacet c (MkFacet (Some facet)) = Ok v /\
    (oldState = None -> v = fresh) /\
    (forall old, oldState = Some old ->
       address (config old) !! fd_id facet = None -> v = fresh) /\
    (forall old a', oldState = Some old ->
       address (config old) !! fd_id facet = Some a' ->
       v = if compare facet fresh (getAddr old (Some a'))
           then getAddr old (Some a') else fresh).
Proof.
  intros Hres facet Hgroup Hstatic Hids Hbound fresh.
  unfold Configuration_resolve in Hres.
  pose proof (classify_groupFor (flatten extension) (fd_id facet) [] []) as Hfor.
  destruct (classify_invariants (flatten extension) [] []) as [Hsorted Hkeyed];
    [constructor|constructor|].
  pose proof (fun q => classify_members (flatten extension) q [] []) as Hmem.
  destruct (classify (flatten extension) [] []) as [fields groups] eqn:Hclass.
  simpl in Hfor, Hsorted, Hkeyed, Hmem.
  rewrite Hgroup in Hfor. specialize (Hfor ltac:(constructor)).
  apply groupFor_elem, list_elem_of_split in Hfor as (pre & post & ->).
  destruct (placeGroups oldState _ _) as [l| |] eqn:Hplace; try done. simpl in Hres.
  destruct (mapResult _ _) as [slots| |]; try done. simpl in Hres.
  injection Hres as <-. simpl in *.
  apply placeGroups_app_inv in Hplace as (l1 & _ & Hplace). cbn [placeGroups] in Hplace.
  rewrite placeGroup_static in Hplace.
  2: { apply forallb_forall. intros p Hp%list_elem_of_In.
       rewrite Forall_forall in Hstatic. by rewrite (Hstatic p Hp). }
  cbn [bindR] in Hplace. fold facet in Hplace.
  set (v := staticGroupValue oldState facet (p0 :: rest)) in *.
  set (a := js_or (js_shl (lengthZ (l_staticValues l1)) 1) 1) in *.
  assert (Forall (fun g : nat * list FacetProvider =>
                    Forall (fun p => fp_id p <> fd_id facet /\
                                     fd_id (fp_facet p) <> fd_id facet) g.2) post)
    as Hpost.
  { rewrite fmap_app, fmap_cons in Hsorted. apply sorted_after in Hsorted.
    rewrite Forall_fmap in Hsorted.
    rewrite Forall_app, Forall_cons in Hkeyed. destruct Hkeyed as (_ & _ & Hkeyed).
    apply Forall_forall. intros g Hg. apply Forall_forall. intros p Hp.
    rewrite Forall_forall in Hsorted, Hkeyed. split.
    - apply Hids. destruct (proj1 (Hmem p)) as [Hleaf|Hnil]; [|done|by apply elem_of_nil in Hnil].
      apply list_elem_of_In, in_flat_map. exists g.
      split; [|by apply list_elem_of_In]. apply list_elem_of_In. set_solver.
    - specialize (Hkeyed g Hg). rewrite Forall_forall in Hkeyed.
      rewrite (Hkeyed p Hp). intros Heq. by apply (Hsorted g Hg). }
  destruct (placeGroups_keeps _ _ _ Hpost _ _ Hplace) as [Haddr [extra Hextra]].
  simpl in Haddr, Hextra. rewrite lookup_insert_eq in Haddr.
  assert (0 <= lengthZ (l_staticValues l1) < 2 ^ 30) as Hidx.
  { unfold lengthZ in *. rewrite Hextra in Hbound.
    rewrite !length_app in Hbound. simpl in Hbound. lia. }
  destruct (static_address_index _ Hidx) as [Hshr Hbit]. fold a in Hshr, Hbit.
  assert (array_get (l_staticValues l) (js_shr (Some a) 1) = Some v) as Hget.
  { rewrite Hshr, Hextra. unfold array_get, lengthZ.
    rewrite decide_True by lia. rewrite Nat2Z.id, <- app_assoc.
    by apply list_lookup_middle. }
  exists a, v. split; [done|]. split; [done|]. split; [done|].
  split.
  { unfold Configuration_staticFacet. simpl. rewrite Haddr. by rewrite Hget. }
  unfold v, staticGroupValue. fold fresh.
  split; [by intros ->|]. split; [by intros old -> ->|]. by intros old a' -> ->.
Qed.

Lemma static_group_resolution_witness :
  Configuration_staticFacet
    (resolved (Configuration_resolve (ExtArray 103 [ExtProvider tab2; ExtProvider tab8]) None))
    TabsizeFacet = Ok (VNum 8) /\
  Configuration_staticFacet
    (resolved (Configuration_resolve (ExtProvider word2) (Some wordsOld)))
    (MkFacet (Some Words)) = Ok (VArr 799 [VNum 2]) /\
  Configuration_staticFacet
    (resolved (Configuration_resolve (ExtProvider tab2) (Some tabOld)))
    TabsizeFacet = Ok (VNum 2).
Proof.
  split; [|split].
  - destruct (static_group_resolution (ExtArray 103 [ExtProvider tab2; ExtProvider tab8])
                None
                (resolved (Configuration_resolve
                             (ExtArray 103 [ExtProvider tab2; ExtProvider tab8]) None))
                tab2 [tab8] eq_refl)
      as (a & v & _ & _ & _ & Hread & Hnew & _).
    + by vm_compute.
    + by repeat constructor.
    + assert (flatten (ExtArray 103 [ExtProvider tab2; ExtProvider tab8])
              = [LeafProvider tab2; LeafProvider tab8]) as -> by (by vm_compute).
      intros p [Hp|Hp]%elem_of_cons; [by simplify_eq|].
      apply list_elem_of_singleton in Hp. by simplify_eq.
    + by vm_compute.
    + transitivity (Ok v); [exact Hread|]. by rewrite (Hnew eq_refl).
  - destruct (static_group_resolution (ExtProvider word2) (Some wordsOld)
                (resolved (Configuration_resolve (ExtProvider word2) (Some wordsOld)))
                word2 [] eq_refl)
      as (a & v & _ & _ & _ & Hread & _ & _ & Hold).
    + by vm_compute.
    + by repeat constructor.
    + assert (flatten (ExtProvider word2) = [LeafProvider word2]) as ->
        by (by vm_compute).
      intros p Hp. apply list_elem_of_singleton in Hp. by simplify_eq.
    + by vm_compute.
    + transitivity (Ok v); [exact Hread|]. by rewrite (Hold wordsOld 1 eq_refl eq_refl).
  - destruct (static_group_resolution (ExtProvider tab2) (Some tabOld)
                (resolved (Configuration_resolve (ExtProvider tab2) (Some tabOld)))
                tab2 [] eq_refl)
      as (a & v & _ & _ & _ & Hread & _ & _ & Hold).
    + by vm_compute.
    + by repeat constructor.
    + assert (flatten (ExtProvider tab2) = [LeafProvider tab2]) as ->
        by (by vm_compute).
      intros p Hp. apply list_elem_of_singleton in Hp. by simplify_eq.
    + by vm_compute.
    + transitivity (Ok v); [exact Hread|]. by rewrite (Hold tabOld 1 eq_refl eq_refl).
Defined.

(** * Shared objects in a tree *)

Lemma elem_of_flat_map {A B} (f : A -> list B) (l : list A) (y : B) :
  y ∈ flat_map f l <-> exists x, x ∈ l /\ y ∈ f x.
Proof.
  rewrite list_elem_of_In, in_flat_map.
  split; intros (x & Hx & Hy); exists x; split; by apply list_elem_of_In.
Qed.

Lemma subtrees_unfold ext :
  subtrees ext =
  ext :: match ext with
         | ExtProvider _ => []
         | ExtField f => subtrees (facets f)
         | ExtPrec _ e _ => subtrees e
         | ExtArray _ items => flat_map subtrees items
         end.
Proof. destruct ext as [p|[r i c u cmp fs]|r e p|r items]; reflexivity. Qed.

Lemma subtrees_self n : n ∈ subtrees n.
Proof. rewrite subtrees_unfold. set_solver. Qed.

Lemma subtrees_trans m : forall n d, d ∈ subtrees n -> n ∈ subtrees m -> d ∈ subtrees m.
Proof.
  induction m as [p|r i c u cmp fs IH|r e p IH|r items IH]
    using Extension_tree_ind; intros n d Hd Hn; rewrite subtrees_unfold in Hn;
    (apply elem_of_cons in Hn as [->|Hn]; [done|]); rewrite subtrees_unfold;
    simpl in *.
  - by apply elem_of_nil in Hn.
  - apply elem_of_cons. right. by apply (IH n).
  - apply elem_of_cons. right. by apply (IH n).
  - apply elem_of_cons. right.
    apply elem_of_flat_map in Hn as (x & Hx & Hn). apply elem_of_flat_map.
    exists x. split; [done|]. rewrite Forall_forall in IH. by apply (IH x Hx n).
Qed.

Lemma weight_item (items : list Extension) e :
  e ∈ items -> (weight e <= list_sum (map weight items))%nat.
Proof.
  induction items as [|x items IH]; [by intros ?%elem_of_nil|].
  simpl. intros [->|He]%elem_of_cons; [lia|]. specialize (IH He). lia.
Qed.

(** An object below another one is smaller. *)
Lemma subtrees_weight n :
  forall d, d ∈ subtrees n -> d = n \/ (weight d < weight n)%nat.
Proof.
  induction n as [p|r i c u cmp fs IH|r e p IH|r items IH]
    using Extension_tree_ind; intros d; rewrite subtrees_unfold; simpl;
    intros [->|Hd]%elem_of_cons; try (by left); right.
  - by apply elem_of_nil in Hd.
  - destruct (IH d Hd) as [->|?]; lia.
  - destruct (IH d Hd) as [->|?]; lia.
  - apply elem_of_flat_map in Hd as (x & Hx & Hd).
    rewrite Forall_forall in IH. pose proof (weight_item items x Hx).
    destruct (IH x Hx d Hd) as [->|?]; lia.
Qed.

Lemma listedRefs_cons x l : listedRefs (x :: l) = {[leaf_ref x.2]} ∪ listedRefs l.
Proof. done. Qed.

Lemma listedRefs_app l1 l2 : listedRefs (l1 ++ l2) = listedRefs l1 ∪ listedRefs l2.
Proof. unfold listedRefs. by rewrite !fmap_app, list_to_set_app_L. Qed.

Lemma firstOnly_app l1 : forall listed l2,
  firstOnly listed (l1 ++ l2) =
  firstOnly listed l1 ++ firstOnly (listed ∪ listedRefs l1) l2.
Proof.
  induction l1 as [|x l1 IH]; intros listed l2; simpl.
  - f_equal. unfold listedRefs. simpl. set_solver.
  - rewrite listedRefs_cons. case_decide as Hin.
    + rewrite IH. do 2 f_equal. set_solver.
    + simpl. rewrite IH. do 3 f_equal. set_solver.
Qed.

Lemma listedRefs_firstOnly l : forall listed,
  listed ∪ listedRefs (firstOnly listed l) = listed ∪ listedRefs l.
Proof.
  induction l as [|x l IH]; intros listed; simpl; [done|].
  rewrite listedRefs_cons. case_decide as Hin.
  - rewrite IH. set_solver.
  - rewrite listedRefs_cons. specialize (IH ({[leaf_ref x.2]} ∪ listed)). set_solver.
Qed.

Lemma firstOnly_nil l : forall listed, listedRefs l ⊆ listed -> firstOnly listed l = [].
Proof.
  induction l as [|x l IH]; intros listed; simpl; [done|].
  rewrite listedRefs_cons. intros Hsub. rewrite decide_True by set_solver.
  apply IH. set_solver.
Qed.

(** The leaves of a tree do not depend on the ambient tier. *)
Lemma tagged_leaves ext : forall t t', (tagged ext t).*2 = (tagged ext t').*2.
Proof.
  induction ext as [p|r i c u cmp fs IH|r e p IH|r items IH]
    using Extension_tree_ind; intros t t'; simpl; [done| | |].
  - f_equal. apply IH.
  - done.
  - induction IH as [|e items He _ IHitems]; simpl; [done|].
    rewrite !fmap_app. by rewrite (He t t'), IHitems.
Qed.

Lemma tagged_listed ext t : listedRefs (tagged ext t) = listedRefs (tagged ext Default).
Proof. unfold listedRefs. by rewrite (tagged_leaves ext t Default). Qed.

Lemma listedRefs_items (items : list Extension) t e :
  e ∈ items ->
  listedRefs (tagged e Default) ⊆ listedRefs (flat_map (fun e => tagged e t) items).
Proof.
  induction items as [|x items IH]; [by intros ?%elem_of_nil|].
  simpl. rewrite listedRefs_app. intros [->|He]%elem_of_cons.
  - rewrite (tagged_listed x t). set_solver.
  - specialize (IH He). set_solver.
Qed.

(** The leaves of an object of a tree are leaves of the tree. *)
Lemma listedRefs_subtree n :
  forall d, d ∈ subtrees n ->
    listedRefs (tagged d Default) ⊆ listedRefs (tagged n Default).
Proof.
  induction n as [p|r i c u cmp fs IH|r e p IH|r items IH]
    using Extension_tree_ind; intros d; rewrite subtrees_unfold; simpl;
    intros [->|Hd]%elem_of_cons; try done.
  - by apply elem_of_nil in Hd.
  - rewrite listedRefs_cons. specialize (IH d Hd). set_solver.
  - rewrite (tagged_listed e p). by apply IH.
  - apply elem_of_flat_map in Hd as (x & Hx & Hd).
    rewrite Forall_forall in IH. etrans; [by apply (IH x Hx)|].
    by apply listedRefs_items.
Qed.

Section Shared.
Variable root : Extension.
Hypothesis Hroot : consistent root.

Lemma closed_enter open visited l l1 r :
  closed root open (visited, l) ->
  listedRefs l ⊆ listedRefs l1 -> listedRefs l1 ⊆ {[r]} ∪ visited ->
  closed root ({[r]} ∪ open) ({[r]} ∪ visited, l1).
Proof using Hroot.
  intros [Hsub Hcl] H1 H2. split; simpl in *; [done|].
  intros m Hm Hin Hout. etrans; [|exact H1]. apply Hcl; set_solver.
Qed.

Lemma closed_exit open acc n :
  n ∈ subtrees root ->
  closed root ({[ref_of n]} ∪ open) acc ->
  listedRefs (tagged n Default) ⊆ listedRefs acc.2 ->
  closed root open acc.
Proof using Hroot.
  intros Hn [Hsub Hcl] Hleaves. split; [done|].
  intros m Hm Hin Hout. destruct (decide (ref_of m = ref_of n)) as [Heq|Hne].
  - by rewrite (Hroot m n Hm Hn Heq).
  - apply Hcl; set_solver.
Qed.

(** An object below a child of [n] is not [n]. *)
Lemma below_child n c d :
  n ∈ subtrees root -> c ∈ subtrees n -> (weight c < weight n)%nat ->
  d ∈ subtrees c -> ref_of d <> ref_of n.
Proof using Hroot.
  intros Hn Hc Hlt Hd Href.
  assert (d = n) as ->.
  { apply Hroot; [|done|done]. eapply subtrees_trans; [exact Hd|].
    by eapply subtrees_trans. }
  destruct (subtrees_weight c n Hd) as [->|?]; lia.
Qed.

Lemma visit_items_first (items : list Extension) tier open :
  Forall (addsFirst root) items ->
  Forall (fun e => e ∈ subtrees root /\ forall d, d ∈ subtrees e -> ref_of d ∉ open) items ->
  forall acc,
    closed root open acc ->
    let acc' := foldl (fun acc e => visit e tier acc) acc items in
    acc'.2 = acc.2 ++ firstOnly (listedRefs acc.2)
                        (flat_map (fun e => tagged e tier) items) /\
    closed root open acc' /\
    listedRefs acc.2 ⊆ listedRefs acc'.2 /\
    listedRefs (flat_map (fun e => tagged e tier) items) ⊆ listedRefs acc'.2.
Proof using Hroot.
  induction 1 as [|e items He _ IH]; intros Hin acc Hcl; simpl.
  - rewrite app_nil_r. split; [done|]. split; [done|]. split; [done|].
    unfold listedRefs. simpl. set_solver.
  - apply Forall_cons in Hin as [[He1 He2] Hin].
    destruct (He tier open acc He1 He2 Hcl) as (Hl & Hcl2 & Hleaves).
    destruct (IH Hin _ Hcl2) as (Hl' & Hcl' & Hmono & Hrest).
    assert (listedRefs (visit e tier acc).2 =
            listedRefs acc.2 ∪ listedRefs (tagged e tier)) as Hrefs.
    { rewrite Hl, listedRefs_app. apply listedRefs_firstOnly. }
    split; [|split; [done|split]].
    + rewrite Hl', Hrefs, Hl, firstOnly_app. by rewrite <- app_assoc.
    + etrans; [|exact Hmono]. rewrite Hrefs. set_solver.
    + rewrite listedRefs_app. rewrite Hrefs in Hmono. set_solver.
Qed.

Lemma visit_first ext : addsFirst root ext.
Proof using Hroot.
  induction ext as [p|r i c u cmp fs IH|r e p IH|r items IH]
    using Extension_tree_ind; intros tier open [visited l] Hn Hopen Hcl;
    rewrite visit_unfold; cbn [fst snd]; case_decide as Hseen.
  all: try (assert (listedRefs (tagged (ExtProvider p) Default) ⊆ listedRefs l) as Hdone
              by (apply (proj2 Hcl); [done|done|apply Hopen, subtrees_self])).
  all: try (assert (listedRefs (tagged (ExtField (MkStateField r i c u cmp fs)) Default)
                      ⊆ listedRefs l) as Hdone
              by (apply (proj2 Hcl); [done|done|apply Hopen, subtrees_self])).
  all: try (assert (listedRefs (tagged (ExtPrec r e p) Default) ⊆ listedRefs l) as Hdone
              by (apply (proj2 Hcl); [done|done|apply Hopen, subtrees_self])).
  all: try (assert (listedRefs (tagged (ExtArray r items) Default) ⊆ listedRefs l) as Hdone
              by (apply (proj2 Hcl); [done|done|apply Hopen, subtrees_self])).
  all: try (split; [|by split];
            rewrite firstOnly_nil by (by rewrite tagged_listed); by rewrite app_nil_r).
  - (* a provider *)
    destruct Hcl as [Hsub Hcl]. simpl in *.
    assert (fp_ref p ∉ listedRefs l) as Hfresh by set_solver.
    split; [by rewrite decide_False|].
    assert (listedRefs (l ++ [(tier, LeafProvider p)]) = listedRefs l ∪ {[fp_ref p]})
      as Hrefs by (rewrite listedRefs_app; unfold listedRefs; simpl; set_solver).
    split; [|rewrite Hrefs; unfold listedRefs; simpl; set_solver].
    apply (closed_exit open _ (ExtProvider p) Hn).
    + apply (closed_enter open visited l); [by split| |]; rewrite Hrefs; set_solver.
    + simpl. rewrite Hrefs. unfold listedRefs. simpl. set_solver.
  - (* a field *)
    set (f := MkStateField r i c u cmp fs) in *.
    pose proof Hcl as [Hsub _]. simpl in Hsub, Hseen.
    assert (r ∉ listedRefs l) as Hfresh by set_solver.
    assert (listedRefs (l ++ [(tier, LeafField f)]) = {[r]} ∪ listedRefs l)
      as Hrefs by (rewrite listedRefs_app; unfold listedRefs; simpl; set_solver).
    assert (fs ∈ subtrees (ExtField f)) as Hfs.
    { rewrite subtrees_unfold. apply elem_of_cons. right. apply subtrees_self. }
    destruct (IH tier ({[r]} ∪ open) ({[r]} ∪ visited, l ++ [(tier, LeafField f)]))
      as (Hl & Hcl' & Hleaves).
    + by eapply subtrees_trans.
    + intros d Hd. apply not_elem_of_union. split.
      * apply not_elem_of_singleton.
        apply (below_child (ExtField f) fs d Hn Hfs); [simpl; lia|done].
      * apply Hopen. by eapply subtrees_trans.
    + apply (closed_enter open visited l); [done| |]; rewrite Hrefs; set_solver.
    + simpl in Hl. simpl. rewrite decide_False by done.
      assert (listedRefs (tagged (ExtField f) Default)
              ⊆ listedRefs (visit fs tier ({[r]} ∪ visited, l ++ [(tier, LeafField f)])).2)
        as Hall.
      { simpl. rewrite listedRefs_cons. simpl. rewrite Hl, listedRefs_app, Hrefs.
        rewrite Hl in Hleaves. rewrite listedRefs_app, Hrefs in Hleaves. set_solver. }
      split; [|split; [|done]].
      * rewrite Hl, Hrefs. by rewrite <- app_assoc.
      * by apply (closed_exit open _ (ExtField f) Hn).
  - (* a precedence wrapper *)
    pose proof Hcl as [Hsub _]. simpl in Hsub, Hseen.
    assert (e ∈ subtrees (ExtPrec r e p)) as He.
    { rewrite subtrees_unfold. apply elem_of_cons. right. apply subtrees_self. }
    destruct (IH p ({[r]} ∪ open) ({[r]} ∪ visited, l)) as (Hl & Hcl' & Hleaves).
    + by eapply subtrees_trans.
    + intros d Hd. apply not_elem_of_union. split.
      * apply not_elem_of_singleton.
        apply (below_child (ExtPrec r e p) e d Hn He); [simpl; lia|done].
      * apply Hopen. by eapply subtrees_trans.
    + apply (closed_enter open visited l); [done|done|set_solver].
    + simpl in Hl. simpl.
      assert (listedRefs (tagged (ExtPrec r e p) Default)
              ⊆ listedRefs (visit e p ({[r]} ∪ visited, l)).2) as Hall.
      { simpl. by rewrite (tagged_listed e p). }
      split; [done|]. split; [|done].
      by apply (closed_exit open _ (ExtPrec r e p) Hn).
  - (* an array *)
    pose proof Hcl as [Hsub _]. simpl in Hsub, Hseen.
    destruct (visit_items_first items tier ({[r]} ∪ open) IH) with
      (acc := ({[r]} ∪ visited, l)) as (Hl & Hcl' & _ & Hleaves).
    + apply Forall_forall. intros x Hx.
      assert (x ∈ subtrees (ExtArray r items)) as Hxs.
      { rewrite subtrees_unfold. apply elem_of_cons. right.
        apply elem_of_flat_map. exists x. split; [done|apply subtrees_self]. }
      split; [by eapply subtrees_trans|].
      intros d Hd. apply not_elem_of_union. split.
      * apply not_elem_of_singleton.
        apply (below_child (ExtArray r items) x d Hn Hxs); [|done].
        pose proof (weight_item items x Hx). simpl. lia.
      * apply Hopen. by eapply subtrees_trans.
    + apply (closed_enter open visited l); [done|done|set_solver].
    + simpl in Hl. simpl.
      assert (listedRefs (tagged (ExtArray r items) Default)
              ⊆ listedRefs (foldl (fun acc e => visit e tier acc)
                              ({[r]} ∪ visited, l) items).2) as Hall.
      { by rewrite <- (tagged_listed (ExtArray r items) tier). }
      split; [done|]. split; [|done].
      by apply (closed_exit open _ (ExtArray r items) Hn).
Qed.
End Shared.

(** On a tree that stands for an object graph the walk lists the first
    occurrence of every leaf, and nothing else. *)
Lemma visit_first_occurrences ext :
  consistent ext -> (visit ext Default (∅, [])).2 = firstOnly ∅ (tagged ext Default).
Proof.
  intros Hc. destruct (visit_first ext Hc ext Default ∅ (∅, [])) as [Hl _]; [| | |done].
  - apply subtrees_self.
  - intros d _. set_solver.
  - split; simpl; [done|]. intros m _ Hin. set_solver.
Qed.

Lemma flatten_first_occurrences ext :
  consistent ext ->
  let leaves := firstOnly ∅ (tagged ext Default) in
  flatten ext =
    ofTier Override leaves ++ ofTier Extend leaves
      ++ ofTier Default leaves ++ ofTier Fallback leaves.
Proof.
  intros Hc leaves. rewrite flatten_tier_order. unfold flatten_by_tier.
  by rewrite (visit_first_occurrences ext Hc).
Qed.

(** Taking a repeated element out of the root array leaves a tree that
    stands for an object graph. *)
Lemma consistent_drop r xs e ys :
  consistent (ExtArray r (xs ++ e :: ys)) -> consistent (ExtArray r (xs ++ ys)).
Proof.
  intros Hc.
  assert (forall n, n ∈ flat_map subtrees (xs ++ ys) ->
                    n ∈ subtrees (ExtArray r (xs ++ e :: ys)) /\ ref_of n <> r) as Hsub.
  { intros n Hn. apply elem_of_flat_map in Hn as (x & Hx & Hn).
    assert (x ∈ xs ++ e :: ys) as Hx' by set_solver.
    assert (x ∈ subtrees (ExtArray r (xs ++ e :: ys))) as Hxs.
    { rewrite subtrees_unfold. apply elem_of_cons. right.
      apply elem_of_flat_map. exists x. split; [done|apply subtrees_self]. }
    split; [by eapply subtrees_trans|]. intros Href.
    assert (n = ExtArray r (xs ++ e :: ys)) as ->.
    { apply Hc; [by eapply subtrees_trans|apply subtrees_self|done]. }
    pose proof (weight_item _ _ Hx') as Hw.
    destruct (subtrees_weight x _ Hn) as [<-|Hlt]; simpl in *; lia. }
  intros n m Hn Hm Href. rewrite subtrees_unfold in Hn, Hm.
  apply elem_of_cons in Hn as [->|Hn]; apply elem_of_cons in Hm as [->|Hm].
  - done.
  - destruct (Hsub m Hm) as [_ Hne]. by destruct Hne.
  - destruct (Hsub n Hn) as [_ Hne]. by destruct Hne.
  - apply Hc; [by apply Hsub|by apply Hsub|done].
Qed.

(** An element of the root array that occurs, at any depth, in an earlier
    element adds nothing. *)
Lemma flatten_later_occurrence r xs e ys :
  consistent (ExtArray r (xs ++ e :: ys)) ->
  e ∈ flat_map subtrees xs ->
  flatten (ExtArray r (xs ++ e :: ys)) = flatten (ExtArray r (xs ++ ys)).
Proof.
  intros Hc He. rewrite !flatten_tier_order. unfold flatten_by_tier.
  rewrite (visit_first_occurrences _ Hc).
  rewrite (visit_first_occurrences _ (consistent_drop _ _ _ _ Hc)).
  cbn [tagged]. rewrite !flat_map_app. cbn [flat_map].
  rewrite !firstOnly_app.
  assert (listedRefs (tagged e Default)
          ⊆ listedRefs (flat_map (fun e => tagged e Default) xs)) as Hsub.
  { apply elem_of_flat_map in He as (x & Hx & He).
    etrans; [by apply listedRefs_subtree|]. by apply listedRefs_items. }
  rewrite (firstOnly_nil (tagged e Default)) by set_solver.
  replace (∅ ∪ listedRefs (flat_map (fun e => tagged e Default) xs)
             ∪ listedRefs (tagged e Default))
    with (∅ ∪ listedRefs (flat_map (fun e => tagged e Default) xs) : gset nat)
    by set_solver.
  done.
Qed.

Lemma removes_leaves before t t' :
  removes before t t' ->
  forall tier listed,
    Forall (fun b => listedRefs (tagged b Default) ⊆ listed) before ->
    firstOnly listed (tagged t tier) = firstOnly listed (tagged t' tier) /\
    listed ∪ listedRefs (tagged t tier) = listed ∪ listedRefs (tagged t' tier).
Proof.
  induction 1 as [before r xs e ys He|before r xs x x' ys _ IH|before r x x' p _ IH];
    intros tier listed Hbefore; cbn [tagged].
  - rewrite !flat_map_app. cbn [flat_map]. rewrite !firstOnly_app, !listedRefs_app.
    assert (listedRefs (tagged e tier)
            ⊆ listed ∪ listedRefs (flat_map (fun e => tagged e tier) xs)) as Hsub.
    { rewrite (tagged_listed e tier).
      apply elem_of_flat_map in He as (b & Hb & He).
      etrans; [by apply listedRefs_subtree|].
      apply elem_of_app in Hb as [Hb|Hb].
      - rewrite Forall_forall in Hbefore. specialize (Hbefore b Hb). set_solver.
      - pose proof (listedRefs_items xs tier b Hb). set_solver. }
    rewrite (firstOnly_nil (tagged e tier)) by done.
    replace (listed ∪ listedRefs (flat_map (fun e => tagged e tier) xs)
               ∪ listedRefs (tagged e tier))
      with (listed ∪ listedRefs (flat_map (fun e => tagged e tier) xs))
      by set_solver.
    split; [done|]. set_solver.
  - rewrite !flat_map_app. cbn [flat_map]. rewrite !firstOnly_app, !listedRefs_app.
    destruct (IH tier (listed ∪ listedRefs (flat_map (fun e => tagged e tier) xs)))
      as [Hfirst Hrefs].
    { apply Forall_app. split.
      - eapply Forall_impl; [exact Hbefore|]. simpl. set_solver.
      - apply Forall_forall. intros b Hb.
        pose proof (listedRefs_items xs tier b Hb). set_solver. }
    rewrite Hfirst, Hrefs. split; [done|].
    rewrite !(assoc_L (∪)), Hrefs. done.
  - by apply IH.
Qed.

(** Taking out an element that occurs earlier, at any depth below arrays
    and precedence wrappers, does not change what [flatten] returns. *)
Lemma flatten_removes t t' :
  consistent t -> consistent t' -> removes [] t t' -> flatten t = flatten t'.
Proof.
  intros Hc Hc' Hrem. rewrite !flatten_tier_order. unfold flatten_by_tier.
  rewrite (visit_first_occurrences _ Hc), (visit_first_occurrences _ Hc').
  destruct (removes_leaves [] t t' Hrem Default ∅) as [-> _]; [constructor|done].
Qed.

(** C8. For a tree that stands for an object graph, one identity for one
    object, [flatten] returns the leaves of the tree in pre-order with
    every occurrence of a leaf after its first one left out, arranged by
    tier: the first visit of an object wins, with the tier in force there,
    and a later occurrence adds nothing, whether the object is met again
    directly, inside an array, below a precedence wrapper or among the
    providers attached to a field.  Hence a tree from which an array
    element is taken out that occurs earlier in the walk, at any depth
    below arrays and precedence wrappers, flattens to the same leaves, and
    so does the root array without an element that occurs at any depth in
    an earlier element.  In any tree the walk returns at once on an object
    already in [seen], so an array with a second occurrence of an element
    flattens as the array without it. *)
Theorem flatten_dedup :
  (forall extension,
     consistent extension ->
     let leaves := firstOnly ∅ (tagged extension Default) in
     flatten extension =
       ofTier Override leaves ++ ofTier Extend leaves
         ++ ofTier Default leaves ++ ofTier Fallback leaves) /\
  (forall t t',
     consistent t -> consistent t' -> removes [] t t' -> flatten t = flatten t') /\
  (forall r xs e ys,
     consistent (ExtArray r (xs ++ e :: ys)) ->
     e ∈ flat_map subtrees xs ->
     flatten (ExtArray r (xs ++ e :: ys)) = flatten (ExtArray r (xs ++ ys))) /\
  (forall e prec s, ref_of e ∈ seen s -> inner e prec s = s) /\
  (forall r xs e ys e' zs,
     ref_of e' = ref_of e ->
     flatten (ExtArray r (xs ++ e :: ys ++ e' :: zs)) =
     flatten (ExtArray r (xs ++ e :: ys ++ zs))) /\
  (forall r xs e ys prec s,
     ref_of e ∈ seen s ->
     inner (ExtArray r (xs ++ e :: ys)) prec s =
     inner (ExtArray r (xs ++ ys)) prec s).
Proof.
  split; [apply flatten_first_occurrences|].
  split; [apply flatten_removes|].
  split; [apply flatten_later_occurrence|].
  split; [apply inner_seen|split].
  - intros r xs e ys e' zs Href. unfold flatten.
    by rewrite (inner_array_twice r xs e ys e' zs).
  - apply inner_array_skip.
Qed.

Lemma flatten_dedup_witness :
  flatten (ExtArray 12 ([ExtPrec 10 (ExtProvider tab2) Override]
                          ++ ExtProvider tab2 :: [ExtProvider tab8]))
  = flatten (ExtArray 12 ([ExtPrec 10 (ExtProvider tab2) Override] ++ [ExtProvider tab8])) /\
  flatten (ExtArray 12 [ExtPrec 10 (ExtProvider tab2) Override; ExtProvider tab2;
                        ExtProvider tab8])
  = [LeafProvider tab2; LeafProvider tab8] /\
  flatten (ExtArray 12 [ExtProvider tab2;
                        ExtPrec 10 (ExtArray 13 [ExtProvider tab8; ExtProvider tab2])
                          Override])
  = flatten (ExtArray 12 [ExtProvider tab2;
                          ExtPrec 10 (ExtArray 13 [ExtProvider tab8]) Override]).
Proof.
  assert (consistent (ExtArray 12 ([ExtPrec 10 (ExtProvider tab2) Override]
                                     ++ ExtProvider tab2 :: [ExtProvider tab8]))) as Hc.
  { intros n m Hn Hm Href. cbn in Hn, Hm.
    repeat (apply elem_of_cons in Hn as [->|Hn]);
      try (by apply elem_of_nil in Hn);
      repeat (apply elem_of_cons in Hm as [->|Hm]);
      try (by apply elem_of_nil in Hm); done. }
  split; [|split].
  - apply (proj1 (proj2 (proj2 flatten_dedup)) 12%nat
             [ExtPrec 10 (ExtProvider tab2) Override]
             (ExtProvider tab2) [ExtProvider tab8] Hc).
    cbn. set_solver.
  - etrans; [exact (proj1 flatten_dedup _ Hc)|]. by vm_compute.
  - apply (proj1 (proj2 flatten_dedup)).
    + intros n m Hn Hm Href. cbn in Hn, Hm.
      repeat (apply elem_of_cons in Hn as [->|Hn]);
        try (by apply elem_of_nil in Hn);
        repeat (apply elem_of_cons in Hm as [->|Hm]);
        try (by apply elem_of_nil in Hm); done.
    + intros n m Hn Hm Href. cbn in Hn, Hm.
      repeat (apply elem_of_cons in Hn as [->|Hn]);
        try (by apply elem_of_nil in Hn);
        repeat (apply elem_of_cons in Hm as [->|Hm]);
        try (by apply elem_of_nil in Hm); done.
    + apply (removes_item [] 12 [ExtProvider tab2]
               (ExtPrec 10 (ExtArray 13 [ExtProvider tab8; ExtProvider tab2]) Override)
               (ExtPrec 10 (ExtArray 13 [ExtProvider tab8]) Override) []).
      apply removes_prec.
      apply (removes_here ([] ++ [ExtProvider tab2]) 13 [ExtProvider tab8]
               (ExtProvider tab2) []).
      cbn. set_solver.
Defined.
